(** * Conquest map regioner: a shallow embedding of [conquest/regioner.py]

    The development follows the source file top-down: the pixel grid and
    Pillow's pixel access, [floodfill], the [Regioner] scan, the
    [ConquestMap] / [MapMaker] registry operations (merge, delete, prune,
    sort) and the JSON persistence of the registry.

    Conventions.
    - Python integers are [Z]; Python floats (region centres) are read as
      exact rationals [Q].
    - A Python [set] of coordinates is a duplicate-free list ([ListSet]);
      a Python [dict] is an association list in insertion order, since
      [prune_masks] and [sort_regions] iterate the registry in that order.
    - An exception is a value of [exn]; code that can raise returns a
      [result]; methods of [MapMaker] thread the map state explicitly and
      keep the state reached when an exception is raised. *)

From Stdlib Require Import String Ascii DecimalString.
From Stdlib Require Import ZArith DecimalZ List Lia Bool QArith.
From Stdlib Require Import ListSet Permutation Sorted.
Import ListNotations.
Local Open Scope Z_scope.

(** ** Exceptions and results *)

(** The Python exceptions of the modelled code.  [Unmodelled] is not one of
    them: it marks an input that this development does not cover, either a
    value that the typed records below cannot hold (Python stores it and
    goes on) or an exception that is not listed here.  Nothing is stated
    about the code on such an input. *)
Inductive exn : Type :=
| ValueError | IndexError | KeyError | FileNotFoundError
| ZeroDivisionError | NotImplementedError | TypeError
| Unmodelled.

Inductive result (A : Type) : Type :=
| Ok (a : A)
| Raise (e : exn).
Arguments Ok {A} a.
Arguments Raise {A} e.

(** Computations over a mutable state [S] that may raise: the state
    reached is kept when an exception is raised, so that a handler (or the
    caller) sees what was mutated before the failure. *)
Definition M (S A : Type) : Type := S -> result A * S.

Definition ret {S A} (a : A) : M S A := fun s => (Ok a, s).

Definition raise {S A} (e : exn) : M S A := fun s => (Raise e, s).

Definition bind {S A B} (m : M S A) (k : A -> M S B) : M S B :=
  fun s =>
    match m s with
    | (Ok a, s') => k a s'
    | (Raise e, s') => (Raise e, s')
    end.

Definition get {S} : M S S := fun s => (Ok s, s).

Definition put {S} (s : S) : M S unit := fun _ => (Ok tt, s).

Definition lift {S A} (r : result A) : M S A := fun s => (r, s).

(** [try: m  except <caught>: h]. *)
Definition try_except {S A} (m : M S A) (caught : exn -> bool) (h : M S A)
  : M S A :=
  fun s =>
    match m s with
    | (Raise e, s') => if caught e then h s' else (Raise e, s')
    | r => r
    end.

Declare Scope monad_scope.
Delimit Scope monad_scope with monad.
Notation "x <- c ;; k" := (bind c (fun x => k))
  (at level 61, c at next level, right associativity) : monad_scope.
Notation "' pat <- c ;; k" := (bind c (fun x => match x with pat => k end))
  (at level 61, pat pattern, c at next level, right associativity) : monad_scope.
Notation "c ;; k" := (bind c (fun _ => k))
  (at level 61, right associativity) : monad_scope.

(** [for a in l: body a]. *)
Fixpoint for_each {S A} (l : list A) (body : A -> M S unit) : M S unit :=
  match l with
  | [] => ret tt
  | a :: l' => (body a ;; for_each l' body)%monad
  end.

(** A [for] loop that also updates local variables [b]. *)
Fixpoint for_fold {S A B} (l : list A) (body : B -> A -> M S B) (b : B)
  : M S B :=
  match l with
  | [] => ret b
  | a :: l' => (b' <- body b a ;; for_fold l' body b')%monad
  end.

(** ** Pixel grids *)

Definition point : Type := (Z * Z)%type.

Definition point_eq_dec (p q : point) : {p = q} + {p <> q}.
Proof. decide equality; apply Z.eq_dec. Defined.

Definition pset : Type := set point.
Definition pset_add : point -> pset -> pset := set_add point_eq_dec.
Definition pset_mem : point -> pset -> bool := set_mem point_eq_dec.
Definition pset_update : pset -> pset -> pset := set_union point_eq_dec.

(** A PIL image of a single-band mode ("L" or "1"): its size and the value
    stored at each coordinate of the grid.  Only coordinates inside the
    grid are ever read. *)
Record image : Type := mkImage {
  width : Z;
  height : Z;
  pix : point -> Z
}.

(** [Image.new(mode, size, color)]. *)
Definition Image_new (size : Z * Z) (color : Z) : image :=
  mkImage (fst size) (snd size) (fun _ => color).

Definition in_image (im : image) (p : point) : bool :=
  (0 <=? fst p) && (fst p <? width im) && (0 <=? snd p) && (snd p <? height im).

(** Raw store at a grid coordinate. *)
Definition store (im : image) (c : point) (v : Z) : image :=
  mkImage (width im) (height im)
          (fun q => if point_eq_dec q c then v else pix im q).

(** Pillow's [PixelAccess] index check, shared by [pixel[x, y]],
    [pixel[x, y] = v], [getpixel] and [putpixel]: a negative index counts
    from the far side ("access using negative indexes is also possible"),
    and a coordinate that is still outside the grid raises [IndexError]. *)
Definition locate (im : image) (xy : point) : result point :=
  let x := if fst xy <? 0 then width im + fst xy else fst xy in
  let y := if snd xy <? 0 then height im + snd xy else snd xy in
  if in_image im (x, y) then Ok (x, y) else Raise IndexError.

Definition getpixel (im : image) (xy : point) : result Z :=
  match locate im xy with
  | Ok c => Ok (pix im c)
  | Raise e => Raise e
  end.

Definition putpixel (im : image) (xy : point) (v : Z) : result image :=
  match locate im xy with
  | Ok c => Ok (store im c v)
  | Raise e => Raise e
  end.

(** [range(n)] and the coordinates of a grid in row-major order. *)
Definition range (n : Z) : list Z := map Z.of_nat (seq 0 (Z.to_nat n)).

Definition coords (im : image) : list point :=
  flat_map (fun y => map (fun x => (x, y)) (range (width im))) (range (height im)).

(** [PIL.ImageDraw._color_diff] on single-band colours. *)
Definition _color_diff (color1 color2 : Z) : Z := Z.abs (color1 - color2).

(** ** [floodfill] *)

Section Floodfill.

Variable value : Z.
Variable border : option Z.
Variable thresh : Z.
Variable background : Z.

(** The test deciding whether a neighbour holding [p] is filled. *)
Definition fill_test (p : Z) : bool :=
  match border with
  | None => _color_diff p background <=? thresh
  | Some b => negb ((p =? value) || (p =? b))
  end.

(** State of one pass over the edge: the grid, [full_edge], [new_edge]. *)
Definition sweep_state : Type := (image * pset * pset)%type.

(** Body of the inner [for (s, t) in ...] loop. *)
Definition visit (st : sweep_state) (q : point) : sweep_state :=
  let '(im, full_edge, new_edge) := st in
  if pset_mem q full_edge || (fst q <? 0) || (snd q <? 0) then st
  else
    match locate im q with
    | Raise _ => st
    | Ok c =>
        let p := pix im c in
        let full_edge := pset_add q full_edge in
        if fill_test p
        then (store im c value, full_edge, pset_add q new_edge)
        else (im, full_edge, new_edge)
    end.

Definition neighbours (p : point) : list point :=
  let (x, y) := p in [(x + 1, y); (x - 1, y); (x, y + 1); (x, y - 1)].

(** Body of [for (x, y) in edge]. *)
Definition visit_around (st : sweep_state) (p : point) : sweep_state :=
  fold_left visit (neighbours p) st.

Definition sweep (im : image) (edge full_edge : pset) : sweep_state :=
  fold_left visit_around edge (im, full_edge, []).

(** The [while edge:] loop.  [None] only when [fuel] iterations did not
    empty the edge; the fuel given by [floodfill] always suffices, as is
    proved below, so its [None] branch is never taken. *)
Fixpoint floodfill_loop (fuel : nat) (im : image)
         (edge full_edge filled_pixels : pset) : option (image * pset) :=
  match edge with
  | [] => Some (im, filled_pixels)
  | _ :: _ =>
      match fuel with
      | O => None
      | S fuel' =>
          let filled_pixels := pset_update filled_pixels edge in
          let '(im', _, new_edge) := sweep im edge full_edge in
          floodfill_loop fuel' im' new_edge edge filled_pixels
      end
  end.

End Floodfill.

(** [floodfill(image, xy, value, border, thresh)]: the grid after the fill
    and the set of filled coordinates. *)
Definition floodfill (im : image) (xy : point) (value : Z)
           (border : option Z) (thresh : Z) : image * pset :=
  match locate im xy with
  | Raise _ => (im, [])                       (* seed point outside image *)
  | Ok c =>
      let background := pix im c in
      if _color_diff value background <=? thresh
      then (im, [])                 (* seed point already has fill color *)
      else
        match floodfill_loop value border thresh background
                (S (length (coords im))) (store im c value) [xy] [] [] with
        | Some r => r
        | None => (im, [])
        end
  end.

(** ** Dictionaries and sorting *)

Section Dict.

Variables K V : Type.
Variable K_eq_dec : forall a b : K, {a = b} + {a <> b}.

(** A [dict]: unique keys, in insertion order. *)
Definition dict : Type := list (K * V).

Definition dict_keys (d : dict) : list K := map fst d.

Fixpoint dict_get (k : K) (d : dict) : option V :=
  match d with
  | [] => None
  | (k', v) :: d' => if K_eq_dec k k' then Some v else dict_get k d'
  end.

(** [k in d]. *)
Definition dict_mem (k : K) (d : dict) : bool :=
  match dict_get k d with
  | Some _ => true
  | None => false
  end.

(** [d[k]]. *)
Definition dict_item (k : K) (d : dict) : result V :=
  match dict_get k d with
  | Some v => Ok v
  | None => Raise KeyError
  end.

(** [d[k] = v]: a present key keeps its place, a new key goes last. *)
Fixpoint dict_set (k : K) (v : V) (d : dict) : dict :=
  match d with
  | [] => [(k, v)]
  | (k', v') :: d' =>
      if K_eq_dec k k' then (k, v) :: d' else (k', v') :: dict_set k v d'
  end.

Fixpoint dict_del (k : K) (d : dict) : dict :=
  match d with
  | [] => []
  | (k', v') :: d' =>
      if K_eq_dec k k' then dict_del k d' else (k', v') :: dict_del k d'
  end.

(** [d.pop(k)]. *)
Definition dict_pop (k : K) (d : dict) : result (V * dict) :=
  match dict_get k d with
  | Some v => Ok (v, dict_del k d)
  | None => Raise KeyError
  end.

(** [{**d1, **d2}]. *)
Definition dict_merge (d1 d2 : dict) : dict :=
  fold_left (fun d kv => dict_set (fst kv) (snd kv) d) d2 d1.

End Dict.

Arguments dict_keys {K V} d.
Arguments dict_get {K V} K_eq_dec k d.
Arguments dict_mem {K V} K_eq_dec k d.
Arguments dict_item {K V} K_eq_dec k d.
Arguments dict_set {K V} K_eq_dec k v d.
Arguments dict_del {K V} K_eq_dec k d.
Arguments dict_pop {K V} K_eq_dec k d.
Arguments dict_merge {K V} K_eq_dec d1 d2.

(** Python's stable sort, as an insertion sort for the order [leb]. *)
Fixpoint insert_sorted {A} (leb : A -> A -> bool) (a : A) (l : list A) : list A :=
  match l with
  | [] => [a]
  | b :: l' => if leb a b then a :: b :: l' else b :: insert_sorted leb a l'
  end.

Definition sort_with {A} (leb : A -> A -> bool) (l : list A) : list A :=
  fold_right (insert_sorted leb) [] l.

(** [l.sort(key=key)] / [sorted(l, key=key)] for an integer key. *)
Definition sort_by {A} (key : A -> Z) (l : list A) : list A :=
  sort_with (fun a b => key a <=? key b) l.

(** [enumerate(l, start=1)]. *)
Definition enumerate1 {A} (l : list A) : list (Z * A) :=
  combine (map Z.of_nat (seq 1 (length l))) l.

(** [max(l)] of a list of integers. *)
Definition py_max (l : list Z) : result Z :=
  match l with
  | [] => Raise ValueError
  | a :: l' => Ok (fold_left Z.max l' a)
  end.

(** [str(k)] and [int(s)] on decimal numerals. *)
Definition str (k : Z) : string := NilZero.string_of_int (Z.to_int k).

Definition int (s : string) : result Z :=
  match NilZero.int_of_string s with
  | Some d => Ok (Z.of_int d)
  | None => Raise ValueError
  end.

(** ** JSON documents

    The values [json.load] produces and [json.dump] accepts.  The text of
    the file is not modelled: a file holds the document tree that
    [json.dump] wrote and [json.load] returns it. *)

#[local] Unset Elimination Schemes.
Inductive json : Type :=
| JNull
| JBool (b : bool)
| JInt (z : Z)
| JFloat (q : Q)
| JStr (s : string)
| JList (l : list json)
| JDict (d : list (string * json)).
#[local] Set Elimination Schemes.

Definition items_leb (a b : string * json) : bool := String.leb (fst a) (fst b).

(** What [json.dump(_, sort_keys=True)] writes for a value whose
    dictionaries have string keys: every dictionary with its items in
    increasing key order. *)
Fixpoint sort_keys (j : json) : json :=
  match j with
  | JList l => JList (map sort_keys l)
  | JDict d =>
      JDict (sort_with items_leb (map (fun '(k, v) => (k, sort_keys v)) d))
  | _ => j
  end.

(** ** Regions *)

(** [class Region]: [center], [weight] and the keyword bag [data]. *)
Record Region : Type := mkRegion {
  center : Q * Q;
  weight : Z;
  data : list (string * json)
}.

Definition json_of_center (c : Q * Q) : json := JList [JFloat (fst c); JFloat (snd c)].

Definition number_of_json (j : json) : result Q :=
  match j with
  | JFloat q => Ok q
  | JInt z => Ok (inject_Z z)
  | _ => Raise Unmodelled
  end.

(** [Region.get_json]: [{"center": ..., "weight": ..., **self.data}]. *)
Definition get_json (r : Region) : list (string * json) :=
  dict_merge string_dec
    [("center"%string, json_of_center (center r)); ("weight"%string, JInt (weight r))]
    (data r).

(** [Region.__init__] called with the items of [d] as keywords, its
    parameters being [self], [center], [weight] and the keyword bag: a
    keyword named [self] collides with the first
    parameter and a missing [center] or [weight] leaves a required
    parameter without value, both a [TypeError]; every other keyword goes
    to [data].  The record types the centre as a pair of numbers and the
    weight as an integer: Python stores whatever the document holds there,
    and a document holding anything else is [Unmodelled]. *)
Definition Region_init (d : list (string * json)) : result Region :=
  if dict_mem string_dec "self"%string d then Raise TypeError
  else
    match dict_get string_dec "center"%string d,
          dict_get string_dec "weight"%string d with
    | Some (JList [jx; jy]), Some (JInt w) =>
        match number_of_json jx, number_of_json jy with
        | Ok x, Ok y =>
            Ok (mkRegion (x, y) w
                  (dict_del string_dec "weight"%string
                     (dict_del string_dec "center"%string d)))
        | Raise e, _ | _, Raise e => Raise e
        end
    | Some _, Some _ => Raise Unmodelled
    | _, _ => Raise TypeError
    end.

(** [sum(l)] of numbers. *)
Definition qsum (l : list Q) : Q := fold_left Qplus l 0%Q.

(** [get_center(points)].  Python's [sum] and [/] give binary64 floats;
    here a number is an exact rational.  On integer pixel coordinates, as
    [execute] and [recalculate_region] pass them, the sums are exact in
    Python too and only the last quotient is rounded; on the float centres
    that [combine_masks] averages every addition rounds as well, so the
    centre computed by the code agrees with this one up to rounding
    only. *)
Definition get_center (points : list (Q * Q)) : result (Q * Q) :=
  match points with
  | [] => Raise ZeroDivisionError
  | _ :: _ =>
      let n := inject_Z (Z.of_nat (length points)) in
      Ok ((qsum (map fst points) / n)%Q, (qsum (map snd points) / n)%Q)
  end.

Definition qpoint (p : point) : Q * Q := (inject_Z (fst p), inject_Z (snd p)).

(** [chunker(seq, size)]: the slices [seq[pos:pos + size]] for
    [pos in range(0, len(seq), size)]; [range] raises [ValueError] when the
    step is zero. *)
Fixpoint chunks {A} (fuel : nat) (size : nat) (seq : list A) : list (list A) :=
  match fuel with
  | O => []
  | S fuel' =>
      match seq with
      | [] => []
      | _ :: _ => firstn size seq :: chunks fuel' size (skipn size seq)
      end
  end.

Definition chunker {A} (seq : list A) (size : Z) : result (list (list A)) :=
  if size =? 0 then Raise ValueError
  else if size <? 0 then Ok []
  else Ok (chunks (length seq) (Z.to_nat size) seq).

(** ** The map directory *)

(** Names of the files of the [masks] directory, without the [.png]
    suffix: [Num k] is [f"{k}.png"] and [Old k] is [f"{k}_old.png"]. *)
Inductive stem : Type :=
| Num (k : Z)
| Old (k : Z).

Definition stem_eq_dec (a b : stem) : {a = b} + {a <> b}.
Proof. decide equality; apply Z.eq_dec. Defined.

(** [int(mask.stem)]. *)
Definition int_stem (s : stem) : result Z :=
  match s with
  | Num k => Ok k
  | Old _ => Raise ValueError
  end.

Definition directory : Type := dict stem image.

(** [src.rename(dst)] (POSIX: an existing [dst] is replaced). *)
Definition dir_rename (src dst : stem) (d : directory) : result directory :=
  match dict_get stem_eq_dec src d with
  | None => Raise FileNotFoundError
  | Some im => Ok (dict_set stem_eq_dec dst im (dict_del stem_eq_dec src d))
  end.

(** [class ConquestMap]: the attributes of the object and the files under
    [self.path] that the engine reads and writes ([blank.png], the [masks]
    directory when it exists, [data.json]).  The label overlays written by
    [create_number_mask] are not part of the state. *)
Record ConquestMap : Type := mkMap {
  name : option string;
  custom : option bool;
  region_max : option Z;
  regions : dict Z Region;
  blank_png : option image;
  masks_dir : option directory;
  data_json : option json
}.

(** Assignments to the attributes and files of the map. *)
Definition with_regions (rs : dict Z Region) (cm : ConquestMap) : ConquestMap :=
  mkMap (name cm) (custom cm) (region_max cm) rs
        (blank_png cm) (masks_dir cm) (data_json cm).

Definition with_region_max (m : option Z) (cm : ConquestMap) : ConquestMap :=
  mkMap (name cm) (custom cm) m (regions cm)
        (blank_png cm) (masks_dir cm) (data_json cm).

Definition with_masks_dir (d : directory) (cm : ConquestMap) : ConquestMap :=
  mkMap (name cm) (custom cm) (region_max cm) (regions cm)
        (blank_png cm) (Some d) (data_json cm).

Definition with_data_json (j : json) (cm : ConquestMap) : ConquestMap :=
  mkMap (name cm) (custom cm) (region_max cm) (regions cm)
        (blank_png cm) (masks_dir cm) (Some j).

Definition set_regions (rs : dict Z Region) : M ConquestMap unit :=
  fun cm => (Ok tt, with_regions rs cm).

Definition set_region_max (m : option Z) : M ConquestMap unit :=
  fun cm => (Ok tt, with_region_max m cm).

Definition set_masks_dir (d : directory) : M ConquestMap unit :=
  fun cm => (Ok tt, with_masks_dir d cm).

Definition set_data_json (j : json) : M ConquestMap unit :=
  fun cm => (Ok tt, with_data_json j cm).

(** The content of the [masks] directory; a missing directory raises. *)
Definition listdir : M ConquestMap directory :=
  fun cm =>
    match masks_dir cm with
    | Some d => (Ok d, cm)
    | None => (Raise FileNotFoundError, cm)
    end.

(** [Image.open(self.masks_path() / f"{k}.png").convert(MASK_MODE)].  Mask
    files are written in mode "1", for which the conversion is the
    identity. *)
Definition open_mask (k : Z) : M ConquestMap image :=
  (d <- listdir ;;
   match dict_get stem_eq_dec (Num k) d with
   | Some im => ret im
   | None => raise FileNotFoundError
   end)%monad.

(** [mask.save(self.masks_path() / f"{k}.png", "PNG")]. *)
Definition save_mask (k : Z) (im : image) : M ConquestMap unit :=
  (d <- listdir ;; set_masks_dir (dict_set stem_eq_dec (Num k) im d))%monad.

Definition rename_mask (src dst : stem) : M ConquestMap unit :=
  (d <- listdir ;; d' <- lift (dir_rename src dst d) ;; set_masks_dir d')%monad.

Definition unlink_mask (s : stem) : M ConquestMap unit :=
  (d <- listdir ;;
   match dict_get stem_eq_dec s d with
   | Some _ => set_masks_dir (dict_del stem_eq_dec s d)
   | None => raise FileNotFoundError
   end)%monad.

(** ** [Regioner] *)

(** [self.wall_color] and [self.region_color] (colours of mode "L"); the
    file [filepath / filename] is the map's [blank.png]. *)
Record Regioner : Type := mkRegioner {
  wall_color : Z;
  region_color : option Z
}.

(** [Regioner(filename="blank.png", filepath=self.path)]: the wall colour
    is black and no region colour is configured. *)
Definition default_regioner : Regioner := mkRegioner 0 None.

(** Local variables of [Regioner.execute] and the [masks] directory. *)
Record scan : Type := mkScan {
  base_img : image;
  already_processed : pset;
  mask_count : Z;
  scan_regions : dict Z Region;
  scan_masks : directory
}.

(** The seed test of [execute]. *)
Definition is_seed (rg : Regioner) (p : Z) : bool :=
  match region_color rg with
  | None => negb (p =? wall_color rg)
  | Some c => p =? c
  end.

(** [mask.putpixel((x2, y2), 0)] for every filled coordinate. *)
Definition draw_mask (filled : pset) (mask : image) : result image :=
  fold_left
    (fun r p => match r with Ok m => putpixel m p 0 | Raise e => Raise e end)
    filled (Ok mask).

(** Body of the innermost loop of [execute], at the pixel [(x1, y1)]. *)
Definition scan_pixel (rg : Regioner) (y1 x1 : Z) : M scan unit :=
  (st <- get ;;
   if pset_mem (x1, y1) (already_processed st) then ret tt
   else
     p <- lift (getpixel (base_img st) (x1, y1)) ;;
     if is_seed rg p then
       let '(im, filled) :=
         floodfill (base_img st) (x1, y1) (wall_color rg) (Some (wall_color rg)) 0 in
       put (mkScan im (already_processed st) (mask_count st)
                   (scan_regions st) (scan_masks st)) ;;
       match filled with
       | [] => ret tt
       | _ :: _ =>
           mask <- lift (draw_mask filled
                           (Image_new (width im, height im) 255)) ;;
           let n := mask_count st + 1 in
           c <- lift (get_center (map qpoint filled)) ;;
           put (mkScan im
                       (pset_update (already_processed st) filled)
                       n
                       (dict_set Z.eq_dec n
                          (mkRegion c (Z.of_nat (length filled)) [])
                          (scan_regions st))
                       (dict_set stem_eq_dec (Num n) mask (scan_masks st)))
       end
     else ret tt)%monad.

(** The nested chunked loops of [execute]. *)
Definition scan_row (rg : Regioner) (w : Z) (y1 : Z) : M scan unit :=
  (x_chunks <- lift (chunker (range w) (w / 10)) ;;
   for_each x_chunks (fun x_chunk => for_each x_chunk (scan_pixel rg y1)))%monad.

Definition scan_image (rg : Regioner) (w h : Z) : M scan unit :=
  (y_chunks <- lift (chunker (range h) (h / 10)) ;;
   for_each y_chunks (fun y_chunk => for_each y_chunk (scan_row rg w)))%monad.

(** The module-level [create_number_mask(regions, filepath, filename)]:
    [False] when the base image is missing, else the three label overlays
    are drawn (outside the modelled state) and the result is [True]. *)
Definition create_number_mask : M ConquestMap bool :=
  fun cm =>
    match blank_png cm with
    | Some _ => (Ok true, cm)
    | None => (Ok false, cm)
    end.

(** [Regioner.execute]: [None] is the [False] returned when the base image
    does not exist. *)
Definition execute (rg : Regioner) : M ConquestMap (option (dict Z Region)) :=
  fun cm =>
    match blank_png cm with
    | None => (Ok None, cm)
    | Some base =>
        let d := match masks_dir cm with Some d => d | None => [] end in
        let '(r, st) :=
          scan_image rg (width base) (height base) (mkScan base [] 0 [] d) in
        let cm' := with_masks_dir (scan_masks st) cm in
        match r with
        | Raise e => (Raise e, cm')
        | Ok _ => (_ <- create_number_mask ;; ret (Some (scan_regions st)))%monad cm'
        end
    end.

(** ** Persistence: [save_data] and [load_data] *)

Definition json_of_option {A} (f : A -> json) (o : option A) : json :=
  match o with
  | Some a => f a
  | None => JNull
  end.

(** The ["regions"] entry of [to_save] has integer keys: [json.dump] sorts
    its items by the integer key and then writes each key as [str(key)]. *)
Definition regions_document (rs : dict Z Region) : json :=
  JDict (map (fun '(k, r) => (str k, sort_keys (JDict (get_json r))))
             (sort_by fst rs)).

(** The document written by
    [json.dump(to_save, dp, sort_keys=True, indent=4)]. *)
Definition document (cm : ConquestMap) : json :=
  JDict [("custom"%string, json_of_option JBool (custom cm));
         ("name"%string, json_of_option JStr (name cm));
         ("region_max"%string, json_of_option JInt (region_max cm));
         ("regions"%string, regions_document (regions cm))].

Definition save_data : M ConquestMap unit :=
  (cm <- get ;; set_data_json (document cm))%monad.

(** [data.get(key)] for the three scalar attributes.  The state types
    [name] as a string, [custom] as a boolean and [region_max] as an
    integer (or [None]); Python assigns whatever the document holds, and a
    document holding a value of another type there is [Unmodelled]. *)
Definition get_str (k : string) (d : list (string * json)) : result (option string) :=
  match dict_get string_dec k d with
  | None | Some JNull => Ok None
  | Some (JStr s) => Ok (Some s)
  | Some _ => Raise Unmodelled
  end.

Definition get_bool (k : string) (d : list (string * json)) : result (option bool) :=
  match dict_get string_dec k d with
  | None | Some JNull => Ok None
  | Some (JBool b) => Ok (Some b)
  | Some _ => Raise Unmodelled
  end.

Definition get_int (k : string) (d : list (string * json)) : result (option Z) :=
  match dict_get string_dec k d with
  | None | Some JNull => Ok None
  | Some (JInt z) => Ok (Some z)
  | Some _ => Raise Unmodelled
  end.

(** The comprehension of [load_data]: each key is read with [int], then
    its value is passed as keywords to [Region] ([TypeError] when the
    value is not a mapping); a repeated integer key keeps the last
    value. *)
Fixpoint load_regions (items : list (string * json)) (acc : dict Z Region)
  : result (dict Z Region) :=
  match items with
  | [] => Ok acc
  | (key, JDict d) :: items' =>
      match int key, Region_init d with
      | Ok k, Ok r => load_regions items' (dict_set Z.eq_dec k r acc)
      | Raise e, _ | _, Raise e => Raise e
      end
  | (key, _) :: _ =>
      match int key with
      | Ok _ => Raise TypeError
      | Raise e => Raise e
      end
  end.

(** [ConquestMap.load_data].  The attributes are assigned one by one, so a
    failure while building the regions leaves the three scalars loaded.
    A document that is not an object, or whose ["regions"] entry is not
    one, has no [get] or [items] (an [AttributeError] in Python, which
    [exn] does not list): it is [Unmodelled]. *)
Definition load_data : M ConquestMap unit :=
  fun cm =>
    match data_json cm with
    | None => (Raise FileNotFoundError, cm)
    | Some (JDict d) =>
        match get_str "name" d, get_bool "custom" d, get_int "region_max" d with
        | Ok n, Ok c, Ok m =>
            let cm1 := mkMap n c m (regions cm)
                             (blank_png cm) (masks_dir cm) (data_json cm) in
            match dict_get string_dec "regions"%string d with
            | None => set_regions [] cm1
            | Some (JDict items) =>
                match load_regions items [] with
                | Ok rs => set_regions rs cm1
                | Raise e => (Raise e, cm1)
                end
            | Some _ => (Raise Unmodelled, cm1)
            end
        | _, _, _ => (Raise Unmodelled, cm)
        end
    | Some _ => (Raise Unmodelled, cm)
    end.

(** ** [ConquestMap._img_combine_masks] *)

(** [ImageChops.logical_and] on mode "1" images: a pixel of the result is
    set ([255]) when it is non-zero in both arguments and clear ([0])
    otherwise; the result has the size common to both. *)
Definition logical_and (a b : image) : image :=
  mkImage (Z.min (width a) (width b)) (Z.min (height a) (height b))
          (fun c => if (pix a c =? 0) || (pix b c =? 0) then 0 else 255).

(** Local variables of the loop: [lowest_num], [eliminated_masks], [mask]. *)
Definition combine_state : Type := (option Z * list Z * image)%type.

Definition combine_step (st : combine_state) (mask_num : Z)
  : M ConquestMap combine_state :=
  let '(lowest_num, eliminated_masks, mask) := st in
  let '(lowest_num, eliminated_masks) :=
    match lowest_num with
    | None => (mask_num, eliminated_masks)
    | Some l =>
        if mask_num <? l then (mask_num, eliminated_masks ++ [l])
        else (l, eliminated_masks ++ [mask_num])
    end in
  (mask2 <- open_mask mask_num ;;
   ret (Some lowest_num, eliminated_masks, logical_and mask mask2))%monad.

(** [None] stands for the result [(False, None, None)]. *)
Definition _img_combine_masks (mask_list : list Z)
  : M ConquestMap (option (Z * list Z * image)) :=
  (if (length mask_list <? 2)%nat then ret None
   else
     cm <- get ;;
     match blank_png cm, masks_dir cm with
     | Some base_img, Some _ =>
         '(lowest_num, eliminated_masks, mask) <-
           for_fold mask_list combine_step
             (None, [], Image_new (width base_img, height base_img) 1) ;;
         match lowest_num with
         | Some l => ret (Some (l, eliminated_masks, mask))
         | None => ret None
         end
     | _, _ => ret None
     end)%monad.

(** ** [MapMaker] *)

Definition is_KeyError (e : exn) : bool :=
  match e with
  | KeyError => true
  | _ => false
  end.

(** [self.region_max in keys]. *)
Definition region_max_in (keys : list Z) (cm : ConquestMap) : bool :=
  match region_max cm with
  | Some m => existsb (Z.eqb m) keys
  | None => false
  end.

(** [if self.region_max in keys: self.region_max = max(self.regions.keys())]. *)
Definition refresh_region_max (keys : list Z) : M ConquestMap unit :=
  (cm <- get ;;
   if region_max_in keys cm then
     m <- lift (py_max (dict_keys (regions cm))) ;;
     set_region_max (Some m)
   else ret tt)%monad.

(** [self.regions.pop(key)]. *)
Definition pop_region (key : Z) : M ConquestMap unit :=
  (cm <- get ;;
   '(_, rs) <- lift (dict_pop Z.eq_dec key (regions cm)) ;;
   set_regions rs)%monad.

(** [MapMaker.generate_masks]; [None] is the [False] of [execute]. *)
Definition generate_masks : M ConquestMap (option (dict Z Region)) :=
  (rs <- execute default_regioner ;;
   match rs with
   | None | Some [] => ret rs
   | Some ((_ :: _) as regions) =>
       set_regions regions ;;
       set_region_max (Some (Z.of_nat (length regions) + 1)) ;;
       save_data ;;
       ret rs
   end)%monad.

(** [[f(a) for a in l]] where [f] may raise. *)
Fixpoint map_result {A B} (f : A -> result B) (l : list A) : result (list B) :=
  match l with
  | [] => Ok []
  | a :: l' =>
      match f a with
      | Raise e => Raise e
      | Ok b =>
          match map_result f l' with
          | Raise e => Raise e
          | Ok bs => Ok (b :: bs)
          end
      end
  end.

Definition zsum (l : list Z) : Z := fold_left Z.add l 0.

(** The list [weighted_points] of [combine_masks]. *)
Definition weighted_points (elim_regions : list Region) (lowest_region : Region)
  : list (Q * Q) :=
  flat_map (fun r => repeat (center r) (Z.to_nat (weight r))) elim_regions
  ++ repeat (center lowest_region) (Z.to_nat (weight lowest_region)).

(** The [try] block of [combine_masks]: the regions of the eliminated keys
    and of the lowest key, or [None] when a key is missing. *)
Definition lookup_merged (lowest : Z) (eliminated : list Z)
  : M ConquestMap (option (list Region * Region)) :=
  try_except
    (cm <- get ;;
     elim_regions <-
       lift (map_result (fun n => dict_item Z.eq_dec n (regions cm)) eliminated) ;;
     lowest_region <- lift (dict_item Z.eq_dec lowest (regions cm)) ;;
     ret (Some (elim_regions, lowest_region)))%monad
    is_KeyError (ret None).

(** The rest of [combine_masks], from [mask.save] on. *)
Definition merge_into (lowest : Z) (eliminated : list Z) (mask : image)
           (elim_regions : list Region) (lowest_region : Region)
  : M ConquestMap (option Z) :=
  (save_mask lowest mask ;;
   c <- lift (get_center (weighted_points elim_regions lowest_region)) ;;
   cm <- get ;;
   set_regions
     (dict_set Z.eq_dec lowest
        (mkRegion c
           (weight lowest_region + zsum (map weight elim_regions))
           (data lowest_region))
        (regions cm)) ;;
   for_each eliminated pop_region ;;
   refresh_region_max eliminated ;;
   _ <- create_number_mask ;;
   save_data ;;
   ret (Some lowest))%monad.

(** [MapMaker.combine_masks]; [None] is a falsy result ([False]), [Some k]
    the integer [k]. *)
Definition combine_masks (mask_list : list Z) : M ConquestMap (option Z) :=
  (r <- _img_combine_masks mask_list ;;
   match r with
   | None => ret None
   | Some (lowest, eliminated, mask) =>
       if lowest =? 0 then ret (Some lowest)
       else
         looked <- lookup_merged lowest eliminated ;;
         match looked with
         | None => ret None
         | Some (elim_regions, lowest_region) =>
             merge_into lowest eliminated mask elim_regions lowest_region
         end
   end)%monad.

(** [MapMaker.delete_masks]; [None] is [False]. *)
Definition delete_masks (mask_list : list Z) : M ConquestMap (option (list Z)) :=
  (popped <- try_except (for_each mask_list pop_region ;; ret true)
                        is_KeyError (ret false) ;;
   if popped : bool then
     refresh_region_max mask_list ;;
     _ <- create_number_mask ;;
     save_data ;;
     ret (Some mask_list)
   else ret None)%monad.

(** [MapMaker.get_points_from_mask]: the coordinates where the mask is [0],
    in the row-major order of [numpy.where]. *)
Definition mask_points (mask : image) : pset :=
  filter (fun c => pix mask c =? 0) (coords mask).

Definition get_points_from_mask (region : Z) : M ConquestMap pset :=
  (mask <- open_mask region ;; ret (mask_points mask))%monad.

(** One step of [recalculate_region] for the region [num]. *)
Definition recalculate_one (num : Z) : M ConquestMap unit :=
  (cm <- get ;;
   r <- lift (dict_item Z.eq_dec num (regions cm)) ;;
   points <- get_points_from_mask num ;;
   c <- lift (get_center (map qpoint points)) ;;
   set_regions (dict_set Z.eq_dec num
                  (mkRegion c (Z.of_nat (length points)) (data r))
                  (regions cm)))%monad.

(** [MapMaker.recalculate_region]. *)
Definition recalculate_region (regions_arg : option (list Z)) : M ConquestMap unit :=
  (cm <- get ;;
   for_each (match regions_arg with
             | None => dict_keys (regions cm)
             | Some l => l
             end) recalculate_one ;;
   save_data)%monad.

(** First loop of [sort_regions]: the pair (topmost point, key) of a
    region, appended to the local list [regions]. *)
Definition sort_entry (acc : list (point * Z)) (num : Z)
  : M ConquestMap (list (point * Z)) :=
  (points <- get_points_from_mask num ;;
   match sort_by snd points with
   | [] => raise IndexError
   | p0 :: _ => ret (acc ++ [(p0, num)])
   end)%monad.

(** Third loop of [sort_regions]. *)
Definition sort_rename (new_regions : dict Z Region) (entry : Z * Z)
  : M ConquestMap (dict Z Region) :=
  let '(new_num, old_num) := entry in
  (rename_mask (Old old_num) (Num new_num) ;;
   cm <- get ;;
   r <- lift (dict_item Z.eq_dec old_num (regions cm)) ;;
   ret (dict_set Z.eq_dec new_num r new_regions))%monad.

(** [MapMaker.sort_regions]. *)
Definition sort_regions (fast_sort : bool) : M ConquestMap unit :=
  (cm <- get ;;
   let keys := dict_keys (regions cm) in
   order <-
     (if fast_sort then
        l <- for_fold keys sort_entry [] ;;
        ret (sort_by (fun x : point * Z => snd (fst x)) l)
      else raise NotImplementedError) ;;
   for_each keys (fun num => rename_mask (Num num) (Old num)) ;;
   new_regions <- for_fold (enumerate1 (map snd order)) sort_rename [] ;;
   set_regions new_regions ;;
   save_data)%monad.

(** Step 1 of [prune_masks], for one entry of the directory. *)
Definition prune_file (pruned : list stem) (mask : stem)
  : M ConquestMap (list stem) :=
  (k <- lift (int_stem mask) ;;
   cm <- get ;;
   if dict_mem Z.eq_dec k (regions cm) then ret pruned
   else unlink_mask mask ;; ret (pruned ++ [mask]))%monad.

(** Step 2 of [prune_masks], for one item of the registry. *)
Definition prune_rename (new_regions : dict Z Region) (entry : Z * (Z * Region))
  : M ConquestMap (dict Z Region) :=
  let '(newnum, (num, r)) := entry in
  let new_regions := dict_set Z.eq_dec newnum r new_regions in
  (if newnum =? num then ret new_regions
   else rename_mask (Num num) (Num newnum) ;; ret new_regions)%monad.

(** [MapMaker.prune_masks]. *)
Definition prune_masks : M ConquestMap (list stem) :=
  (d <- listdir ;;
   pruned <- for_fold (dict_keys d) prune_file [] ;;
   cm <- get ;;
   new_regions <- for_fold (enumerate1 (regions cm)) prune_rename [] ;;
   set_regions new_regions ;;
   m <- lift (py_max (dict_keys new_regions)) ;;
   set_region_max (Some m) ;;
   save_data ;;
   ret pruned)%monad.

(** ** Samples: [composite_regions], [sample_region], [get_sample] *)

(** The sampling code only reads the map.  Besides the exceptions of
    [exn] it can raise the [AttributeError] of an attribute access on
    [None]. *)
Inductive sample_exn : Type :=
| Raised (e : exn)
| AttributeError.

Inductive outcome (A : Type) : Type :=
| Done (a : A)
| Fail (e : sample_exn).
Arguments Done {A} a.
Arguments Fail {A} e.

(** [Image.open(self.blank_path())]. *)
Definition open_blank (cm : ConquestMap) : outcome image :=
  match blank_png cm with
  | Some im => Done im
  | None => Fail (Raised FileNotFoundError)
  end.

(** [Image.open(masks_path / f"{region}.png").convert(MASK_MODE)]. *)
Definition open_region_mask (cm : ConquestMap) (region : Z) : outcome image :=
  match masks_dir cm with
  | Some d =>
      match dict_get stem_eq_dec (Num region) d with
      | Some m => Done m
      | None => Fail (Raised FileNotFoundError)
      end
  | None => Fail (Raised FileNotFoundError)
  end.

(** [Image.composite(image1, image2, mask)], called with an [image2] of
    the size of [image1] and a mask of mode "1": a copy of [image2] with
    the pixels of [image1] pasted where the mask is set.  The paste raises
    [ValueError] ("images do not match") when the mask has another size.
    A pixel of an "RGB" image is read as one colour value. *)
Definition Image_composite (image1 image2 mask : image) : outcome image :=
  if (width mask =? width image1) && (height mask =? height image1)
  then Done (mkImage (width image2) (height image2)
                     (fun q => if pix mask q =? 0 then pix image2 q else pix image1 q))
  else Fail (Raised ValueError).

(** The loop of [composite_regions]; [combined_mask] starts as [None]. *)
Fixpoint combine_region_masks (cm : ConquestMap) (regions : list Z)
         (combined_mask : option image) : outcome (option image) :=
  match regions with
  | [] => Done combined_mask
  | region :: regions' =>
      match open_region_mask cm region with
      | Fail e => Fail e
      | Done mask =>
          combine_region_masks cm regions'
            (Some match combined_mask with
                  | None => mask
                  | Some c => logical_and c mask
                  end)
      end
  end.

(** [composite_regions(im, regions, color, masks_path)]; [im] is [None]
    when the caller passes on the [None] of an earlier call, and
    [im.size] then raises. *)
Definition composite_regions (cm : ConquestMap) (im : option image)
           (regions : list Z) (color : Z) : outcome (option image) :=
  match im with
  | None => Fail AttributeError
  | Some im =>
      let im2 := Image_new (width im, height im) color in
      match combine_region_masks cm regions None with
      | Fail e => Fail e
      | Done None => Done None
      | Done (Some combined_mask) =>
          match Image_composite im im2 combined_mask with
          | Fail e => Fail e
          | Done out => Done (Some out)
          end
      end
  end.

(** An entry of the list returned by [get_sample]: the path of
    [blank.png], or an image saved to a buffer. *)
Inductive sample_file : Type :=
| Blank_path
| Buffer (im : image).

Section Samples.

(** [ImageColor.getrgb] of "red", "green", "blue" and "yellow", as pixel
    values. *)
Variables red green blue yellow : Z.

(** [self.get_numbered(current_map)]: the overlay of the labels, which is
    outside the model. *)
Variable get_numbered : ConquestMap -> image -> outcome image.

(** [ConquestMap.sample_region]. *)
Definition sample_region (cm : ConquestMap) (region : Z) (include_numbered : bool)
  : outcome (list image) :=
  if negb (dict_mem Z.eq_dec region (regions cm)) then Done []
  else
    match open_blank cm with
    | Fail e => Fail e
    | Done current_map =>
        match composite_regions cm (Some current_map) [region] red with
        | Fail e => Fail e
        | Done None => Fail AttributeError
        | Done (Some current_map) =>
            if include_numbered then
              match get_numbered cm current_map with
              | Fail e => Fail e
              | Done numbered_img => Done [current_map; numbered_img]
              end
            else Done [current_map]
        end
    end.

(** [l[a:b]] for [a <= b]. *)
Definition slice {A} (a b : nat) (l : list A) : list A := firstn (b - a) (skipn a l).

(** The four calls of [get_sample] that paint a quarter of the regions
    each; every call receives what the call before it returned. *)
Definition paint_quarters (cm : ConquestMap) (current_map : image) (regions : list Z)
  : outcome (option image) :=
  let fourth := (length regions / 4)%nat in
  match composite_regions cm (Some current_map) (firstn fourth regions) red with
  | Fail e => Fail e
  | Done current_map =>
      match composite_regions cm current_map
              (slice fourth (fourth * 2) regions) green with
      | Fail e => Fail e
      | Done current_map =>
          match composite_regions cm current_map
                  (slice (fourth * 2) (fourth * 3) regions) blue with
          | Fail e => Fail e
          | Done current_map =>
              composite_regions cm current_map (skipn (fourth * 3) regions) yellow
          end
      end
  end.

(** [ConquestMap.get_sample(region)].  [shuffled] is the list of the keys
    as [random.shuffle] left it.  [get_numbered] starts with
    [current_map.convert], which raises on [None]. *)
Definition get_sample (shuffled : list Z) (cm : ConquestMap) (region : option Z)
  : outcome (list sample_file) :=
  match masks_dir cm with
  | None => Done [Blank_path]
  | Some _ =>
      match open_blank cm with
      | Fail e => Fail e
      | Done current_map =>
          match
            match region with
            | Some r =>
                if dict_mem Z.eq_dec r (regions cm)
                then composite_regions cm (Some current_map) [r] red
                else Done (Some current_map)
            | None => paint_quarters cm current_map shuffled
            end
          with
          | Fail e => Fail e
          | Done None => Fail AttributeError
          | Done (Some current_map) =>
              match get_numbered cm current_map with
              | Fail e => Fail e
              | Done numbered_img =>
                  Done [Blank_path; Buffer current_map; Buffer numbered_img]
              end
          end
      end
  end.

End Samples.

(** * Properties *)

(** ** Pixel access *)

Lemma in_range (n x : Z) : In x (range n) <-> 0 <= x < n.
Proof.
  unfold range. rewrite in_map_iff. split.
  - intros (k & <- & Hk). apply in_seq in Hk. lia.
  - intros H. exists (Z.to_nat x). split; [lia|]. apply in_seq. lia.
Qed.

Lemma in_coords (im : image) (c : point) :
  In c (coords im) <-> in_image im c = true.
Proof.
  unfold coords, in_image. rewrite in_flat_map. destruct c as [x y]. simpl. split.
  - intros (y' & Hy & Hx). apply in_map_iff in Hx as (x' & [= <- <-] & Hx).
    apply in_range in Hy, Hx.
    repeat (apply andb_true_intro; split); lia.
  - intros H. repeat (apply andb_prop in H as [H ?]).
    exists y. split; [apply in_range; lia|].
    apply in_map_iff. exists x. split; [reflexivity|apply in_range; lia].
Qed.

Lemma locate_in_image (im : image) (xy c : point) :
  locate im xy = Ok c -> in_image im c = true.
Proof.
  unfold locate. intros H.
  match type of H with (if ?b then _ else _) = _ => destruct b eqn:E end;
    [injection H as <-; exact E | discriminate].
Qed.

(** A coordinate without a negative component is located at itself. *)
Lemma locate_nonneg (im : image) (xy c : point) :
  0 <= fst xy -> 0 <= snd xy -> locate im xy = Ok c -> c = xy.
Proof.
  unfold locate. destruct xy as [x y]. simpl. intros Hx Hy.
  destruct (x <? 0) eqn:Ex; [lia|]. destruct (y <? 0) eqn:Ey; [lia|].
  destruct (in_image im (x, y)); [intros [= <-]; reflexivity | discriminate].
Qed.

Lemma locate_inside (im : image) (xy : point) :
  in_image im xy = true -> locate im xy = Ok xy.
Proof.
  unfold locate. destruct xy as [x y]. intros H. pose proof H as H'.
  unfold in_image in H'. simpl in *.
  repeat (apply andb_prop in H' as [H' ?]).
  destruct (x <? 0) eqn:Ex; [lia|]. destruct (y <? 0) eqn:Ey; [lia|].
  now rewrite H.
Qed.

Lemma pix_store (im : image) (c q : point) (v : Z) :
  pix (store im c v) q = if point_eq_dec q c then v else pix im q.
Proof. reflexivity. Qed.

Lemma coords_store (im : image) (c : point) (v : Z) :
  coords (store im c v) = coords im.
Proof. reflexivity. Qed.

(** ** Termination of [floodfill] *)

Lemma filter_mono_le {A} (f g : A -> bool) (l : list A) :
  (forall x, In x l -> g x = true -> f x = true) ->
  (length (filter g l) <= length (filter f l))%nat.
Proof.
  induction l as [|a l IH]; simpl; intros H; [lia|].
  assert (IH' := IH (fun x Hx => H x (or_intror Hx))).
  destruct (g a) eqn:Eg.
  - rewrite (H a (or_introl eq_refl) Eg). simpl. lia.
  - destruct (f a); simpl; lia.
Qed.

Lemma filter_mono_lt {A} (f g : A -> bool) (l : list A) (c : A) :
  (forall x, In x l -> g x = true -> f x = true) ->
  In c l -> f c = true -> g c = false ->
  (length (filter g l) < length (filter f l))%nat.
Proof.
  induction l as [|a l IH]; simpl; intros H Hin Hf Hg; [contradiction|].
  assert (Hle := filter_mono_le f g l (fun x Hx => H x (or_intror Hx))).
  destruct Hin as [->|Hin].
  - rewrite Hf, Hg. simpl. lia.
  - assert (IH' := IH (fun x Hx => H x (or_intror Hx)) Hin Hf Hg).
    destruct (g a) eqn:Eg.
    + rewrite (H a (or_introl eq_refl) Eg). simpl. lia.
    + destruct (f a); simpl; lia.
Qed.

Section FloodfillFacts.

Variable value : Z.
Variable border : option Z.
Variable thresh : Z.
Variable background : Z.

Local Abbreviation fill_test' := (fill_test value border thresh background).
Local Abbreviation visit' := (visit value border thresh background).
Local Abbreviation visit_around' := (visit_around value border thresh background).
Local Abbreviation sweep' := (sweep value border thresh background).
Local Abbreviation floodfill_loop' := (floodfill_loop value border thresh background).

(** A pixel holding the fill value is never filled again; [floodfill]
    establishes this before it enters the loop. *)
Hypothesis value_not_filled : fill_test' value = false.

(** Number of pixels of the grid that the fill test accepts. *)
Definition fillable (im : image) : nat :=
  length (filter (fun c => fill_test' (pix im c)) (coords im)).

Lemma fillable_store (im : image) (c : point) :
  in_image im c = true -> fill_test' (pix im c) = true ->
  (fillable (store im c value) < fillable im)%nat.
Proof.
  intros Hc Hf. unfold fillable. rewrite coords_store.
  apply filter_mono_lt with (c := c).
  - intros x _. rewrite pix_store. destruct (point_eq_dec x c); [|trivial].
    rewrite value_not_filled. discriminate.
  - now apply in_coords.
  - exact Hf.
  - rewrite pix_store. destruct (point_eq_dec c c); [exact value_not_filled|congruence].
Qed.

(** What a pass maintains, relative to the grid [im0] it started from. *)
Definition shrinks (im0 : image) (st : sweep_state) : Prop :=
  let '(im, _, new_edge) := st in
  (fillable im <= fillable im0)%nat /\
  (new_edge <> [] -> (fillable im < fillable im0)%nat).

Lemma visit_shrinks (im0 : image) (st : sweep_state) (q : point) :
  shrinks im0 st -> shrinks im0 (visit' st q).
Proof.
  destruct st as [[im fe] ne]. unfold visit'. intros [Hle Hlt].
  destruct (pset_mem q fe || (fst q <? 0) || (snd q <? 0)); [now split|].
  destruct (locate im q) as [c|] eqn:Hloc; [|now split].
  destruct (fill_test' (pix im c)) eqn:Hf; [|now split].
  assert (H := fillable_store im c (locate_in_image _ _ _ Hloc) Hf).
  split; [lia | intros _; lia].
Qed.

Lemma fold_visit_shrinks (im0 : image) (l : list point) (st : sweep_state) :
  shrinks im0 st -> shrinks im0 (fold_left visit' l st).
Proof.
  revert st. induction l as [|q l IH]; simpl; intros st H; [exact H|].
  apply IH, visit_shrinks, H.
Qed.

Lemma sweep_shrinks (im : image) (edge full_edge : pset) :
  shrinks im (sweep' im edge full_edge).
Proof.
  unfold sweep'.
  assert (H0 : shrinks im (im, full_edge, [])) by (split; [lia|congruence]).
  revert H0. generalize (im, full_edge, @nil point) as st.
  induction edge as [|p edge IH]; simpl; intros st H; [exact H|].
  apply IH. unfold visit_around'. now apply fold_visit_shrinks.
Qed.

(** The loop returns as soon as its fuel exceeds the number of fillable
    pixels. *)
Lemma floodfill_loop_fuel (fuel : nat) :
  forall (im : image) (edge full_edge filled : pset),
    (fillable im < fuel)%nat ->
    exists r, floodfill_loop' fuel im edge full_edge filled = Some r.
Proof.
  induction fuel as [|fuel IH]; intros im edge fe filled Hlt; [lia|].
  destruct edge as [|p edge]; [simpl; eauto|].
  assert (Hs := sweep_shrinks im (p :: edge) fe).
  cbn [floodfill_loop].
  destruct (sweep' im (p :: edge) fe) as [[im' fe'] ne].
  destruct Hs as [Hle Hdec].
  destruct ne as [|q ne].
  - destruct fuel; simpl; eauto.
  - apply IH. assert (q :: ne <> []) by discriminate. specialize (Hdec H). lia.
Qed.

(** *** What the loop writes *)

(** [im] differs from [im0] only at pixels that now hold the fill value. *)
Definition grows (im0 im : image) : Prop :=
  width im = width im0 /\ height im = height im0 /\
  forall q, pix im q = pix im0 q \/ pix im q = value.

(** [q] is a pixel of the grid that did not hold the fill value in [im0]
    and holds it in [im]. *)
Definition claimed (im0 im : image) (q : point) : Prop :=
  in_image im0 q = true /\ pix im0 q <> value /\ pix im q = value.

Definition sweep_inv (im0 : image) (X : pset) (st : sweep_state) : Prop :=
  let '(im, _, new_edge) := st in
  grows im0 im /\ forall q, In q X \/ In q new_edge -> claimed im0 im q.

Lemma in_image_size (im im' : image) (q : point) :
  width im' = width im -> height im' = height im ->
  in_image im' q = in_image im q.
Proof. unfold in_image. now intros -> ->. Qed.

Lemma visit_inv (im0 : image) (X : pset) (st : sweep_state) (q : point) :
  sweep_inv im0 X st -> sweep_inv im0 X (visit' st q).
Proof.
  destruct st as [[im fe] ne]. unfold visit. intros [Hg Hc].
  destruct (pset_mem q fe || (fst q <? 0) || (snd q <? 0)) eqn:Eskip; [now split|].
  apply orb_false_elim in Eskip as [Eskip Ey].
  apply orb_false_elim in Eskip as [_ Ex].
  destruct (locate im q) as [c|] eqn:Hloc; [|now split].
  assert (c = q) by (apply (locate_nonneg im q c); [lia|lia|exact Hloc]). subst c.
  destruct (fill_test' (pix im q)) eqn:Hf; [|now split].
  destruct Hg as (Hw & Hh & Hp).
  assert (Hne : pix im q <> value) by (intros E; rewrite E in Hf; congruence).
  split.
  - split; [exact Hw|]. split; [exact Hh|]. intros x. rewrite pix_store.
    destruct (point_eq_dec x q); [now right|apply Hp].
  - intros x Hx. unfold claimed. rewrite pix_store.
    destruct (point_eq_dec x q) as [->|Hxq].
    + split; [|split; [|reflexivity]].
      * rewrite <- (in_image_size im0 im q Hw Hh). now apply locate_in_image with (xy := q).
      * destruct (Hp q) as [E|E]; [now rewrite <- E|contradiction].
    + apply Hc. destruct Hx as [Hx|Hx]; [now left|right].
      apply set_add_elim in Hx as [Hx|Hx]; [contradiction|exact Hx].
Qed.

Lemma sweep_keeps (im0 im : image) (X edge full_edge : pset) :
  grows im0 im -> (forall q, In q X -> claimed im0 im q) ->
  sweep_inv im0 X (sweep' im edge full_edge).
Proof.
  intros Hg Hc. unfold sweep.
  assert (H0 : sweep_inv im0 X (im, full_edge, [])).
  { split; [exact Hg|]. intros q [Hq|[]]. now apply Hc. }
  revert H0. generalize (im, full_edge, @nil point) as st.
  induction edge as [|p edge IH]; simpl; intros st H; [exact H|].
  apply IH. unfold visit_around.
  generalize (neighbours p) as l. revert H. generalize st as st0.
  intros st0 H l. revert st0 H.
  induction l as [|q l IHl]; simpl; intros st0 H; [exact H|].
  apply IHl, visit_inv, H.
Qed.

Lemma floodfill_loop_inv (im0 : image) (fuel : nat) :
  forall (im : image) (edge full_edge filled : pset) (r : image * pset),
    grows im0 im ->
    (forall q, In q edge \/ In q filled -> claimed im0 im q) ->
    floodfill_loop' fuel im edge full_edge filled = Some r ->
    grows im0 (fst r) /\ forall q, In q (snd r) -> claimed im0 (fst r) q.
Proof.
  induction fuel as [|fuel IH]; intros im edge fe filled r Hg Hc Hr.
  - destruct edge; [|discriminate]. injection Hr as <-. simpl. auto.
  - destruct edge as [|p edge]; [injection Hr as <-; simpl; auto|].
    cbn [floodfill_loop] in Hr.
    assert (Hs := sweep_keeps im0 im (pset_update filled (p :: edge)) (p :: edge) fe Hg).
    destruct (sweep' im (p :: edge) fe) as [[im' fe'] ne].
    destruct Hs as [Hg' Hc'].
    { intros q Hq. apply Hc. apply set_union_elim in Hq. tauto. }
    apply (IH im' ne (p :: edge) (pset_update filled (p :: edge)) r Hg'); [|exact Hr].
    intros q Hq. apply Hc'. tauto.
Qed.

End FloodfillFacts.

(** X6.  The fuel that [floodfill] gives its loop is enough: the loop
    always leaves through [while edge:]. *)
Lemma floodfill_loop_terminates (im : image) (xy c : point)
      (value : Z) (border : option Z) (thresh : Z) :
  locate im xy = Ok c ->
  (_color_diff value (pix im c) <=? thresh) = false ->
  exists r,
    floodfill_loop value border thresh (pix im c)
      (S (length (coords im))) (store im c value) [xy] [] [] = Some r.
Proof.
  intros Hloc Hseed. apply floodfill_loop_fuel.
  - unfold fill_test. destruct border as [b|]; [|exact Hseed].
    now rewrite Z.eqb_refl.
  - unfold fillable. rewrite coords_store.
    apply Nat.lt_succ_r.
    apply List.filter_length_le.
Qed.

(** What a fill from a seed without negative coordinate does to the grid:
    the size is kept, a pixel either keeps its value or receives the fill
    value, and the returned coordinates are exactly pixels of the grid that
    did not hold the fill value before and hold it afterwards. *)
Lemma floodfill_sound (im : image) (xy : point) (value : Z)
      (border : option Z) (thresh : Z) (im' : image) (filled : pset) :
  0 <= fst xy -> 0 <= snd xy -> 0 <= thresh ->
  floodfill im xy value border thresh = (im', filled) ->
  grows value im im' /\
  forall q, In q filled -> claimed value im im' q.
Proof.
  intros Hx Hy Ht. unfold floodfill.
  assert (Hrefl : grows value im im) by (repeat split; auto).
  destruct (locate im xy) as [c|] eqn:Hloc;
    [|intros [= <- <-]; split; [exact Hrefl|intros q []]].
  assert (c = xy) by (now apply (locate_nonneg im xy c)). subst c.
  destruct (_color_diff value (pix im xy) <=? thresh) eqn:Hseed;
    [intros [= <- <-]; split; [exact Hrefl|intros q []]|].
  destruct (floodfill_loop value border thresh (pix im xy)
              (S (length (coords im))) (store im xy value) [xy] [] [])
    as [r|] eqn:Hloop;
    [|intros [= <- <-]; split; [exact Hrefl|intros q []]].
  intros ->.
  assert (Hv : fill_test value border thresh (pix im xy) value = false).
  { unfold fill_test. destruct border as [b|]; [|exact Hseed]. now rewrite Z.eqb_refl. }
  assert (Hne : pix im xy <> value).
  { intros E. rewrite E in Hseed. unfold _color_diff in Hseed.
    rewrite Z.sub_diag in Hseed. simpl in Hseed. lia. }
  apply (floodfill_loop_inv value border thresh (pix im xy) Hv im (S (length (coords im)))
           (store im xy value) [xy] [] [] (im', filled)); [| |exact Hloop].
  - repeat split; auto. intros q. rewrite pix_store.
    destruct (point_eq_dec q xy); auto.
  - intros q [[<-|[]]|[]]. unfold claimed. rewrite pix_store.
    split; [now apply locate_in_image with (xy := xy)|].
    split; [exact Hne|]. destruct (point_eq_dec xy xy); congruence.
Qed.


(** ** Dictionaries *)

Section DictFacts.

Variables K V : Type.
Variable K_eq_dec : forall a b : K, {a = b} + {a <> b}.

Local Abbreviation dget := (@dict_get K V K_eq_dec).
Local Abbreviation dset := (@dict_set K V K_eq_dec).
Local Abbreviation ddel := (@dict_del K V K_eq_dec).

Lemma dict_get_set_eq (k : K) (v : V) (d : dict K V) :
  dget k (dset k v d) = Some v.
Proof.
  induction d as [|[k' v'] d IH]; simpl.
  - destruct (K_eq_dec k k); congruence.
  - destruct (K_eq_dec k k') as [->|Hne]; simpl.
    + destruct (K_eq_dec k' k'); congruence.
    + destruct (K_eq_dec k k'); [contradiction|exact IH].
Qed.

Lemma dict_get_set_ne (k k' : K) (v : V) (d : dict K V) :
  k <> k' -> dget k' (dset k v d) = dget k' d.
Proof.
  intros Hne. induction d as [|[k0 v0] d IH]; simpl.
  - destruct (K_eq_dec k' k); congruence.
  - destruct (K_eq_dec k k0) as [->|Hk]; simpl.
    + destruct (K_eq_dec k' k0); congruence.
    + destruct (K_eq_dec k' k0); [reflexivity|exact IH].
Qed.

Lemma dict_get_del_eq (k : K) (d : dict K V) : dget k (ddel k d) = None.
Proof.
  induction d as [|[k0 v0] d IH]; simpl; [reflexivity|].
  destruct (K_eq_dec k k0) as [->|Hk]; [exact IH|].
  simpl. destruct (K_eq_dec k k0); [contradiction|exact IH].
Qed.

Lemma dict_get_del_ne (k k' : K) (d : dict K V) :
  k <> k' -> dget k' (ddel k d) = dget k' d.
Proof.
  intros Hne. induction d as [|[k0 v0] d IH]; simpl; [reflexivity|].
  destruct (K_eq_dec k k0) as [->|Hk]; simpl.
  - destruct (K_eq_dec k' k0); [congruence|exact IH].
  - destruct (K_eq_dec k' k0); [reflexivity|exact IH].
Qed.

Lemma dict_get_in (k : K) (d : dict K V) :
  In k (dict_keys d) <-> exists v, dget k d = Some v.
Proof.
  induction d as [|[k0 v0] d IH]; simpl.
  - split; [intros []|intros [v Hv]; discriminate].
  - destruct (K_eq_dec k k0) as [->|Hk].
    + split; eauto.
    + rewrite <- IH. split; [intros [E|H]; [congruence|exact H]|auto].
Qed.

Lemma dict_get_none (k : K) (d : dict K V) :
  ~ In k (dict_keys d) <-> dget k d = None.
Proof.
  rewrite dict_get_in. destruct (dget k d) as [v|].
  - split; [intros H; exfalso; eauto|discriminate].
  - split; [reflexivity|intros _ [v Hv]; discriminate].
Qed.

Lemma dict_keys_set_new (k : K) (v : V) (d : dict K V) :
  ~ In k (dict_keys d) -> dict_keys (dset k v d) = dict_keys d ++ [k].
Proof.
  induction d as [|[k0 v0] d IH]; simpl; intros Hn; [reflexivity|].
  destruct (K_eq_dec k k0) as [->|Hk]; [tauto|].
  simpl. f_equal. apply IH. tauto.
Qed.

Lemma dict_keys_del (k k' : K) (d : dict K V) :
  In k' (dict_keys (ddel k d)) <-> k' <> k /\ In k' (dict_keys d).
Proof.
  rewrite !dict_get_in. destruct (K_eq_dec k k') as [->|Hne].
  - rewrite dict_get_del_eq. split; [intros [v Hv]; discriminate|tauto].
  - rewrite (dict_get_del_ne k k' d Hne). split; [intros H; split; [congruence|exact H]|tauto].
Qed.

End DictFacts.

Arguments dict_get_set_eq {K V} K_eq_dec k v d.
Arguments dict_get_set_ne {K V} K_eq_dec k k' v d _.
Arguments dict_get_del_eq {K V} K_eq_dec k d.
Arguments dict_get_del_ne {K V} K_eq_dec k k' d _.
Arguments dict_get_in {K V} K_eq_dec k d.
Arguments dict_get_none {K V} K_eq_dec k d.
Arguments dict_keys_set_new {K V} K_eq_dec k v d _.
Arguments dict_keys_del {K V} K_eq_dec k k' d.

(** ** Loops *)

Lemma for_each_inv {S A} (I : S -> Prop) (P : A -> Prop)
      (body : A -> M S unit) (l : list A) :
  (forall a s, P a -> I s -> I (snd (body a s))) ->
  Forall P l -> forall s, I s -> I (snd (for_each l body s)).
Proof.
  intros Hbody HP. induction HP as [|a l' Ha HP IH]; intros s Hs; [exact Hs|].
  simpl. unfold bind. specialize (Hbody a s Ha Hs).
  destruct (body a s) as [[[]|e] s']; simpl in *; auto.
Qed.

Lemma for_each_ok {S A} (I : S -> Prop) (P : A -> Prop)
      (body : A -> M S unit) (l : list A) :
  (forall a s, P a -> I s -> exists s', body a s = (Ok tt, s') /\ I s') ->
  Forall P l -> forall s, I s -> exists s', for_each l body s = (Ok tt, s') /\ I s'.
Proof.
  intros Hbody HP. induction HP as [|a l' Ha HP IH]; intros s Hs;
    [exists s; split; [reflexivity|exact Hs]|].
  simpl. unfold bind. destruct (Hbody a s Ha Hs) as (s' & -> & Hs'). now apply IH.
Qed.

(** The slices of [chunker] only hold elements of the sequence, and put
    together they are the sequence. *)
Lemma chunks_concat {A} (fuel size : nat) (seq : list A) :
  (0 < size)%nat -> (length seq <= fuel)%nat ->
  concat (chunks fuel size seq) = seq.
Proof.
  intros Hsize. revert seq. induction fuel as [|fuel IH]; intros seq Hlen.
  - destruct seq; [reflexivity|simpl in Hlen; lia].
  - destruct seq as [|a seq]; [reflexivity|].
    cbn [chunks concat]. rewrite IH.
    + apply firstn_skipn.
    + rewrite length_skipn. cbn [length] in *. lia.
Qed.

(** X8.  The chunks of [chunker], put end to end, are the sequence. *)
Lemma chunker_concat {A} (seq : list A) (size : Z) (cs : list (list A)) :
  0 < size -> chunker seq size = Ok cs -> concat cs = seq.
Proof.
  unfold chunker. intros Hs.
  destruct (size =? 0) eqn:E0; [lia|]. destruct (size <? 0) eqn:E1; [lia|].
  intros [= <-]. apply chunks_concat; lia.
Qed.

Lemma chunker_elements {A} (P : A -> Prop) (seq : list A) (size : Z)
      (cs : list (list A)) :
  Forall P seq -> chunker seq size = Ok cs -> Forall (Forall P) cs.
Proof.
  unfold chunker. intros HP.
  destruct (size =? 0); [discriminate|].
  destruct (size <? 0); [intros [= <-]; constructor|].
  intros [= <-]. generalize (length seq) as fuel. intros fuel.
  revert seq HP. induction fuel as [|fuel IH]; intros seq HP; [constructor|].
  destruct seq as [|a seq]; [constructor|]. cbn [chunks]. constructor.
  - rewrite Forall_forall in *. intros x Hx. apply HP.
    rewrite <- (firstn_skipn (Z.to_nat size) (a :: seq)). apply in_or_app. now left.
  - apply IH. rewrite Forall_forall in *. intros x Hx. apply HP.
    rewrite <- (firstn_skipn (Z.to_nat size) (a :: seq)). apply in_or_app. now right.
Qed.

(** ** Masks drawn by [execute] *)

Lemma draw_mask_spec (filled : pset) :
  forall mask : image,
    (forall q, In q filled -> in_image mask q = true) ->
    exists m,
      draw_mask filled mask = Ok m /\
      width m = width mask /\ height m = height mask /\
      forall q, pix m q = 0 <-> In q filled \/ pix mask q = 0.
Proof.
  unfold draw_mask. induction filled as [|p filled IH]; intros mask Hin.
  - exists mask. simpl. repeat split; tauto.
  - cbn [fold_left]. unfold putpixel at 2.
    rewrite (locate_inside mask p (Hin p (or_introl eq_refl))).
    destruct (IH (store mask p 0)) as (m & Hm & Hw & Hh & Hp).
    { intros q Hq. rewrite (in_image_size mask (store mask p 0)); [|reflexivity..].
      apply Hin. now right. }
    exists m. split; [exact Hm|]. split; [exact Hw|]. split; [exact Hh|].
    intros q. rewrite Hp, pix_store. simpl.
    destruct (point_eq_dec q p) as [->|Hne]; [tauto|].
    split; [intros [H|H]; auto|intros [[E|H]|H]; auto; congruence].
Qed.

(** ** The scan of [Regioner.execute] *)

(** The keys [1..n]. *)
Definition numbered (n : nat) : list Z := map Z.of_nat (seq 1 n).

Lemma in_numbered (n : nat) (k : Z) : In k (numbered n) <-> 1 <= k <= Z.of_nat n.
Proof.
  unfold numbered. rewrite in_map_iff. split.
  - intros (i & <- & Hi). apply in_seq in Hi. lia.
  - intros H. exists (Z.to_nat k). split; [lia|]. apply in_seq. lia.
Qed.

Lemma numbered_succ (n : nat) : numbered (S n) = numbered n ++ [Z.of_nat n + 1].
Proof.
  unfold numbered. rewrite seq_S, map_app. simpl. do 2 f_equal. lia.
Qed.

(** No coordinate is filled (value [0]) in the mask files of two different
    keys of [keys]. *)
Definition masks_disjoint (keys : list Z) (d : directory) : Prop :=
  forall i j mi mj,
    In i keys -> In j keys -> i <> j ->
    dict_get stem_eq_dec (Num i) d = Some mi ->
    dict_get stem_eq_dec (Num j) d = Some mj ->
    forall q, ~ (pix mi q = 0 /\ pix mj q = 0).

(** Invariant of the scan: the regions found so far are numbered [1..n],
    each has its mask file, every pixel of a mask holds the wall colour in
    the working copy of the base image, and the masks are disjoint. *)
Definition scan_inv (wall : Z) (st : scan) : Prop :=
  exists n : nat,
    mask_count st = Z.of_nat n /\
    dict_keys (scan_regions st) = numbered n /\
    (forall k, In k (numbered n) ->
       exists m, dict_get stem_eq_dec (Num k) (scan_masks st) = Some m /\
                 forall q, pix m q = 0 -> pix (base_img st) q = wall) /\
    masks_disjoint (numbered n) (scan_masks st).

Lemma scan_inv_grows (wall : Z) (st : scan) (im : image) (ap : pset) :
  scan_inv wall st -> grows wall (base_img st) im ->
  scan_inv wall (mkScan im ap (mask_count st) (scan_regions st) (scan_masks st)).
Proof.
  intros (n & Hn & Hk & Hm & Hd) (_ & _ & Hg). exists n. simpl.
  repeat split; auto. intros k Hin. destruct (Hm k Hin) as (m & Hget & Hw).
  exists m. split; [exact Hget|]. intros q Hq.
  destruct (Hg q) as [E|E]; [rewrite E; auto|exact E].
Qed.

Lemma scan_inv_add (wall : Z) (st : scan) (im mask : image) (filled ap : pset)
      (r : Region) :
  scan_inv wall st -> grows wall (base_img st) im ->
  (forall q, In q filled -> claimed wall (base_img st) im q) ->
  (forall q, pix mask q = 0 <-> In q filled) ->
  scan_inv wall
    (mkScan im ap (mask_count st + 1)
       (dict_set Z.eq_dec (mask_count st + 1) r (scan_regions st))
       (dict_set stem_eq_dec (Num (mask_count st + 1)) mask (scan_masks st))).
Proof.
  intros (n & Hn & Hk & Hm & Hd) Hgrows Hcl Hmask.
  assert (Hg : forall q, pix (base_img st) q = wall -> pix im q = wall).
  { intros q Hq. destruct Hgrows as (_ & _ & Hg). destruct (Hg q); congruence. }
  assert (Hnew : ~ In (Z.of_nat n + 1) (numbered n)) by (rewrite in_numbered; lia).
  assert (Hother : forall k, In k (numbered n) ->
            dict_get stem_eq_dec (Num k)
              (dict_set stem_eq_dec (Num (Z.of_nat n + 1)) mask (scan_masks st))
            = dict_get stem_eq_dec (Num k) (scan_masks st)).
  { intros k Hin. apply dict_get_set_ne. intros [= E]. now subst k. }
  exists (S n). cbn [mask_count scan_regions scan_masks base_img].
  rewrite Hn in *. split; [lia|]. split; [|split].
  - rewrite dict_keys_set_new, Hk, numbered_succ; [reflexivity|now rewrite Hk].
  - intros k Hin. rewrite numbered_succ in Hin. apply in_app_or in Hin as [Hin|[<-|[]]].
    + rewrite (Hother k Hin). destruct (Hm k Hin) as (m & Hget & Hw).
      exists m. split; [exact Hget|]. intros q Hq. auto.
    + exists mask. rewrite dict_get_set_eq. split; [reflexivity|].
      intros q Hq. apply Hmask, Hcl in Hq. apply Hq.
  - intros i j mi mj Hi Hj Hij Hgi Hgj q [Hqi Hqj].
    rewrite numbered_succ in Hi, Hj.
    apply in_app_or in Hi as [Hi|[<-|[]]]; apply in_app_or in Hj as [Hj|[<-|[]]].
    + rewrite (Hother i Hi) in Hgi. rewrite (Hother j Hj) in Hgj.
      exact (Hd i j mi mj Hi Hj Hij Hgi Hgj q (conj Hqi Hqj)).
    + rewrite (Hother i Hi) in Hgi. rewrite dict_get_set_eq in Hgj.
      injection Hgj as <-. destruct (Hm i Hi) as (m & Hget & Hw).
      rewrite Hget in Hgi. injection Hgi as <-.
      apply Hmask, Hcl in Hqj. destruct Hqj as (_ & Hne & _). auto.
    + rewrite (Hother j Hj) in Hgj. rewrite dict_get_set_eq in Hgi.
      injection Hgi as <-. destruct (Hm j Hj) as (m & Hget & Hw).
      rewrite Hget in Hgj. injection Hgj as <-.
      apply Hmask, Hcl in Hqi. destruct Hqi as (_ & Hne & _). auto.
    + congruence.
Qed.

Lemma get_center_nonempty (p : Q * Q) (l : list (Q * Q)) :
  exists c, get_center (p :: l) = Ok c.
Proof. unfold get_center. eauto. Qed.

(** The state reached by [scan_pixel] at a pixel that passes the seed test,
    with the fill it performed. *)
Lemma scan_pixel_seed (rg : Regioner) (y1 x1 : Z) (st : scan) (p : Z) :
  0 <= x1 -> 0 <= y1 ->
  pset_mem (x1, y1) (already_processed st) = false ->
  getpixel (base_img st) (x1, y1) = Ok p -> is_seed rg p = true ->
  exists im filled,
    floodfill (base_img st) (x1, y1) (wall_color rg) (Some (wall_color rg)) 0
      = (im, filled) /\
    grows (wall_color rg) (base_img st) im /\
    (forall q, In q filled -> claimed (wall_color rg) (base_img st) im q) /\
    ((filled = [] /\
      scan_pixel rg y1 x1 st =
        (Ok tt, mkScan im (already_processed st) (mask_count st)
                       (scan_regions st) (scan_masks st)))
     \/
     (exists mask c,
        (forall q, pix mask q = 0 <-> In q filled) /\
        scan_pixel rg y1 x1 st =
          (Ok tt,
           mkScan im (pset_update (already_processed st) filled)
                  (mask_count st + 1)
                  (dict_set Z.eq_dec (mask_count st + 1)
                     (mkRegion c (Z.of_nat (length filled)) [])
                     (scan_regions st))
                  (dict_set stem_eq_dec (Num (mask_count st + 1)) mask
                     (scan_masks st))))).
Proof.
  intros Hx Hy Hmem Hget Hseed.
  destruct (floodfill (base_img st) (x1, y1) (wall_color rg) (Some (wall_color rg)) 0)
    as [im filled] eqn:Hfill.
  destruct (floodfill_sound (base_img st) (x1, y1) (wall_color rg)
              (Some (wall_color rg)) 0 im filled Hx Hy (Z.le_refl 0) Hfill)
    as [Hgrows Hcl].
  exists im, filled. split; [reflexivity|]. split; [exact Hgrows|]. split; [exact Hcl|].
  unfold scan_pixel, bind, get, lift, ret, put. rewrite Hmem, Hget, Hseed, Hfill.
  destruct filled as [|f0 filled]; [left; split; reflexivity|right].
  destruct (draw_mask_spec (f0 :: filled) (Image_new (width im, height im) 255))
    as (mask & Hdraw & _ & _ & Hpix).
  { intros q Hq. destruct (Hcl q Hq) as (Hin & _). destruct Hgrows as (Hw & Hh & _).
    rewrite <- Hin. apply in_image_size; simpl; congruence. }
  rewrite Hdraw.
  destruct (get_center_nonempty (qpoint f0) (map qpoint filled)) as (c & Hc).
  change (map qpoint (f0 :: filled)) with (qpoint f0 :: map qpoint filled).
  rewrite Hc. exists mask, c. split; [|reflexivity].
  intros q. rewrite Hpix. simpl. split; [intros [H|H]; [exact H|discriminate]|auto].
Qed.

Lemma scan_pixel_inv (rg : Regioner) (y1 x1 : Z) (st : scan) :
  0 <= y1 -> 0 <= x1 ->
  scan_inv (wall_color rg) st ->
  scan_inv (wall_color rg) (snd (scan_pixel rg y1 x1 st)).
Proof.
  intros Hy Hx Hinv.
  destruct (pset_mem (x1, y1) (already_processed st)) eqn:Hmem.
  { unfold scan_pixel, bind, get, ret. now rewrite Hmem. }
  destruct (getpixel (base_img st) (x1, y1)) as [p|e] eqn:Hget.
  2:{ unfold scan_pixel, bind, get, lift. now rewrite Hmem, Hget. }
  destruct (is_seed rg p) eqn:Hseed.
  2:{ unfold scan_pixel, bind, get, lift, ret. now rewrite Hmem, Hget, Hseed. }
  destruct (scan_pixel_seed rg y1 x1 st p Hx Hy Hmem Hget Hseed)
    as (im & filled & _ & Hgrows & Hcl & [[_ ->]|(mask & c & Hmask & ->)]); simpl.
  - now apply scan_inv_grows.
  - now apply scan_inv_add with (filled := filled).
Qed.

Lemma range_nonneg (n : Z) : Forall (fun x => 0 <= x) (range n).
Proof. apply Forall_forall. intros x Hx. apply in_range in Hx. lia. Qed.

Lemma scan_row_inv (rg : Regioner) (w y1 : Z) (st : scan) :
  0 <= y1 ->
  scan_inv (wall_color rg) st ->
  scan_inv (wall_color rg) (snd (scan_row rg w y1 st)).
Proof.
  intros Hy Hinv. unfold scan_row, bind, lift.
  destruct (chunker (range w) (w / 10)) as [cs|e] eqn:Hcs; [|exact Hinv].
  apply for_each_inv with (P := Forall (fun x => 0 <= x)); [|
    exact (chunker_elements _ _ _ _ (range_nonneg w) Hcs)|exact Hinv].
  intros chunk s Hchunk Hs.
  apply for_each_inv with (P := fun x => 0 <= x); [|exact Hchunk|exact Hs].
  intros x s' Hx0 Hs'. now apply scan_pixel_inv.
Qed.

Lemma scan_image_inv (rg : Regioner) (w h : Z) (st : scan) :
  scan_inv (wall_color rg) st ->
  scan_inv (wall_color rg) (snd (scan_image rg w h st)).
Proof.
  intros Hinv. unfold scan_image, bind, lift.
  destruct (chunker (range h) (h / 10)) as [cs|e] eqn:Hcs; [|exact Hinv].
  apply for_each_inv with (P := Forall (fun y => 0 <= y)); [|
    exact (chunker_elements _ _ _ _ (range_nonneg h) Hcs)|exact Hinv].
  intros chunk s Hchunk Hs.
  apply for_each_inv with (P := fun y => 0 <= y); [|exact Hchunk|exact Hs].
  intros y s' Hy0 Hs'. now apply scan_row_inv.
Qed.

Lemma scan_inv_init (wall : Z) (base : image) (d : directory) :
  scan_inv wall (mkScan base [] 0 [] d).
Proof.
  exists 0%nat. simpl. repeat split; try reflexivity.
  - intros k [].
  - intros i j mi mj [].
Qed.

(** What [execute] returns, in terms of the final state of its scan. *)
Lemma execute_scan (rg : Regioner) (cm cm' : ConquestMap) (rs : dict Z Region) :
  execute rg cm = (Ok (Some rs), cm') ->
  exists base st,
    blank_png cm = Some base /\
    scan_inv (wall_color rg) st /\
    rs = scan_regions st /\
    cm' = with_masks_dir (scan_masks st) cm.
Proof.
  unfold execute. destruct (blank_png cm) as [base|] eqn:Hb; [|discriminate].
  set (d := match masks_dir cm with Some d => d | None => [] end).
  assert (Hinv := scan_image_inv rg (width base) (height base)
                    (mkScan base [] 0 [] d) (scan_inv_init _ _ _)).
  destruct (scan_image rg (width base) (height base) (mkScan base [] 0 [] d))
    as [[[]|e] st]; [|discriminate].
  unfold bind, create_number_mask, ret. cbn [blank_png with_masks_dir]. rewrite Hb.
  intros [= <- <-]. exists base, st. auto.
Qed.

(** *** [execute] returns on images of at least 10 by 10 pixels *)

Definition scan_size (w h : Z) (st : scan) : Prop :=
  width (base_img st) = w /\ height (base_img st) = h.

Lemma scan_pixel_total (rg : Regioner) (w h y1 x1 : Z) (st : scan) :
  0 <= y1 < h -> 0 <= x1 < w -> scan_size w h st ->
  exists st', scan_pixel rg y1 x1 st = (Ok tt, st') /\ scan_size w h st'.
Proof.
  intros Hy Hx [Hw Hh].
  destruct (pset_mem (x1, y1) (already_processed st)) eqn:Hmem.
  { exists st. unfold scan_pixel, bind, get, ret. rewrite Hmem. now split. }
  assert (Hin : in_image (base_img st) (x1, y1) = true).
  { unfold in_image. simpl. rewrite Hw, Hh.
    repeat (apply andb_true_intro; split); lia. }
  assert (Hget : getpixel (base_img st) (x1, y1) = Ok (pix (base_img st) (x1, y1))).
  { unfold getpixel. now rewrite (locate_inside _ _ Hin). }
  destruct (is_seed rg (pix (base_img st) (x1, y1))) eqn:Hseed.
  2:{ exists st. unfold scan_pixel, bind, get, lift, ret.
      rewrite Hmem, Hget, Hseed. now split. }
  destruct (scan_pixel_seed rg y1 x1 st _ (proj1 Hx) (proj1 Hy) Hmem Hget Hseed)
    as (im & filled & _ & (Hw' & Hh' & _) & _ & [[_ ->]|(mask & c & _ & ->)]);
    eexists; (split; [reflexivity|]); split; simpl; congruence.
Qed.

Lemma range_bounds (n : Z) : Forall (fun x => 0 <= x < n) (range n).
Proof. apply Forall_forall. intros x Hx. now apply in_range. Qed.

Lemma chunker_ok {A} (seq : list A) (size : Z) :
  0 < size -> exists cs, chunker seq size = Ok cs.
Proof.
  intros H. unfold chunker.
  destruct (size =? 0) eqn:E0; [lia|]. destruct (size <? 0) eqn:E1; [lia|]. eauto.
Qed.

Lemma scan_image_total (rg : Regioner) (w h : Z) (st : scan) :
  10 <= w -> 10 <= h -> scan_size w h st ->
  exists st', scan_image rg w h st = (Ok tt, st').
Proof.
  intros Hw Hh Hsize. unfold scan_image, bind, lift.
  destruct (chunker_ok (range h) (h / 10)) as (ycs & Hycs).
  { apply Z.div_str_pos. lia. }
  rewrite Hycs.
  destruct (for_each_ok (scan_size w h) (Forall (fun y => 0 <= y < h))
              (fun y_chunk => for_each y_chunk (scan_row rg w)) ycs) with (s := st)
    as (st' & -> & _); eauto using chunker_elements, range_bounds.
  intros ychunk s Hychunk Hs.
  apply for_each_ok with (P := fun y => 0 <= y < h); [|exact Hychunk|exact Hs].
  intros y s1 Hy Hs1. unfold scan_row, bind, lift.
  destruct (chunker_ok (range w) (w / 10)) as (xcs & Hxcs).
  { apply Z.div_str_pos. lia. }
  rewrite Hxcs.
  apply for_each_ok with (P := Forall (fun x => 0 <= x < w));
    eauto using chunker_elements, range_bounds.
  intros xchunk s2 Hxchunk Hs2.
  apply for_each_ok with (P := fun x => 0 <= x < w); [|exact Hxchunk|exact Hs2].
  intros x s3 Hx Hs3. now apply scan_pixel_total.
Qed.

(** X2.  On a base image of at least 10 by 10 pixels [execute] returns a
    region mapping. *)
Lemma execute_returns (rg : Regioner) (cm : ConquestMap) (base : image) :
  blank_png cm = Some base -> 10 <= width base -> 10 <= height base ->
  exists rs cm', execute rg cm = (Ok (Some rs), cm').
Proof.
  intros Hb Hw Hh. unfold execute. rewrite Hb.
  destruct (scan_image_total rg (width base) (height base)
              (mkScan base [] 0 []
                 match masks_dir cm with Some d => d | None => [] end) Hw Hh)
    as (st & ->); [split; reflexivity|].
  unfold bind, create_number_mask, ret. cbn [blank_png with_masks_dir]. rewrite Hb. eauto.
Qed.

(** X3.  A base image lower than 10 pixels makes the first [chunker] call,
    and hence [execute], raise [ValueError]. *)
Lemma execute_raises_when_low (rg : Regioner) (cm : ConquestMap) (base : image) :
  blank_png cm = Some base -> 0 <= height base < 10 ->
  fst (execute rg cm) = Raise ValueError.
Proof.
  intros Hb Hh. unfold execute. rewrite Hb.
  unfold scan_image, bind, lift, chunker.
  rewrite (Z.div_small (height base) 10 Hh). reflexivity.
Qed.

(** C7.  The masks written by one run of [Regioner.execute] are pairwise
    disjoint: when the run returns the region mapping [rs], every key of
    [rs] has its mask file in the [masks] directory, and no coordinate is
    filled (value [0]) in the mask files of two different keys of [rs]. *)
Theorem execute_masks_disjoint (rg : Regioner) (cm cm' : ConquestMap)
        (rs : dict Z Region) :
  execute rg cm = (Ok (Some rs), cm') ->
  exists d,
    masks_dir cm' = Some d /\
    (forall k, In k (dict_keys rs) ->
               exists m, dict_get stem_eq_dec (Num k) d = Some m) /\
    masks_disjoint (dict_keys rs) d.
Proof.
  intros Hex. apply execute_scan in Hex as (base & st & _ & Hinv & -> & ->).
  destruct Hinv as (n & _ & Hkeys & Hmasks & Hdisj).
  exists (scan_masks st). simpl. rewrite Hkeys. split; [reflexivity|]. split.
  - intros k Hk. destruct (Hmasks k Hk) as (m & Hm & _). eauto.
  - exact Hdisj.
Qed.

(** A 10 by 10 map cut in two by a vertical wall at [x = 4]. *)
Definition two_halves : image :=
  mkImage 10 10 (fun c => if fst c =? 4 then 0 else 255).

Definition two_halves_map : ConquestMap :=
  mkMap None None None [] (Some two_halves) None None.

(** The regions and the map state that [execute] returns ([[]] when it
    returns none). *)
Definition executed (rg : Regioner) (cm : ConquestMap) : dict Z Region :=
  match fst (execute rg cm) with
  | Ok (Some rs) => rs
  | _ => []
  end.

Lemma execute_masks_disjoint_witness :
  execute default_regioner two_halves_map
  = (Ok (Some (executed default_regioner two_halves_map)),
     snd (execute default_regioner two_halves_map)) /\
  exists d,
    masks_dir (snd (execute default_regioner two_halves_map)) = Some d /\
    (forall k, In k (dict_keys (executed default_regioner two_halves_map)) ->
               exists m, dict_get stem_eq_dec (Num k) d = Some m) /\
    masks_disjoint (dict_keys (executed default_regioner two_halves_map)) d.
Proof.
  split; [vm_compute; reflexivity|].
  apply (execute_masks_disjoint default_regioner two_halves_map).
  vm_compute. reflexivity.
Defined.

(** ** [floodfill] at its degenerate seeds *)

(** A seed whose pixel access raises leaves the grid alone. *)
Lemma floodfill_seed_raises (im : image) (xy : point) (value : Z)
      (border : option Z) (thresh : Z) (e : exn) :
  locate im xy = Raise e -> floodfill im xy value border thresh = (im, []).
Proof. intros H. unfold floodfill. now rewrite H. Qed.

(** A seed whose pixel is within [thresh] of the fill value leaves the
    grid alone. *)
Lemma floodfill_seed_filled (im : image) (xy c : point) (value : Z)
      (border : option Z) (thresh : Z) :
  locate im xy = Ok c -> _color_diff value (pix im c) <= thresh ->
  floodfill im xy value border thresh = (im, []).
Proof.
  intros H Hd. unfold floodfill. rewrite H.
  apply Z.leb_le in Hd. now rewrite Hd.
Qed.

(** A one-pixel white grid. *)
Definition one_white : image := mkImage 1 1 (fun _ => 255).

(** C10.  The seed [(-1, 0)] lies outside the one-pixel grid, yet
    [floodfill] reads it as the pixel [(0, 0)]: the fill returns the
    non-empty set [{(-1, 0)}] and the pixel [(0, 0)] goes from [255] to the
    fill value [0]. *)
Theorem floodfill_negative_seed :
  in_image one_white (-1, 0) = false /\
  snd (floodfill one_white (-1, 0) 0 None 0) = [(-1, 0)] /\
  pix one_white (0, 0) = 255 /\
  pix (fst (floodfill one_white (-1, 0) 0 None 0)) (0, 0) = 0.
Proof. vm_compute. repeat split; reflexivity. Qed.

(** ** [region_max] after [generate_masks] *)

Lemma py_max_numbered (n : nat) : py_max (numbered (S n)) = Ok (Z.of_nat (S n)).
Proof.
  unfold numbered, py_max. cbn [seq map]. f_equal.
  assert (H : forall (l : list Z) (a b : Z),
             (forall x, In x l -> x <= b) -> a <= b -> In b (a :: l) ->
             fold_left Z.max l a = b).
  { induction l as [|x l IH]; intros a b Hl Ha Hin; simpl.
    - destruct Hin as [E|[]]. exact E.
    - apply IH.
      + intros y Hy. apply Hl. now right.
      + apply Z.max_lub; [exact Ha|apply Hl; now left].
      + destruct Hin as [<-|[<-|Hin]].
        * assert (x <= a) by (apply Hl; now left). left. lia.
        * assert (a <= x) by exact Ha. left. lia.
        * now right. }
  apply H.
  - intros x Hx. apply in_map_iff in Hx as (i & <- & Hi). apply in_seq in Hi. lia.
  - lia.
  - change (In (Z.of_nat (S n)) (map Z.of_nat (seq 1 (S n)))).
    apply in_map, in_seq. lia.
Qed.

(** X5.  After a segmentation that found [n >= 1] regions, the keys are
    [1..n] and [region_max] is [n + 1], one more than the greatest key. *)
Lemma generate_masks_region_max (cm cm' : ConquestMap) (r0 : Z * Region)
      (rs : dict Z Region) :
  generate_masks cm = (Ok (Some (r0 :: rs)), cm') ->
  exists n : nat,
    dict_keys (regions cm') = numbered (S n) /\
    py_max (dict_keys (regions cm')) = Ok (Z.of_nat (S n)) /\
    region_max cm' = Some (Z.of_nat (S n) + 1).
Proof.
  unfold generate_masks, bind.
  destruct (execute default_regioner cm) as [[[[|r1 rs1]|]|e] cm1] eqn:Hex;
    try discriminate.
  unfold set_regions, set_region_max, save_data, bind, get, set_data_json, ret.
  unfold with_regions, with_region_max, with_data_json.
  cbn [regions region_max name custom blank_png masks_dir data_json].
  intros [= <- <- <-].
  apply execute_scan in Hex as (base & st & _ & (n & _ & Hkeys & _) & Hrs & _).
  cbn [regions region_max]. rewrite <- Hrs in Hkeys.
  assert (Hlen : length (r1 :: rs1) = n).
  { rewrite <- (length_map fst). fold (dict_keys (r1 :: rs1)).
    rewrite Hkeys. unfold numbered. now rewrite length_map, length_seq. }
  destruct n as [|n]; [discriminate|].
  exists n. rewrite Hkeys, py_max_numbered.
  split; [reflexivity|]. split; [reflexivity|].
  f_equal. cbn [length] in Hlen. lia.
Qed.

(** A registry with the sparse keys [1] and [5], masks [1.png] (topmost
    pixel at [y = 0]) and [5.png] (topmost pixel at [y = 1]). *)
Definition row_mask (y : Z) : image :=
  mkImage 1 2 (fun c => if snd c =? y then 0 else 255).

Definition sparse_map : ConquestMap :=
  mkMap None None (Some 5)
        [(1, mkRegion (0, 0)%Q 1 []); (5, mkRegion (0, 1)%Q 1 [])]
        (Some (mkImage 1 2 (fun _ => 255)))
        (Some [(Num 1, row_mask 0); (Num 5, row_mask 1)])
        None.

(** C2.  On the map [two_halves_map], [generate_masks] finds two regions and
    stores them under the keys [1] and [2], yet sets [region_max] to [3];
    and on a registry with keys [1] and [5] and [region_max = 5],
    [sort_regions] renumbers the keys to [1] and [2] and leaves
    [region_max] at [5]. *)
Theorem region_max_not_the_maximum :
  (dict_keys (regions (snd (generate_masks two_halves_map))) = [1; 2] /\
   py_max (dict_keys (regions (snd (generate_masks two_halves_map)))) = Ok 2 /\
   region_max (snd (generate_masks two_halves_map)) = Some 3) /\
  (fst (sort_regions true sparse_map) = Ok tt /\
   dict_keys (regions (snd (sort_regions true sparse_map))) = [1; 2] /\
   region_max (snd (sort_regions true sparse_map)) = Some 5).
Proof. vm_compute. repeat split; reflexivity. Qed.

(** ** Steps of the state monad *)

Lemma bind_ok {S A B} (m : M S A) (k : A -> M S B) (s s' : S) (a : A) :
  m s = (Ok a, s') -> bind m k s = k a s'.
Proof. intros H. unfold bind. now rewrite H. Qed.

Lemma bind_raise {S A B} (m : M S A) (k : A -> M S B) (s s' : S) (e : exn) :
  m s = (Raise e, s') -> bind m k s = (Raise e, s').
Proof. intros H. unfold bind. now rewrite H. Qed.

(** A computation on the map that leaves [blank.png] and the [masks]
    directory as they are. *)
Definition keeps_files {A} (m : M ConquestMap A) : Prop :=
  forall cm, masks_dir (snd (m cm)) = masks_dir cm /\
             blank_png (snd (m cm)) = blank_png cm.

Lemma keeps_ret {A} (a : A) : keeps_files (ret a).
Proof. intros cm. now split. Qed.

Lemma keeps_raise {A} (e : exn) : keeps_files (@raise ConquestMap A e).
Proof. intros cm. now split. Qed.

Lemma keeps_lift {A} (r : result A) : keeps_files (lift r).
Proof. intros cm. now split. Qed.

Lemma keeps_get : keeps_files (@get ConquestMap).
Proof. intros cm. now split. Qed.

Lemma keeps_bind {A B} (m : M ConquestMap A) (k : A -> M ConquestMap B) :
  keeps_files m -> (forall a, keeps_files (k a)) -> keeps_files (bind m k).
Proof.
  intros Hm Hk cm. unfold bind. specialize (Hm cm).
  destruct (m cm) as [[a|e] cm1]; simpl in *; [|exact Hm].
  destruct (Hk a cm1) as [H1 H2]. destruct Hm as [H3 H4]. split; congruence.
Qed.

Lemma keeps_for_each {A} (l : list A) (body : A -> M ConquestMap unit) :
  (forall a, keeps_files (body a)) -> keeps_files (for_each l body).
Proof.
  intros Hb. induction l as [|a l IH]; simpl; [apply keeps_ret|].
  apply keeps_bind; auto.
Qed.

Lemma keeps_try_except {A} (m h : M ConquestMap A) (caught : exn -> bool) :
  keeps_files m -> keeps_files h -> keeps_files (try_except m caught h).
Proof.
  intros Hm Hh cm. unfold try_except. specialize (Hm cm).
  destruct (m cm) as [[a|e] cm1]; simpl in *; [exact Hm|].
  destruct (caught e); [|exact Hm].
  destruct (Hh cm1) as [H1 H2]. destruct Hm as [H3 H4]. split; congruence.
Qed.

Lemma keeps_set_regions (rs : dict Z Region) : keeps_files (set_regions rs).
Proof. intros cm. now split. Qed.

Lemma keeps_set_region_max (m : option Z) : keeps_files (set_region_max m).
Proof. intros cm. now split. Qed.

Lemma keeps_set_data_json (j : json) : keeps_files (set_data_json j).
Proof. intros cm. now split. Qed.

Lemma keeps_save_data : keeps_files save_data.
Proof. intros cm. now split. Qed.

Lemma keeps_create_number_mask : keeps_files create_number_mask.
Proof.
  intros cm. unfold create_number_mask.
  destruct (blank_png cm) eqn:E; simpl; split; auto.
Qed.

Lemma keeps_pop_region (k : Z) : keeps_files (pop_region k).
Proof.
  unfold pop_region. apply keeps_bind; [apply keeps_get|]. intros cm.
  apply keeps_bind; [apply keeps_lift|]. intros [r rs]. apply keeps_set_regions.
Qed.

Lemma keeps_refresh_region_max (keys : list Z) : keeps_files (refresh_region_max keys).
Proof.
  unfold refresh_region_max. apply keeps_bind; [apply keeps_get|]. intros cm.
  destruct (region_max_in keys cm); [|apply keeps_ret].
  apply keeps_bind; [apply keeps_lift|]. intros m. apply keeps_set_region_max.
Qed.

(** ** Merging masks *)

(** The file [f"{k}.png"] of the [masks] directory, when there is one. *)
Definition mask_file (k : Z) (cm : ConquestMap) : option image :=
  match masks_dir cm with
  | Some d => dict_get stem_eq_dec (Num k) d
  | None => None
  end.

Lemma open_mask_eq (k : Z) (cm : ConquestMap) :
  open_mask k cm =
  match mask_file k cm with
  | Some m => (Ok m, cm)
  | None => (Raise FileNotFoundError, cm)
  end.
Proof.
  unfold open_mask, mask_file, bind, listdir.
  destruct (masks_dir cm) as [d|]; [|reflexivity].
  destruct (dict_get stem_eq_dec (Num k) d); reflexivity.
Qed.

(** The update of [lowest_num] and [eliminated_masks] for one key. *)
Definition track (st : option Z * list Z) (k : Z) : option Z * list Z :=
  match fst st with
  | None => (Some k, snd st)
  | Some l => if k <? l then (Some k, snd st ++ [l]) else (Some l, snd st ++ [k])
  end.

(** The loop of [_img_combine_masks] reads the mask of every key, in
    order, and leaves the map as it is. *)
Lemma combine_loop_spec (mask_list : list Z) :
  forall (lo : option Z) (el : list Z) (mask : image) (cm cm' : ConquestMap)
         (r : combine_state),
    for_fold mask_list combine_step (lo, el, mask) cm = (Ok r, cm') ->
    cm' = cm /\
    exists ms,
      Forall2 (fun k m => mask_file k cm = Some m) mask_list ms /\
      r = (fold_left track mask_list (lo, el), fold_left logical_and ms mask).
Proof.
  induction mask_list as [|k l IH]; intros lo el mask cm cm' r.
  - simpl. unfold ret. intros [= <- <-]. split; [reflexivity|].
    exists []. split; [constructor|reflexivity].
  - cbn [for_fold]. unfold bind at 1.
    assert (Hstep : combine_step (lo, el, mask) k cm =
                    match mask_file k cm with
                    | Some m => (Ok (track (lo, el) k, logical_and mask m), cm)
                    | None => (Raise FileNotFoundError, cm)
                    end).
    { unfold combine_step, track. simpl fst. simpl snd.
      destruct lo as [l0|]; [destruct (k <? l0)|]; unfold bind;
        rewrite open_mask_eq; destruct (mask_file k cm); reflexivity. }
    rewrite Hstep. destruct (mask_file k cm) as [m|] eqn:Hm; [|discriminate].
    destruct (track (lo, el) k) as [lo1 el1] eqn:Ht. intros Hrest.
    apply IH in Hrest as (-> & ms & Hms & ->). split; [reflexivity|].
    exists (m :: ms). split; [now constructor|]. simpl. now rewrite Ht.
Qed.

Lemma combine_loop_total (mask_list : list Z) :
  forall (lo : option Z) (el : list Z) (mask : image) (cm : ConquestMap)
         (ms : list image),
    Forall2 (fun k m => mask_file k cm = Some m) mask_list ms ->
    for_fold mask_list combine_step (lo, el, mask) cm
    = (Ok (fold_left track mask_list (lo, el), fold_left logical_and ms mask), cm).
Proof.
  induction mask_list as [|k l IH]; intros lo el mask cm ms Hms.
  - inversion Hms. reflexivity.
  - inversion Hms as [|k' m l' ms' Hm Hrest]; subst.
    cbn [for_fold fold_left]. unfold bind at 1.
    assert (Hstep : combine_step (lo, el, mask) k cm =
                    (Ok (track (lo, el) k, logical_and mask m), cm)).
    { unfold combine_step, track. simpl fst. simpl snd.
      destruct lo as [l0|]; [destruct (k <? l0)|]; unfold bind;
        rewrite open_mask_eq, Hm; reflexivity. }
    rewrite Hstep. destruct (track (lo, el) k) as [lo1 el1]. now apply IH.
Qed.

(** The lowest key survives, the other keys are eliminated. *)
Lemma track_spec (l : list Z) :
  forall (lo : Z) (el : list Z),
  exists lo' el',
    fold_left track l (Some lo, el) = (Some lo', el') /\
    Permutation (lo' :: el') (lo :: el ++ l) /\
    lo' <= lo /\ (forall k, In k l -> lo' <= k).
Proof.
  induction l as [|k l IH]; intros lo el.
  - exists lo, el. rewrite app_nil_r. simpl.
    split; [reflexivity|]. split; [apply Permutation_refl|]. split; [lia|tauto].
  - cbn [fold_left].
    change (track (Some lo, el) k)
      with (if k <? lo then (Some k, el ++ [lo]) else (Some lo, el ++ [k])).
    destruct (k <? lo) eqn:Hk.
    + destruct (IH k (el ++ [lo])) as (lo' & el' & -> & Hp & Hle & Hall).
      exists lo', el'. split; [reflexivity|]. apply Z.ltb_lt in Hk. split; [|split].
      * rewrite Hp. transitivity (k :: lo :: el ++ l).
        -- apply perm_skip. rewrite <- app_assoc. simpl.
           symmetry. apply Permutation_middle.
        -- rewrite perm_swap. apply perm_skip. apply Permutation_middle.
      * lia.
      * intros x [<-|Hx]; [exact Hle|auto].
    + destruct (IH lo (el ++ [k])) as (lo' & el' & -> & Hp & Hle & Hall).
      exists lo', el'. split; [reflexivity|]. apply Z.ltb_ge in Hk. split; [|split].
      * rewrite Hp. now rewrite <- app_assoc.
      * exact Hle.
      * intros x [<-|Hx]; [lia|auto].
Qed.

Lemma track_first (k : Z) (l : list Z) :
  exists lo el,
    fold_left track (k :: l) (None, []) = (Some lo, el) /\
    Permutation (lo :: el) (k :: l) /\
    In lo (k :: l) /\ (forall x, In x (k :: l) -> lo <= x).
Proof.
  destruct (track_spec l k []) as (lo & el & Hf & Hp & Hle & Hall).
  exists lo, el. cbn [fold_left].
  change (track (None, []) k) with (Some k, @nil Z).
  split; [exact Hf|]. split; [exact Hp|]. split.
  - apply (Permutation_in lo Hp). now left.
  - intros x [<-|Hx]; auto.
Qed.

(** A pixel is clear in the conjunction of masks exactly when it is clear
    in one of them. *)
Lemma pix_logical_and_all (ms : list image) :
  forall (mask : image) (q : point),
    pix (fold_left logical_and ms mask) q = 0 <->
    pix mask q = 0 \/ exists m, In m ms /\ pix m q = 0.
Proof.
  induction ms as [|m ms IH]; intros mask q; simpl.
  - split; [auto|intros [H|(m & [] & _)]; exact H].
  - rewrite IH. unfold logical_and at 1. simpl.
    destruct (pix mask q =? 0) eqn:E1; destruct (pix m q =? 0) eqn:E2; simpl;
      rewrite ?Z.eqb_eq, ?Z.eqb_neq in *; split.
    all: try (intros _; left; exact E1).
    all: try (intros _; right; exists m; split; [now left|exact E2]).
    all: try (intros [H|(m' & Hin & Hm')]; [left; reflexivity|left; reflexivity]).
    all: try (intros [H|(m' & Hin & Hm')]; [discriminate|right; exists m'; auto]).
    all: try (intros [H|(m' & [<-|Hin] & Hm')]; [contradiction|contradiction|right; exists m'; auto]).
Qed.

Lemma img_combine_inv (mask_list : list Z) (cm cm' : ConquestMap)
      (lo : Z) (el : list Z) (mask : image) :
  _img_combine_masks mask_list cm = (Ok (Some (lo, el, mask)), cm') ->
  cm' = cm /\ (2 <= length mask_list)%nat /\
  exists base ms,
    blank_png cm = Some base /\
    Forall2 (fun k m => mask_file k cm = Some m) mask_list ms /\
    fold_left track mask_list (None, []) = (Some lo, el) /\
    mask = fold_left logical_and ms (Image_new (width base, height base) 1).
Proof.
  unfold _img_combine_masks.
  destruct (length mask_list <? 2)%nat eqn:Hlen; [discriminate|].
  apply Nat.ltb_ge in Hlen. unfold bind at 1, get.
  destruct (blank_png cm) as [base|]; [|discriminate].
  destruct (masks_dir cm) as [d|] eqn:Hd; [|discriminate].
  unfold bind.
  destruct (for_fold mask_list combine_step
              (None, [], Image_new (width base, height base) 1) cm)
    as [[[[lo1 el1] mask1]|e] cm1] eqn:Hloop; [|discriminate].
  apply combine_loop_spec in Hloop as (-> & ms & Hms & Hr).
  destruct lo1 as [l1|]; [|discriminate].
  unfold ret. intros [= <- <- <- <-]. split; [reflexivity|]. split; [exact Hlen|].
  exists base, ms. injection Hr as Ht Hm. auto.
Qed.

Lemma img_combine_total (mask_list : list Z) (cm : ConquestMap)
      (base : image) (d : directory) (ms : list image) (lo : Z) (el : list Z) :
  (2 <= length mask_list)%nat ->
  blank_png cm = Some base -> masks_dir cm = Some d ->
  Forall2 (fun k m => mask_file k cm = Some m) mask_list ms ->
  fold_left track mask_list (None, []) = (Some lo, el) ->
  _img_combine_masks mask_list cm
  = (Ok (Some (lo, el,
               fold_left logical_and ms (Image_new (width base, height base) 1))), cm).
Proof.
  intros Hlen Hb Hd Hms Ht. unfold _img_combine_masks.
  apply Nat.ltb_ge in Hlen. rewrite Hlen. unfold bind at 1, get. rewrite Hb, Hd.
  unfold bind. rewrite (combine_loop_total mask_list None [] _ cm ms Hms), Ht.
  reflexivity.
Qed.

(** Every normal result of the computation satisfies [P]. *)
Definition returns_only {S A} (P : A -> Prop) (m : M S A) : Prop :=
  forall s a s', m s = (Ok a, s') -> P a.

Lemma returns_bind {S A B} (P : B -> Prop) (m : M S A) (k : A -> M S B) :
  (forall a, returns_only P (k a)) -> returns_only P (bind m k).
Proof.
  intros Hk s b s'. unfold bind.
  destruct (m s) as [[a|e] s1]; [apply Hk|discriminate].
Qed.

Lemma returns_ret {S A} (P : A -> Prop) (a : A) : P a -> returns_only P (@ret S A a).
Proof. intros H s b s' [= <- _]. exact H. Qed.

(** The rest of [combine_masks] after the mask is saved: it keeps the
    files and can only return the lowest key. *)
Definition merge_rest (lowest : Z) (eliminated : list Z)
           (elim_regions : list Region) (lowest_region : Region)
  : M ConquestMap (option Z) :=
  (c <- lift (get_center (weighted_points elim_regions lowest_region)) ;;
   cm <- get ;;
   set_regions
     (dict_set Z.eq_dec lowest
        (mkRegion c
           (weight lowest_region + zsum (map weight elim_regions))
           (data lowest_region))
        (regions cm)) ;;
   for_each eliminated pop_region ;;
   refresh_region_max eliminated ;;
   _ <- create_number_mask ;;
   save_data ;;
   ret (Some lowest))%monad.

Lemma merge_into_eq (lowest : Z) (eliminated : list Z) (mask : image)
      (elim_regions : list Region) (lowest_region : Region) :
  merge_into lowest eliminated mask elim_regions lowest_region
  = bind (save_mask lowest mask)
         (fun _ => merge_rest lowest eliminated elim_regions lowest_region).
Proof. reflexivity. Qed.

Lemma merge_rest_keeps (lowest : Z) (eliminated : list Z)
      (elim_regions : list Region) (lowest_region : Region) :
  keeps_files (merge_rest lowest eliminated elim_regions lowest_region).
Proof.
  unfold merge_rest.
  repeat first
    [ apply keeps_lift | apply keeps_get | apply keeps_set_regions
    | apply keeps_pop_region | apply keeps_refresh_region_max
    | apply keeps_create_number_mask | apply keeps_save_data | apply keeps_ret
    | apply keeps_for_each; intro
    | apply keeps_bind; [|intro] ].
Qed.

Lemma merge_rest_returns (lowest : Z) (eliminated : list Z)
      (elim_regions : list Region) (lowest_region : Region) :
  returns_only (fun r => r = Some lowest)
    (merge_rest lowest eliminated elim_regions lowest_region).
Proof.
  unfold merge_rest.
  repeat (apply returns_bind; intro). now apply returns_ret.
Qed.

Lemma lookup_merged_keeps (lowest : Z) (eliminated : list Z) :
  keeps_files (lookup_merged lowest eliminated).
Proof.
  unfold lookup_merged. apply keeps_try_except; [|apply keeps_ret].
  repeat first [ apply keeps_lift | apply keeps_get | apply keeps_ret
               | apply keeps_bind; [|intro] ].
Qed.

Lemma save_mask_eq (k : Z) (mask : image) (cm : ConquestMap) :
  save_mask k mask cm =
  match masks_dir cm with
  | Some d => (Ok tt, with_masks_dir (dict_set stem_eq_dec (Num k) mask d) cm)
  | None => (Raise FileNotFoundError, cm)
  end.
Proof.
  unfold save_mask, bind, listdir. destruct (masks_dir cm); reflexivity.
Qed.

(** A merge that returns a non-zero key has combined the masks of its keys
    and written the result under that key. *)
Lemma combine_masks_files (mask_list : list Z) (cm cm' : ConquestMap) (lowest : Z) :
  combine_masks mask_list cm = (Ok (Some lowest), cm') -> lowest <> 0 ->
  exists el mask,
    _img_combine_masks mask_list cm = (Ok (Some (lowest, el, mask)), cm) /\
    mask_file lowest cm' = Some mask.
Proof.
  unfold combine_masks. unfold bind at 1.
  destruct (_img_combine_masks mask_list cm) as [[[[[lo el] mask]|]|e] cm0] eqn:Himg;
    [|intros [= ? ?]; discriminate|discriminate].
  destruct (img_combine_inv _ _ _ _ _ _ Himg) as (-> & _).
  destruct (lo =? 0) eqn:Hlo.
  { unfold ret. intros [= <- _] Hne. apply Z.eqb_eq in Hlo. contradiction. }
  unfold bind at 1.
  destruct (lookup_merged lo el cm) as [[[[er lr]|]|e] cm1] eqn:Hlook;
    [|intros [= ? ?]; discriminate|discriminate].
  assert (Hk1 := lookup_merged_keeps lo el cm). rewrite Hlook in Hk1.
  simpl in Hk1. destruct Hk1 as [Hd1 _].
  rewrite merge_into_eq. unfold bind at 1. rewrite save_mask_eq.
  destruct (masks_dir cm1) as [d|] eqn:Hd; [|discriminate].
  intros Hrest Hne.
  assert (Hret := merge_rest_returns lo el er lr _ _ _ Hrest). simpl in Hret.
  injection Hret as ->.
  assert (Hk2 := merge_rest_keeps lo el er lr
                   (with_masks_dir (dict_set stem_eq_dec (Num lo) mask d) cm1)).
  rewrite Hrest in Hk2. simpl in Hk2. destruct Hk2 as [Hd2 _].
  exists el, mask. split; [reflexivity|].
  unfold mask_file. rewrite Hd2. apply dict_get_set_eq.
Qed.

Lemma Forall2_in_right {A B} (R : A -> B -> Prop) (l : list A) (l' : list B) (b : B) :
  Forall2 R l l' -> In b l' -> exists a, In a l /\ R a b.
Proof.
  induction 1 as [|a0 b0 l l' H0 _ IH]; [intros []|].
  intros [<-|Hin]; [exists a0; split; [now left|exact H0]|].
  destruct (IH Hin) as (a & Ha & HR). exists a. split; [now right|exact HR].
Qed.

Lemma Forall2_in_left {A B} (R : A -> B -> Prop) (l : list A) (l' : list B) (a : A) :
  Forall2 R l l' -> In a l -> exists b, In b l' /\ R a b.
Proof.
  induction 1 as [|a0 b0 l l' H0 _ IH]; [intros []|].
  intros [<-|Hin]; [exists b0; split; [now left|exact H0]|].
  destruct (IH Hin) as (b & Hb & HR). exists b. split; [now right|exact HR].
Qed.

(** C1 (amended).  The mask that a merge writes for the surviving key is
    the union of the input masks at the membership level: a pixel of the
    merged mask is filled (value [0]) if and only if it is filled in the
    mask of at least one of the merged keys. *)
Theorem combine_masks_union (mask_list : list Z) (cm cm' : ConquestMap) (lowest : Z) :
  combine_masks mask_list cm = (Ok (Some lowest), cm') -> lowest <> 0 ->
  exists merged,
    mask_file lowest cm' = Some merged /\
    forall q, in_image merged q = true ->
      (pix merged q = 0 <->
       exists k m, In k mask_list /\ mask_file k cm = Some m /\ pix m q = 0).
Proof.
  intros Hrun Hne.
  destruct (combine_masks_files _ _ _ _ Hrun Hne) as (el & mask & Himg & Hfile).
  destruct (img_combine_inv _ _ _ _ _ _ Himg) as (_ & _ & base & ms & _ & Hms & _ & ->).
  eexists. split; [exact Hfile|]. intros q _.
  rewrite pix_logical_and_all. simpl. split.
  - intros [H|(m & Hin & Hm)]; [discriminate|].
    destruct (Forall2_in_right _ _ _ m Hms Hin) as (k & Hk & Hfile').
    exists k, m. auto.
  - intros (k & m & Hk & Hfile' & Hm). right.
    destruct (Forall2_in_left _ _ _ k Hms Hk) as (m' & Hin & Hfile'').
    exists m'. split; [exact Hin|]. congruence.
Qed.

(** A registry of two one-pixel regions on a 2 by 1 map: region [1] owns
    the pixel [(0, 0)] and region [2] the pixel [(1, 0)]. *)
Definition column_mask (x : Z) : image :=
  mkImage 2 1 (fun c => if fst c =? x then 0 else 255).

Definition merge_map : ConquestMap :=
  mkMap None None (Some 2)
        [(1, mkRegion (0, 0)%Q 1 []); (2, mkRegion (1, 0)%Q 1 [])]
        (Some (mkImage 2 1 (fun _ => 255)))
        (Some [(Num 1, column_mask 0); (Num 2, column_mask 1)])
        None.

Lemma combine_masks_union_witness :
  combine_masks [1; 2] merge_map
  = (Ok (Some 1), snd (combine_masks [1; 2] merge_map)) /\
  exists merged,
    mask_file 1 (snd (combine_masks [1; 2] merge_map)) = Some merged /\
    forall q, in_image merged q = true ->
      (pix merged q = 0 <->
       exists k m, In k [1; 2] /\ mask_file k merge_map = Some m /\ pix m q = 0).
Proof.
  split; [vm_compute; reflexivity|].
  apply (combine_masks_union [1; 2] merge_map); [vm_compute; reflexivity|lia].
Defined.

(** C1 (as stated) fails: merging the regions [1] and [2] of [merge_map]
    writes a mask for the surviving key [1] in which the pixel [(0, 0)] is
    filled, although that pixel is not filled in the mask of region [2]. *)
Lemma merged_mask_is_not_the_intersection :
  fst (combine_masks [1; 2] merge_map) = Ok (Some 1) /\
  option_map (fun m => pix m (0, 0))
             (mask_file 1 (snd (combine_masks [1; 2] merge_map))) = Some 0 /\
  option_map (fun m => pix m (0, 0)) (mask_file 2 merge_map) = Some 255.
Proof. vm_compute. repeat split; reflexivity. Qed.

(** ** Merging regions: key, weight and centre *)

Lemma Forall2_exists {A B} (R : A -> B -> Prop) (l : list A) :
  (forall a, In a l -> exists b, R a b) -> exists l', Forall2 R l l'.
Proof.
  induction l as [|a l IH]; intros H; [exists []; constructor|].
  destruct (H a (or_introl eq_refl)) as (b & Hb).
  destruct IH as (l' & Hl'); [intros x Hx; apply H; now right|].
  exists (b :: l'). now constructor.
Qed.

Lemma map_result_items (rs : dict Z Region) (keys : list Z) (l : list Region) :
  Forall2 (fun k r => dict_get Z.eq_dec k rs = Some r) keys l ->
  map_result (fun n => dict_item Z.eq_dec n rs) keys = Ok l.
Proof.
  induction 1 as [|k r keys l Hk _ IH]; [reflexivity|].
  simpl. unfold dict_item at 1. now rewrite Hk, IH.
Qed.

Lemma lookup_merged_total (cm : ConquestMap) (lowest : Z) (eliminated : list Z)
      (ers : list Region) (lr : Region) :
  Forall2 (fun k r => dict_get Z.eq_dec k (regions cm) = Some r) eliminated ers ->
  dict_get Z.eq_dec lowest (regions cm) = Some lr ->
  lookup_merged lowest eliminated cm = (Ok (Some (ers, lr)), cm).
Proof.
  intros Hers Hlr. unfold lookup_merged, try_except, bind, get, lift, ret.
  rewrite (map_result_items _ _ _ Hers). unfold dict_item. now rewrite Hlr.
Qed.

Lemma keys_fold_del (el : list Z) :
  forall (rs : dict Z Region) (k : Z),
    In k (dict_keys (fold_left (fun d x => dict_del Z.eq_dec x d) el rs)) <->
    ~ In k el /\ In k (dict_keys rs).
Proof.
  induction el as [|x el IH]; intros rs k; simpl; [tauto|].
  rewrite IH, dict_keys_del. split.
  - intros (Hn & Hne & Hin). split; [|exact Hin]. intros [E|H]; [congruence|auto].
  - intros (Hn & Hin). split; [intros H; apply Hn; now right|].
    split; [|exact Hin]. intros E. apply Hn. now left.
Qed.

Lemma get_fold_del (el : list Z) :
  forall (rs : dict Z Region) (k : Z),
    ~ In k el ->
    dict_get Z.eq_dec k (fold_left (fun d x => dict_del Z.eq_dec x d) el rs)
    = dict_get Z.eq_dec k rs.
Proof.
  induction el as [|x el IH]; intros rs k Hn; simpl; [reflexivity|].
  rewrite IH; [|intros H; apply Hn; now right].
  apply dict_get_del_ne. intros E. apply Hn. now left.
Qed.

Lemma pop_region_total (k : Z) (cm : ConquestMap) :
  In k (dict_keys (regions cm)) ->
  pop_region k cm = (Ok tt, with_regions (dict_del Z.eq_dec k (regions cm)) cm).
Proof.
  intros Hin. apply (dict_get_in Z.eq_dec) in Hin as (r & Hr).
  unfold pop_region, bind, get, lift, dict_pop. rewrite Hr. reflexivity.
Qed.

Lemma pops_total (el : list Z) :
  forall cm : ConquestMap,
    NoDup el -> (forall k, In k el -> In k (dict_keys (regions cm))) ->
    for_each el pop_region cm
    = (Ok tt,
       with_regions (fold_left (fun d x => dict_del Z.eq_dec x d) el (regions cm)) cm).
Proof.
  induction el as [|x el IH]; intros cm Hnd Hin.
  - destruct cm. reflexivity.
  - inversion Hnd as [|x' el' Hx Hnd']; subst. cbn [for_each fold_left].
    rewrite (bind_ok _ _ _ _ _ (pop_region_total x cm (Hin x (or_introl eq_refl)))).
    rewrite IH; [reflexivity|exact Hnd'|].
    intros k Hk. simpl. apply dict_keys_del. split; [|apply Hin; now right].
    intros ->. contradiction.
Qed.

Lemma refresh_region_max_total (keys : list Z) (cm : ConquestMap) :
  dict_keys (regions cm) <> [] ->
  exists m, refresh_region_max keys cm = (Ok tt, with_region_max m cm).
Proof.
  intros Hne. unfold refresh_region_max, bind, get.
  destruct (region_max_in keys cm).
  - unfold lift, py_max. destruct (dict_keys (regions cm)); [contradiction|].
    eexists. reflexivity.
  - exists (region_max cm). destruct cm. reflexivity.
Qed.

Lemma get_center_ok (points : list (Q * Q)) :
  points <> [] ->
  get_center points =
  Ok ((qsum (map fst points) / inject_Z (Z.of_nat (length points)))%Q,
      (qsum (map snd points) / inject_Z (Z.of_nat (length points)))%Q).
Proof. destruct points; [contradiction|reflexivity]. Qed.

(** The region stored at a key of the registry. *)
Definition region_at (cm : ConquestMap) (k : Z) : Region :=
  match dict_get Z.eq_dec k (regions cm) with
  | Some r => r
  | None => mkRegion (0, 0)%Q 0 []
  end.

(** The region that a merge leaves at the surviving key. *)
Definition merged_region (ers : list Region) (lr : Region) : Region :=
  mkRegion
    ((qsum (map fst (weighted_points ers lr))
      / inject_Z (Z.of_nat (length (weighted_points ers lr))))%Q,
     (qsum (map snd (weighted_points ers lr))
      / inject_Z (Z.of_nat (length (weighted_points ers lr))))%Q)
    (weight lr + zsum (map weight ers))
    (data lr).

(** A merge of distinct, positive keys that are all in the registry, with
    their mask files in place and positive weights, runs to its end. *)
Lemma combine_masks_run (mask_list : list Z) (cm : ConquestMap)
      (base : image) (d : directory) :
  (2 <= length mask_list)%nat ->
  NoDup mask_list ->
  (forall k, In k mask_list -> 0 < k) ->
  (forall k, In k mask_list -> In k (dict_keys (regions cm))) ->
  (forall k, In k mask_list -> 0 < weight (region_at cm k)) ->
  blank_png cm = Some base -> masks_dir cm = Some d ->
  (forall k, In k mask_list -> exists m, mask_file k cm = Some m) ->
  exists lo el cm',
    combine_masks mask_list cm = (Ok (Some lo), cm') /\
    Permutation (lo :: el) mask_list /\
    (forall k, In k mask_list -> lo <= k) /\
    regions cm' =
      fold_left (fun rs x => dict_del Z.eq_dec x rs) el
        (dict_set Z.eq_dec lo
           (merged_region (map (region_at cm) el) (region_at cm lo))
           (regions cm)).
Proof.
  intros Hlen Hnd Hpos Hin Hw Hb Hd Hfiles.
  destruct mask_list as [|k0 l]; [simpl in Hlen; lia|].
  destruct (track_first k0 l) as (lo & el & Ht & Hp & Hlo & Hmin).
  destruct (Forall2_exists (fun k m => mask_file k cm = Some m) (k0 :: l) Hfiles)
    as (ms & Hms).
  assert (Hnd' : NoDup (lo :: el)) by (eapply Permutation_NoDup; [symmetry|]; eauto).
  assert (Hel : forall k, In k el -> In k (k0 :: l)).
  { intros k Hk. apply (Permutation_in k Hp). now right. }
  assert (Hat : forall k, In k (k0 :: l) ->
                  dict_get Z.eq_dec k (regions cm) = Some (region_at cm k)).
  { intros k Hk. unfold region_at.
    destruct (proj1 (dict_get_in Z.eq_dec k (regions cm)) (Hin k Hk)) as (r & ->).
    reflexivity. }
  assert (Hers : Forall2 (fun k r => dict_get Z.eq_dec k (regions cm) = Some r)
                         el (map (region_at cm) el)).
  { clear - Hel Hat. induction el as [|x el IH]; [constructor|].
    simpl. constructor; [apply Hat, Hel; now left|].
    apply IH. intros k Hk. apply Hel. now right. }
  exists lo, el. unfold combine_masks.
  rewrite (bind_ok _ _ _ _ _ (img_combine_total _ cm base d ms lo el Hlen Hb Hd Hms Ht)).
  assert (Hlo0 : (lo =? 0) = false) by (apply Z.eqb_neq; specialize (Hpos lo Hlo); lia).
  rewrite Hlo0.
  rewrite (bind_ok _ _ _ _ _ (lookup_merged_total cm lo el _ _ Hers (Hat lo Hlo))).
  rewrite merge_into_eq.
  assert (Hsave := save_mask_eq lo
            (fold_left logical_and ms (Image_new (width base, height base) 1)) cm).
  rewrite Hd in Hsave. rewrite (bind_ok _ _ _ _ _ Hsave). clear Hsave.
  set (cm1 := with_masks_dir _ cm). unfold merge_rest.
  assert (Hpts : weighted_points (map (region_at cm) el) (region_at cm lo) <> []).
  { unfold weighted_points. specialize (Hw lo Hlo).
    destruct (Z.to_nat (weight (region_at cm lo))) as [|n] eqn:En; [lia|].
    simpl. intros E. apply app_eq_nil in E as [_ E]. discriminate. }
  unfold lift at 1. unfold bind at 1. rewrite (get_center_ok _ Hpts).
  unfold bind at 1, get. unfold bind at 1, set_regions.
  fold (merged_region (map (region_at cm) el) (region_at cm lo)).
  set (r' := merged_region _ _).
  set (cm2 := with_regions _ cm1).
  assert (Hlo_el : ~ In lo el) by (inversion Hnd'; assumption).
  assert (Hnd_el : NoDup el) by (inversion Hnd'; assumption).
  assert (Hin2 : forall k, In k el -> In k (dict_keys (regions cm2))).
  { intros k Hk. apply (dict_get_in Z.eq_dec). simpl.
    rewrite dict_get_set_ne; [|intros ->; contradiction].
    rewrite (Hat k (Hel k Hk)). eauto. }
  rewrite (bind_ok _ _ _ _ _ (pops_total el cm2 Hnd_el Hin2)).
  set (cm3 := with_regions _ cm2).
  assert (Hne3 : dict_keys (regions cm3) <> []).
  { assert (H : In lo (dict_keys (regions cm3))).
    { simpl. apply keys_fold_del. split; [exact Hlo_el|].
      apply (dict_get_in Z.eq_dec). rewrite dict_get_set_eq. eauto. }
    intros E. rewrite E in H. exact H. }
  destruct (refresh_region_max_total el cm3 Hne3) as (m & Hm).
  rewrite (bind_ok _ _ _ _ _ Hm).
  assert (Hnum : create_number_mask (with_region_max m cm3)
                 = (Ok true, with_region_max m cm3)).
  { unfold create_number_mask. simpl. now rewrite Hb. }
  rewrite (bind_ok _ _ _ _ _ Hnum).
  eexists. split; [reflexivity|]. split; [exact Hp|]. split; [exact Hmin|].
  reflexivity.
Qed.


(** *** Sums *)

Lemma fold_add_init (l : list Z) (a : Z) :
  fold_left Z.add l a = a + fold_left Z.add l 0.
Proof.
  revert a. induction l as [|x l IH]; intros a; simpl; [lia|].
  rewrite (IH (a + x)), (IH x). lia.
Qed.

Lemma zsum_cons (a : Z) (l : list Z) : zsum (a :: l) = a + zsum l.
Proof. unfold zsum. simpl. apply fold_add_init. Qed.

Lemma zsum_app (l l' : list Z) : zsum (l ++ l') = zsum l + zsum l'.
Proof.
  induction l as [|a l IH]; simpl; [reflexivity|].
  rewrite !zsum_cons, IH. lia.
Qed.

Lemma zsum_perm (l l' : list Z) : Permutation l l' -> zsum l = zsum l'.
Proof.
  induction 1 as [|x l l' _ IH|x y l|l l' l'' _ IH1 _ IH2];
    rewrite ?zsum_cons; lia.
Qed.

Lemma fold_qplus_init (l : list Q) (a : Q) :
  (fold_left Qplus l a == a + fold_left Qplus l 0)%Q.
Proof.
  revert a. induction l as [|x l IH]; intros a; simpl; [ring|].
  rewrite (IH (a + x)%Q), (IH (0 + x)%Q). ring.
Qed.

Lemma qsum_cons (a : Q) (l : list Q) : (qsum (a :: l) == a + qsum l)%Q.
Proof.
  unfold qsum. simpl. rewrite fold_qplus_init. ring.
Qed.

Lemma qsum_app (l l' : list Q) : (qsum (l ++ l') == qsum l + qsum l')%Q.
Proof.
  induction l as [|a l IH]; simpl.
  - unfold qsum at 2. simpl. ring.
  - rewrite !qsum_cons, IH. ring.
Qed.

Lemma qsum_perm (l l' : list Q) : Permutation l l' -> (qsum l == qsum l')%Q.
Proof.
  induction 1 as [|x l l' _ IH|x y l|l l' l'' _ IH1 _ IH2].
  - reflexivity.
  - now rewrite !qsum_cons, IH.
  - rewrite !qsum_cons. ring.
  - now rewrite IH1.
Qed.

Lemma qsum_repeat (x : Q) (n : nat) :
  (qsum (repeat x n) == inject_Z (Z.of_nat n) * x)%Q.
Proof.
  induction n as [|n IH].
  - simpl. unfold qsum. simpl. ring.
  - cbn [repeat]. rewrite qsum_cons, IH, Nat2Z.inj_succ.
    unfold Z.succ. rewrite inject_Z_plus. ring.
Qed.

(** The points of one region in [weighted_points]. *)
Definition copies (r : Region) : list (Q * Q) :=
  repeat (center r) (Z.to_nat (weight r)).

Lemma weighted_points_eq (ers : list Region) (lr : Region) :
  weighted_points ers lr = flat_map copies (ers ++ [lr]).
Proof.
  unfold weighted_points. rewrite flat_map_app. simpl. now rewrite app_nil_r.
Qed.

Lemma length_copies (rs : list Region) :
  Forall (fun r => 0 <= weight r) rs ->
  Z.of_nat (length (flat_map copies rs)) = zsum (map weight rs).
Proof.
  induction 1 as [|r rs Hr _ IH]; [reflexivity|].
  simpl. rewrite length_app, Nat2Z.inj_add, IH, zsum_cons.
  unfold copies. rewrite repeat_length. lia.
Qed.

Lemma qsum_copies (proj : Q * Q -> Q) (rs : list Region) :
  Forall (fun r => 0 <= weight r) rs ->
  (qsum (map proj (flat_map copies rs))
   == qsum (map (fun r => inject_Z (weight r) * proj (center r)) rs))%Q.
Proof.
  induction 1 as [|r rs Hr _ IH]; [reflexivity|].
  simpl. rewrite map_app, qsum_app, qsum_cons, IH.
  unfold copies. rewrite map_repeat, qsum_repeat, Z2Nat.id by exact Hr.
  reflexivity.
Qed.

(** The weighted mean of one coordinate over the regions of [keys]. *)
Definition weighted_mean (cm : ConquestMap) (proj : Q * Q -> Q) (keys : list Z) : Q :=
  (qsum (map (fun k => inject_Z (weight (region_at cm k))
                       * proj (center (region_at cm k))) keys)
   / inject_Z (zsum (map (fun k => weight (region_at cm k)) keys)))%Q.

Lemma merged_region_mean (cm : ConquestMap) (proj : Q * Q -> Q)
      (lo : Z) (el keys : list Z) :
  Permutation (lo :: el) keys ->
  (forall k, In k keys -> 0 <= weight (region_at cm k)) ->
  (qsum (map proj (weighted_points (map (region_at cm) el) (region_at cm lo)))
   / inject_Z (Z.of_nat (length (weighted_points (map (region_at cm) el)
                                                 (region_at cm lo))))
   == weighted_mean cm proj keys)%Q.
Proof.
  intros Hp Hw. unfold weighted_mean.
  assert (Hp' : Permutation (el ++ [lo]) keys).
  { rewrite <- Hp. symmetry. apply Permutation_cons_append. }
  assert (Hall : Forall (fun r => 0 <= weight r) (map (region_at cm) (el ++ [lo]))).
  { apply Forall_forall. intros r Hr. apply in_map_iff in Hr as (k & <- & Hk).
    apply Hw. now apply (Permutation_in k Hp'). }
  rewrite weighted_points_eq.
  change [region_at cm lo] with (map (region_at cm) [lo]). rewrite <- map_app.
  rewrite (length_copies _ Hall), (qsum_copies proj _ Hall), !map_map.
  rewrite (zsum_perm _ _ (Permutation_map (fun k => weight (region_at cm k)) Hp')).
  rewrite (qsum_perm _ _
             (Permutation_map
                (fun k => (inject_Z (weight (region_at cm k))
                           * proj (center (region_at cm k)))%Q) Hp')).
  reflexivity.
Qed.

(** A merge of distinct keys that are all in the registry (with the
    data model's invariants: positive keys and weights, a mask file per key,
    the base image in place) returns the lowest key; every other input key
    is removed from the registry and every key outside the list keeps its
    region; the surviving region's weight is the sum of the input weights
    and its centre is the weighted mean of the input centres, each centre
    counted once per unit of its weight.  The centres are exact rationals
    here; the code averages binary64 floats, so its centre is this one up
    to rounding. *)
Theorem combine_masks_merges (mask_list : list Z) (cm : ConquestMap)
        (base : image) (d : directory) :
  (2 <= length mask_list)%nat ->
  NoDup mask_list ->
  (forall k, In k mask_list -> 0 < k) ->
  (forall k, In k mask_list -> In k (dict_keys (regions cm))) ->
  (forall k, In k mask_list -> 0 < weight (region_at cm k)) ->
  blank_png cm = Some base -> masks_dir cm = Some d ->
  (forall k, In k mask_list -> exists m, mask_file k cm = Some m) ->
  exists lo cm' r',
    combine_masks mask_list cm = (Ok (Some lo), cm') /\
    In lo mask_list /\ (forall k, In k mask_list -> lo <= k) /\
    (forall k, In k mask_list -> k <> lo -> ~ In k (dict_keys (regions cm'))) /\
    (forall k, ~ In k mask_list ->
               dict_get Z.eq_dec k (regions cm') = dict_get Z.eq_dec k (regions cm)) /\
    dict_get Z.eq_dec lo (regions cm') = Some r' /\
    weight r' = zsum (map (fun k => weight (region_at cm k)) mask_list) /\
    (fst (center r') == weighted_mean cm fst mask_list)%Q /\
    (snd (center r') == weighted_mean cm snd mask_list)%Q.
Proof.
  intros Hlen Hnd Hpos Hin Hw Hb Hd Hfiles.
  destruct (combine_masks_run mask_list cm base d Hlen Hnd Hpos Hin Hw Hb Hd Hfiles)
    as (lo & el & cm' & Hrun & Hp & Hmin & Hregs).
  assert (Hnd' : NoDup (lo :: el)) by (eapply Permutation_NoDup; [symmetry|]; eauto).
  assert (Hlo_el : ~ In lo el) by (inversion Hnd'; assumption).
  assert (Hw0 : forall k, In k mask_list -> 0 <= weight (region_at cm k)).
  { intros k Hk. specialize (Hw k Hk). lia. }
  exists lo, cm', (merged_region (map (region_at cm) el) (region_at cm lo)).
  split; [exact Hrun|]. split; [apply (Permutation_in lo Hp); now left|].
  split; [exact Hmin|]. rewrite Hregs. split; [|split; [|split; [|split; [|split]]]].
  - intros k Hk Hne Hkeys. apply keys_fold_del in Hkeys as [Hnot _]. apply Hnot.
    apply Permutation_sym in Hp. apply (Permutation_in k Hp) in Hk as [E|Hk];
      [congruence|exact Hk].
  - intros k Hk. rewrite get_fold_del.
    + apply dict_get_set_ne. intros E. apply Hk. rewrite <- E.
      apply (Permutation_in lo Hp). now left.
    + intros Hel. apply Hk, (Permutation_in k Hp). now right.
  - rewrite get_fold_del by exact Hlo_el. apply dict_get_set_eq.
  - simpl. rewrite map_map, <- zsum_cons.
    change (weight (region_at cm lo) :: map (fun k => weight (region_at cm k)) el)
      with (map (fun k => weight (region_at cm k)) (lo :: el)).
    apply zsum_perm, Permutation_map, Hp.
  - simpl. now apply merged_region_mean.
  - simpl. now apply merged_region_mean.
Qed.

(** A registry with the regions [2], [3] and [5] of a 3 by 1 map, of
    weights 1, 2 and 3. *)
Definition three_mask (x : Z) : image :=
  mkImage 3 1 (fun c => if fst c =? x then 0 else 255).

Definition three_map : ConquestMap :=
  mkMap None None (Some 5)
        [(2, mkRegion (0, 0)%Q 1 []); (3, mkRegion (1, 0)%Q 2 []);
         (5, mkRegion (2, 0)%Q 3 [])]
        (Some (mkImage 3 1 (fun _ => 255)))
        (Some [(Num 2, three_mask 0); (Num 3, three_mask 1); (Num 5, three_mask 2)])
        None.

Lemma combine_masks_merges_witness :
  NoDup [3; 5; 2] /\
  exists lo cm' r',
    combine_masks [3; 5; 2] three_map = (Ok (Some lo), cm') /\
    In lo [3; 5; 2] /\ (forall k, In k [3; 5; 2] -> lo <= k) /\
    (forall k, In k [3; 5; 2] -> k <> lo -> ~ In k (dict_keys (regions cm'))) /\
    (forall k, ~ In k [3; 5; 2] ->
               dict_get Z.eq_dec k (regions cm')
               = dict_get Z.eq_dec k (regions three_map)) /\
    dict_get Z.eq_dec lo (regions cm') = Some r' /\
    weight r' = zsum (map (fun k => weight (region_at three_map k)) [3; 5; 2]) /\
    Qeq (fst (center r')) (weighted_mean three_map fst [3; 5; 2]) /\
    Qeq (snd (center r')) (weighted_mean three_map snd [3; 5; 2]).
Proof.
  assert (Hnd : NoDup [3; 5; 2]).
  { repeat constructor; simpl; intuition lia. }
  split; [exact Hnd|].
  apply (combine_masks_merges [3; 5; 2] three_map
           (mkImage 3 1 (fun _ => 255))
           [(Num 2, three_mask 0); (Num 3, three_mask 1); (Num 5, three_mask 2)]).
  - simpl. lia.
  - exact Hnd.
  - intros k [<-|[<-|[<-|[]]]]; lia.
  - intros k [<-|[<-|[<-|[]]]]; simpl; auto.
  - intros k [<-|[<-|[<-|[]]]]; vm_compute; reflexivity.
  - reflexivity.
  - reflexivity.
  - intros k [<-|[<-|[<-|[]]]]; eexists; reflexivity.
Defined.

(** The merge of the keys [{3, 5, 2}]: key [2] survives with weight
    [1 + 2 + 3] and the centre [(0*1 + 1*2 + 2*3) / 6 = 4/3] on the x axis. *)
Example combine_masks_3_5_2 :
  fst (combine_masks [3; 5; 2] three_map) = Ok (Some 2) /\
  dict_keys (regions (snd (combine_masks [3; 5; 2] three_map))) = [2] /\
  weight (region_at (snd (combine_masks [3; 5; 2] three_map)) 2) = 6 /\
  Qeq (fst (center (region_at (snd (combine_masks [3; 5; 2] three_map)) 2))) (4 # 3).
Proof. vm_compute. repeat split; reflexivity. Qed.

(** C6.  The key list of [combine_masks] is a list, and nothing removes a
    repeated key from it.  On the registry [{2, 3, 5}] the merge of
    [[2, 3, 2]], whose keys are all present, returns the lowest key [2] as
    the surviving key, but the second [2] was appended to the eliminated
    keys and is popped with [3]: the registry is left with the key [5]
    alone, and the merged mask written to [2.png] belongs to no region.
    The merge of [[2, 3]] on the same registry keeps the key [2], with the
    weight [1 + 2]. *)
Theorem combine_masks_pops_survivor :
  fst (combine_masks [2; 3; 2] three_map) = Ok (Some 2) /\
  dict_keys (regions (snd (combine_masks [2; 3; 2] three_map))) = [5] /\
  dict_get Z.eq_dec 2 (regions (snd (combine_masks [2; 3; 2] three_map))) = None /\
  option_map (fun m => (pix m (0, 0), pix m (1, 0), pix m (2, 0)))
             (mask_file 2 (snd (combine_masks [2; 3; 2] three_map)))
  = Some (0, 0, 255) /\
  fst (combine_masks [2; 3] three_map) = Ok (Some 2) /\
  dict_keys (regions (snd (combine_masks [2; 3] three_map))) = [2; 5] /\
  weight (region_at (snd (combine_masks [2; 3] three_map)) 2) = 3.
Proof. vm_compute. repeat split; reflexivity. Qed.

(** ** [delete_masks] *)

(** A key list naming an absent key makes the loop of [delete_masks]
    raise [KeyError]; the keys popped before it are gone, the other
    attributes and the files are untouched. *)
Lemma pops_absent_key (mask_list : list Z) :
  forall cm : ConquestMap,
    (exists k, In k mask_list /\ ~ In k (dict_keys (regions cm))) ->
    exists rs,
      for_each mask_list pop_region cm = (Raise KeyError, with_regions rs cm) /\
      forall k, In k (dict_keys rs) -> In k (dict_keys (regions cm)).
Proof.
  induction mask_list as [|x l IH]; intros cm (k & Hk & Habs); [contradiction|].
  cbn [for_each]. destruct (dict_get Z.eq_dec x (regions cm)) as [r|] eqn:Hx.
  - assert (Hin : In x (dict_keys (regions cm))) by (apply (dict_get_in Z.eq_dec); eauto).
    rewrite (bind_ok _ _ _ _ _ (pop_region_total x cm Hin)).
    destruct (IH (with_regions (dict_del Z.eq_dec x (regions cm)) cm)) as (rs & Hrs & Hsub).
    { exists k. destruct Hk as [->|Hk]; [contradiction|]. split; [exact Hk|].
      simpl. rewrite dict_keys_del. tauto. }
    exists rs. split; [exact Hrs|]. intros y Hy. apply Hsub in Hy. simpl in Hy.
    apply dict_keys_del in Hy. tauto.
  - exists (regions cm). split; [|auto].
    unfold bind, pop_region, bind, get, lift, dict_pop. rewrite Hx.
    destruct cm. reflexivity.
Qed.

(** X4.  With an absent key in the list, [delete_masks] returns [False];
    [region_max], the files and [data.json] are as before, and no key is
    added to the registry. *)
Lemma delete_masks_absent_key (mask_list : list Z) (cm : ConquestMap) :
  (exists k, In k mask_list /\ ~ In k (dict_keys (regions cm))) ->
  exists rs,
    delete_masks mask_list cm = (Ok None, with_regions rs cm) /\
    forall k, In k (dict_keys rs) -> In k (dict_keys (regions cm)).
Proof.
  intros H. destruct (pops_absent_key mask_list cm H) as (rs & Hrs & Hsub).
  exists rs. split; [|exact Hsub].
  unfold delete_masks, bind at 1, try_except, bind at 1. now rewrite Hrs.
Qed.

(** C4.  On the registry [{1, 2}] of [merge_map], [delete_masks([1, 3])]
    names the absent key [3]: it returns [False], yet key [1] has been
    removed from the registry ([region_max] and [data.json] are as
    before). *)
Theorem delete_masks_half_applied :
  dict_get Z.eq_dec 3 (regions merge_map) = None /\
  fst (delete_masks [1; 3] merge_map) = Ok None /\
  dict_keys (regions merge_map) = [1; 2] /\
  dict_keys (regions (snd (delete_masks [1; 3] merge_map))) = [2] /\
  region_max (snd (delete_masks [1; 3] merge_map)) = region_max merge_map /\
  data_json (snd (delete_masks [1; 3] merge_map)) = data_json merge_map.
Proof. vm_compute. repeat split; reflexivity. Qed.

(** ** Exceptions that leave the operations *)

(** A 5 by 5 white map. *)
Definition small_map : ConquestMap :=
  mkMap None None None [] (Some (mkImage 5 5 (fun _ => 255))) None None.

(** The registry of [merge_map] with the mask file of region [2] missing. *)
Definition missing_mask_map : ConquestMap :=
  mkMap None None (Some 2) (regions merge_map) (blank_png merge_map)
        (Some [(Num 1, column_mask 0)]) None.

(** C3.  Three calls that raise out of the operation: the segmentation of
    a 5 by 5 base image ([ValueError], from [range] with a zero step in
    [chunker]); a merge naming a key whose mask file is absent
    ([FileNotFoundError], from [Image.open]); and the deletion of every
    region of a registry whose [region_max] is one of the keys
    ([ValueError], from [max] of no key). *)
Theorem operations_raise :
  fst (execute default_regioner small_map) = Raise ValueError /\
  fst (generate_masks small_map) = Raise ValueError /\
  fst (combine_masks [1; 2] missing_mask_map) = Raise FileNotFoundError /\
  fst (delete_masks [1; 2] merge_map) = Raise ValueError.
Proof. vm_compute. repeat split; reflexivity. Qed.

(** ** Sorting *)

Lemma insert_sorted_perm {A} (leb : A -> A -> bool) (a : A) (l : list A) :
  Permutation (insert_sorted leb a l) (a :: l).
Proof.
  induction l as [|b l IH]; simpl; [reflexivity|].
  destruct (leb a b); [reflexivity|].
  rewrite IH. apply perm_swap.
Qed.

Lemma sort_with_perm {A} (leb : A -> A -> bool) (l : list A) :
  Permutation (sort_with leb l) l.
Proof.
  induction l as [|a l IH]; simpl; [reflexivity|].
  rewrite insert_sorted_perm. now apply perm_skip.
Qed.

Lemma insert_sorted_sorted {A} (key : A -> Z) (a : A) (l : list A) :
  StronglySorted (fun x y => key x <= key y) l ->
  StronglySorted (fun x y => key x <= key y)
                 (insert_sorted (fun x y => key x <=? key y) a l).
Proof.
  induction 1 as [|b l Hl IH Hb]; simpl; [repeat constructor|].
  destruct (key a <=? key b) eqn:E.
  - apply Z.leb_le in E. constructor; [now constructor|].
    constructor; [exact E|]. rewrite Forall_forall in *. intros x Hx.
    specialize (Hb x Hx). lia.
  - apply Z.leb_gt in E. constructor; [exact IH|].
    rewrite Forall_forall in *. intros x Hx.
    apply (Permutation_in x (insert_sorted_perm _ a l)) in Hx as [<-|Hx]; [lia|auto].
Qed.

(** [sort_by] returns its argument rearranged in increasing key order. *)
Lemma sort_by_sorted {A} (key : A -> Z) (l : list A) :
  StronglySorted (fun x y => key x <= key y) (sort_by key l).
Proof.
  unfold sort_by. induction l as [|a l IH]; simpl; [constructor|].
  now apply insert_sorted_sorted.
Qed.

Lemma sort_by_perm {A} (key : A -> Z) (l : list A) : Permutation (sort_by key l) l.
Proof. apply sort_with_perm. Qed.

(** ** Dictionaries up to the order of their items *)

Section DictOrder.

Variables K V : Type.
Variable K_eq_dec : forall a b : K, {a = b} + {a <> b}.

Lemma dict_get_some_in (k : K) (v : V) (d : dict K V) :
  dict_get K_eq_dec k d = Some v -> In (k, v) d.
Proof.
  induction d as [|[k0 v0] d IH]; simpl; [discriminate|].
  destruct (K_eq_dec k k0) as [->|Hne]; [intros [= ->]; now left|auto].
Qed.

Lemma dict_get_unique (k : K) (v : V) (d : dict K V) :
  NoDup (dict_keys d) -> In (k, v) d -> dict_get K_eq_dec k d = Some v.
Proof.
  induction d as [|[k0 v0] d IH]; simpl; intros Hnd Hin; [contradiction|].
  inversion Hnd as [|x l Hx Hnd']; subst.
  destruct Hin as [[= -> ->]|Hin].
  - destruct (K_eq_dec k k); congruence.
  - destruct (K_eq_dec k k0) as [->|Hne]; [|auto].
    exfalso. apply Hx. change k0 with (fst (k0, v)). now apply in_map.
Qed.

Lemma dict_get_perm (k : K) (d d' : dict K V) :
  NoDup (dict_keys d) -> Permutation d d' ->
  dict_get K_eq_dec k d' = dict_get K_eq_dec k d.
Proof.
  intros Hnd Hp.
  assert (Hnd' : NoDup (dict_keys d')).
  { apply (Permutation_NoDup (l := dict_keys d)); [|exact Hnd].
    unfold dict_keys. now apply Permutation_map. }
  destruct (dict_get K_eq_dec k d) as [v|] eqn:Hd.
  - apply dict_get_unique; [exact Hnd'|].
    apply (Permutation_in _ Hp). now apply dict_get_some_in.
  - destruct (dict_get K_eq_dec k d') as [v'|] eqn:Hd'; [|reflexivity].
    apply dict_get_some_in in Hd'. apply Permutation_sym in Hp.
    apply (Permutation_in _ Hp) in Hd'.
    rewrite (dict_get_unique k v' d Hnd Hd') in Hd. discriminate.
Qed.

Lemma dict_keys_set (k : K) (v : V) (d : dict K V) (x : K) :
  In x (dict_keys (dict_set K_eq_dec k v d)) <-> x = k \/ In x (dict_keys d).
Proof.
  rewrite !(dict_get_in K_eq_dec). destruct (K_eq_dec k x) as [->|Hne].
  - rewrite dict_get_set_eq. split; [intros _; now left|intros _; now exists v].
  - rewrite (dict_get_set_ne K_eq_dec k x v d Hne).
    split; [auto|intros [E|H]; [congruence|exact H]].
Qed.

Lemma dict_set_nodup (k : K) (v : V) (d : dict K V) :
  NoDup (dict_keys d) -> NoDup (dict_keys (dict_set K_eq_dec k v d)).
Proof.
  induction d as [|[k0 v0] d IH]; simpl; intros Hnd.
  - constructor; [intros []|constructor].
  - inversion Hnd as [|x l Hx Hnd']; subst.
    destruct (K_eq_dec k k0) as [->|Hne]; simpl; [now constructor|].
    constructor; [|auto]. fold (dict_keys (dict_set K_eq_dec k v d)).
    rewrite dict_keys_set. intros [E|H]; [congruence|contradiction].
Qed.

Lemma dict_del_nodup (k : K) (d : dict K V) :
  NoDup (dict_keys d) -> NoDup (dict_keys (dict_del K_eq_dec k d)).
Proof.
  induction d as [|[k0 v0] d IH]; simpl; intros Hnd; [constructor|].
  inversion Hnd as [|x l Hx Hnd']; subst.
  destruct (K_eq_dec k k0) as [->|Hne]; simpl; [auto|].
  constructor; [|auto]. fold (dict_keys (dict_del K_eq_dec k d)).
  rewrite dict_keys_del. tauto.
Qed.

(** [{**d1, **d2}]: a key of [d2] takes its value from [d2]. *)
Lemma dict_get_merge (k : K) (d2 : dict K V) :
  forall d1 : dict K V,
    NoDup (dict_keys d2) ->
    dict_get K_eq_dec k (dict_merge K_eq_dec d1 d2)
    = match dict_get K_eq_dec k d2 with
      | Some v => Some v
      | None => dict_get K_eq_dec k d1
      end.
Proof.
  unfold dict_merge. induction d2 as [|[k0 v0] d2 IH]; intros d1 Hnd; [reflexivity|].
  inversion Hnd as [|x l Hx Hnd']; subst. simpl. rewrite (IH _ Hnd').
  destruct (K_eq_dec k k0) as [->|Hne].
  - assert (Hn : dict_get K_eq_dec k0 d2 = None) by (now apply dict_get_none).
    rewrite Hn. apply dict_get_set_eq.
  - destruct (dict_get K_eq_dec k d2); [reflexivity|].
    apply dict_get_set_ne. congruence.
Qed.

Lemma dict_merge_nodup (d2 : dict K V) :
  forall d1 : dict K V,
    NoDup (dict_keys d1) -> NoDup (dict_keys (dict_merge K_eq_dec d1 d2)).
Proof.
  unfold dict_merge. induction d2 as [|[k0 v0] d2 IH]; intros d1 Hnd; [exact Hnd|].
  simpl. apply IH. now apply dict_set_nodup.
Qed.

End DictOrder.

Arguments dict_get_some_in {K V} K_eq_dec k v d _.
Arguments dict_get_unique {K V} K_eq_dec k v d _ _.
Arguments dict_get_perm {K V} K_eq_dec k d d' _ _.
Arguments dict_keys_set {K V} K_eq_dec k v d x.
Arguments dict_set_nodup {K V} K_eq_dec k v d _.
Arguments dict_del_nodup {K V} K_eq_dec k d _.
Arguments dict_get_merge {K V} K_eq_dec k d2 d1 _.
Arguments dict_merge_nodup {K V} K_eq_dec d2 d1 _.

Lemma dict_get_map_values {V W} (f : V -> W) (k : string) (d : list (string * V)) :
  dict_get string_dec k (map (fun '(k, v) => (k, f v)) d)
  = option_map f (dict_get string_dec k d).
Proof.
  induction d as [|[k0 v0] d IH]; simpl; [reflexivity|].
  destruct (string_dec k k0); [reflexivity|exact IH].
Qed.

Lemma dict_keys_map_values {V W} (f : V -> W) (d : list (string * V)) :
  dict_keys (map (fun '(k, v) => (k, f v)) d) = dict_keys d.
Proof.
  unfold dict_keys. rewrite map_map. apply map_ext. now intros [k v].
Qed.

(** ** Integer keys written as text *)

Lemma int_str (k : Z) : int (str k) = Ok k.
Proof.
  unfold int, str. rewrite NilZero.isi.
  - now rewrite DecimalZ.of_to.
  - destruct k; simpl; try discriminate.
    intros [= E]. revert E. apply DecimalPos.Unsigned.to_uint_nonnil.
  - destruct k; simpl; try discriminate.
    intros [= E]. revert E. apply DecimalPos.Unsigned.to_uint_nonnil.
Qed.

(** ** JSON documents up to the order of their keys *)

(** Induction on documents, with the hypothesis for every element of a
    list and every value of a dictionary. *)
Definition json_induction (P : json -> Prop)
  (Hnull : P JNull) (Hbool : forall b, P (JBool b)) (Hint : forall z, P (JInt z))
  (Hfloat : forall q, P (JFloat q)) (Hstr : forall s, P (JStr s))
  (Hlist : forall l, Forall P l -> P (JList l))
  (Hdict : forall d, Forall (fun kv => P (snd kv)) d -> P (JDict d))
  : forall j, P j :=
  fix go (j : json) : P j :=
    match j with
    | JNull => Hnull
    | JBool b => Hbool b
    | JInt z => Hint z
    | JFloat q => Hfloat q
    | JStr s => Hstr s
    | JList l =>
        Hlist l ((fix all (l : list json) : Forall P l :=
                    match l with
                    | [] => Forall_nil P
                    | x :: l' => Forall_cons x (go x) (all l')
                    end) l)
    | JDict d =>
        Hdict d ((fix all (d : list (string * json))
                  : Forall (fun kv => P (snd kv)) d :=
                    match d with
                    | [] => Forall_nil _
                    | kv :: d' =>
                        Forall_cons (P := fun kv => P (snd kv)) kv
                                    (go (snd kv)) (all d')
                    end) d)
    end.

(** A document whose dictionaries have distinct keys, as every Python
    [dict] has. *)
#[local] Unset Elimination Schemes.
Inductive wf_json : json -> Prop :=
| wf_null : wf_json JNull
| wf_bool b : wf_json (JBool b)
| wf_int z : wf_json (JInt z)
| wf_float q : wf_json (JFloat q)
| wf_str s : wf_json (JStr s)
| wf_list l : Forall wf_json l -> wf_json (JList l)
| wf_dict d : NoDup (dict_keys d) -> Forall (fun kv => wf_json (snd kv)) d ->
              wf_json (JDict d).

Inductive option_rel {A} (R : A -> A -> Prop) : option A -> option A -> Prop :=
| rel_none : option_rel R None None
| rel_some a b : R a b -> option_rel R (Some a) (Some b).

(** Python's [==] on documents: lists are compared element by element,
    dictionaries key by key, whatever the order of their items. *)
Inductive json_eq : json -> json -> Prop :=
| eq_null : json_eq JNull JNull
| eq_bool b : json_eq (JBool b) (JBool b)
| eq_int z : json_eq (JInt z) (JInt z)
| eq_float q : json_eq (JFloat q) (JFloat q)
| eq_str s : json_eq (JStr s) (JStr s)
| eq_list l l' : Forall2 json_eq l l' -> json_eq (JList l) (JList l')
| eq_dict d d' :
    (forall k, option_rel json_eq (dict_get string_dec k d) (dict_get string_dec k d')) ->
    json_eq (JDict d) (JDict d').
#[local] Set Elimination Schemes.

Lemma option_rel_map {A} (R : A -> A -> Prop) (f : A -> A) (o : option A) :
  (forall a, o = Some a -> R (f a) a) -> option_rel R (option_map f o) o.
Proof.
  destruct o as [a|]; simpl; intros H; constructor. now apply H.
Qed.

Lemma sorted_items_get (k : string) (d : list (string * json)) :
  NoDup (dict_keys d) ->
  dict_get string_dec k
    (sort_with items_leb (map (fun '(k, v) => (k, sort_keys v)) d))
  = option_map sort_keys (dict_get string_dec k d).
Proof.
  intros Hnd. rewrite <- dict_get_map_values.
  apply dict_get_perm; [now rewrite dict_keys_map_values|].
  symmetry. apply sort_with_perm.
Qed.

(** What [json.dump(_, sort_keys=True)] writes is equal, as a Python
    value, to what was dumped. *)
Lemma sort_keys_eq (j : json) : wf_json j -> json_eq (sort_keys j) j.
Proof.
  induction j as [| | | | |l IH|d IH] using json_induction; intros Hwf;
    try (simpl; constructor).
  - inversion Hwf as [| | | | |l' Hl|]; subst. clear Hwf. revert Hl.
    induction IH as [|x l Hx _ IHl]; intros Hl; [constructor|].
    inversion Hl; subst. simpl. constructor; auto.
  - intros k. inversion Hwf as [| | | | | |d' Hnd Hvals]; subst.
    rewrite (sorted_items_get k d Hnd).
    apply option_rel_map. intros v Hv. apply dict_get_some_in in Hv.
    rewrite Forall_forall in IH, Hvals.
    apply (IH (k, v) Hv). apply (Hvals (k, v) Hv).
Qed.

(** ** Saving and reloading the registry *)

(** A region as [Region.__init__] builds it: the names [self], [center]
    and [weight] are parameters of the constructor, so they are never keys
    of [data], and [data] is a Python [dict] of JSON values. *)
Definition wf_region (r : Region) : Prop :=
  wf_json (JDict (data r)) /\
  ~ In "center"%string (dict_keys (data r)) /\
  ~ In "weight"%string (dict_keys (data r)) /\
  ~ In "self"%string (dict_keys (data r)).

(** Two regions with the same centre, the same weight and equal bags. *)
Definition region_eq (r' r : Region) : Prop :=
  center r' = center r /\ weight r' = weight r /\
  json_eq (JDict (data r')) (JDict (data r)).

(** The items of a region as they stand in the saved document. *)
Definition saved_items (r : Region) : list (string * json) :=
  sort_with items_leb (map (fun '(k, v) => (k, sort_keys v)) (get_json r)).

(** The region that [load_data] builds from the saved items of [r]. *)
Definition reloaded (r : Region) : Region :=
  mkRegion (center r) (weight r)
           (dict_del string_dec "weight"%string
              (dict_del string_dec "center"%string (saved_items r))).

Lemma wf_region_nodup (r : Region) : wf_region r -> NoDup (dict_keys (data r)).
Proof. intros [H _]. now inversion H. Qed.

Lemma get_json_nodup (r : Region) : NoDup (dict_keys (get_json r)).
Proof.
  unfold get_json. apply dict_merge_nodup. simpl.
  constructor; [intros [E|[]]; discriminate|]. constructor; [intros []|constructor].
Qed.

Lemma get_json_get (r : Region) (k : string) :
  wf_region r ->
  dict_get string_dec k (get_json r) =
  if string_dec k "center" then Some (json_of_center (center r))
  else if string_dec k "weight" then Some (JInt (weight r))
  else dict_get string_dec k (data r).
Proof.
  intros Hwf. pose proof (wf_region_nodup r Hwf) as Hnd.
  destruct Hwf as (_ & Hc & Hw & _).
  unfold get_json. rewrite (dict_get_merge string_dec k (data r) _ Hnd).
  destruct (string_dec k "center") as [->|Hkc].
  - apply (dict_get_none string_dec) in Hc. now rewrite Hc.
  - destruct (string_dec k "weight") as [->|Hkw].
    + apply (dict_get_none string_dec) in Hw. now rewrite Hw.
    + destruct (dict_get string_dec k (data r)); [reflexivity|].
      simpl. destruct (string_dec k "center"); [contradiction|].
      destruct (string_dec k "weight"); [contradiction|reflexivity].
Qed.

Lemma saved_items_get (r : Region) (k : string) :
  dict_get string_dec k (saved_items r)
  = option_map sort_keys (dict_get string_dec k (get_json r)).
Proof. apply sorted_items_get, get_json_nodup. Qed.

Lemma Region_init_saved (r : Region) :
  wf_region r -> Region_init (saved_items r) = Ok (reloaded r).
Proof.
  intros Hwf. unfold Region_init.
  assert (Hself : dict_mem string_dec "self"%string (saved_items r) = false).
  { unfold dict_mem. rewrite saved_items_get, (get_json_get r _ Hwf). simpl.
    destruct Hwf as (_ & _ & _ & Hs).
    apply (dict_get_none string_dec) in Hs. now rewrite Hs. }
  rewrite Hself, !saved_items_get, !(get_json_get r _ Hwf). simpl.
  unfold reloaded. now destruct (center r).
Qed.

Lemma reloaded_eq (r : Region) : wf_region r -> region_eq (reloaded r) r.
Proof.
  intros Hwf. split; [reflexivity|]. split; [reflexivity|].
  constructor. intros k. simpl.
  destruct (string_dec "weight" k) as [<-|Hw].
  { rewrite dict_get_del_eq. destruct Hwf as (_ & _ & Hn & _).
    apply (dict_get_none string_dec) in Hn. rewrite Hn. constructor. }
  rewrite (dict_get_del_ne string_dec _ _ _ Hw).
  destruct (string_dec "center" k) as [<-|Hc].
  { rewrite dict_get_del_eq. destruct Hwf as (_ & Hn & _).
    apply (dict_get_none string_dec) in Hn. rewrite Hn. constructor. }
  rewrite (dict_get_del_ne string_dec _ _ _ Hc).
  rewrite saved_items_get, (get_json_get r k Hwf).
  destruct (string_dec k "center"); [congruence|].
  destruct (string_dec k "weight"); [congruence|].
  apply option_rel_map. intros v Hv. apply sort_keys_eq.
  destruct Hwf as (Hd & _). inversion Hd as [| | | | | |d Hnd Hvals]; subst.
  rewrite Forall_forall in Hvals.
  apply (Hvals (k, v)). now apply (dict_get_some_in string_dec).
Qed.

Lemma load_regions_saved (L : list (Z * Region)) :
  forall acc : dict Z Region,
    (forall k r, In (k, r) L -> wf_region r) ->
    load_regions
      (map (fun '(k, r) => (str k, sort_keys (JDict (get_json r)))) L) acc
    = Ok (fold_left (fun acc kr => dict_set Z.eq_dec (fst kr) (reloaded (snd kr)) acc)
                    L acc).
Proof.
  induction L as [|[k r] L IH]; intros acc Hwf; [reflexivity|].
  cbn [map load_regions sort_keys fold_left fst snd].
  fold (saved_items r).
  rewrite int_str, (Region_init_saved r (Hwf k r (or_introl eq_refl))).
  apply IH. intros k' r' Hin. apply (Hwf k' r'). now right.
Qed.

Lemma fold_set_get {V W} (f : V -> W) (L : list (Z * V)) (k : Z) :
  forall acc : dict Z W,
    NoDup (dict_keys L) ->
    dict_get Z.eq_dec k
      (fold_left (fun acc kr => dict_set Z.eq_dec (fst kr) (f (snd kr)) acc) L acc)
    = match dict_get Z.eq_dec k L with
      | Some v => Some (f v)
      | None => dict_get Z.eq_dec k acc
      end.
Proof.
  induction L as [|[k0 v0] L IH]; intros acc Hnd; [reflexivity|].
  inversion Hnd as [|x l Hx Hnd']; subst. cbn [fold_left fst snd].
  rewrite (IH _ Hnd'). simpl. destruct (Z.eq_dec k k0) as [->|Hne].
  - apply (dict_get_none Z.eq_dec) in Hx. rewrite Hx. apply dict_get_set_eq.
  - destruct (dict_get Z.eq_dec k L); [reflexivity|].
    apply dict_get_set_ne. congruence.
Qed.

(** The state that [load_data] builds, in any map object [fresh], from a
    [data.json] that holds the document of [cm]. *)
Lemma load_document_run (cm fresh : ConquestMap) :
  (forall k r, In (k, r) (regions cm) -> wf_region r) ->
  data_json fresh = Some (document cm) ->
  load_data fresh
  = (Ok tt,
     mkMap (name cm) (custom cm) (region_max cm)
           (fold_left (fun acc kr => dict_set Z.eq_dec (fst kr) (reloaded (snd kr)) acc)
                      (sort_by fst (regions cm)) [])
           (blank_png fresh) (masks_dir fresh) (Some (document cm))).
Proof.
  intros Hwf Hfile.
  assert (Hwf' : forall k r, In (k, r) (sort_by fst (regions cm)) -> wf_region r).
  { intros k r Hin. apply (Hwf k r).
    now apply (Permutation_in _ (sort_by_perm fst (regions cm))). }
  unfold load_data. rewrite Hfile. unfold document at 1, regions_document.
  set (items := map (fun '(k, r) => (str k, sort_keys (JDict (get_json r))))
                    (sort_by fst (regions cm))).
  assert (Hload : load_regions items [] = Ok
            (fold_left (fun acc kr => dict_set Z.eq_dec (fst kr) (reloaded (snd kr)) acc)
                       (sort_by fst (regions cm)) []))
    by apply (load_regions_saved _ [] Hwf').
  clearbody items.
  destruct (name cm), (custom cm), (region_max cm); simpl; rewrite Hload; reflexivity.
Qed.

(** C9.  A registry saved with [save_data] is recovered from [data.json]
    alone: [load_data], run in any map object [fresh] whose [data.json] is
    the file that [save_data] wrote (a new [ConquestMap] of the same
    directory, which has no name and no region yet, or one that holds
    other regions), succeeds and gives the name, the custom flag and the
    [region_max] that were saved, the same keys, and for every key a region
    with the same centre, the same weight and a bag of extra attributes
    equal to the one saved (as Python dictionaries: [json.dump] writes the
    keys in sorted order).  The regions are as [Region.__init__] builds
    them: no attribute of the bag is named [self], [center] or
    [weight]. *)
Theorem save_load_roundtrip (cm fresh : ConquestMap) :
  NoDup (dict_keys (regions cm)) ->
  (forall k r, In (k, r) (regions cm) -> wf_region r) ->
  data_json fresh = data_json (snd (save_data cm)) ->
  exists cm',
    load_data fresh = (Ok tt, cm') /\
    name cm' = name cm /\ custom cm' = custom cm /\
    region_max cm' = region_max cm /\
    forall k, option_rel region_eq
                (dict_get Z.eq_dec k (regions cm'))
                (dict_get Z.eq_dec k (regions cm)).
Proof.
  intros Hnd Hwf Hfile.
  assert (Hp : Permutation (sort_by fst (regions cm)) (regions cm))
    by apply sort_by_perm.
  eexists. split; [apply (load_document_run cm fresh Hwf Hfile)|].
  cbn [name custom region_max regions].
  split; [reflexivity|]. split; [reflexivity|]. split; [reflexivity|].
  intros k. rewrite fold_set_get.
  - rewrite (dict_get_perm Z.eq_dec k (regions cm) _ Hnd (Permutation_sym Hp)).
    destruct (dict_get Z.eq_dec k (regions cm)) as [r|] eqn:Hr; constructor.
    apply reloaded_eq, (Hwf k r). now apply (dict_get_some_in Z.eq_dec).
  - apply (Permutation_NoDup (l := dict_keys (regions cm))); [|exact Hnd].
    unfold dict_keys. apply Permutation_map. now symmetry.
Qed.

(** A registry whose first region carries extra attributes, one of them a
    nested dictionary with its keys out of order. *)
Definition named_map : ConquestMap :=
  mkMap (Some "world"%string) (Some true) (Some 2)
        [(1, mkRegion (1 # 2, 3 # 4)%Q 4
               [("name"%string, JStr "north");
                ("capital"%string, JDict [("y"%string, JInt 2); ("x"%string, JInt 1)])]);
         (2, mkRegion (5, 6)%Q 7 [])]
        None None None.

(** A new [ConquestMap] object of the directory where [named_map] was
    saved: no name, no region, and the [data.json] that [save_data]
    wrote. *)
Definition reopened_map : ConquestMap :=
  mkMap None None None [] None None (data_json (snd (save_data named_map))).

(** A bag with an attribute named [self] can only be put together by
    hand, since [Region.__init__] cannot receive such a keyword:
    [save_data] writes it, and [load_data] raises on the document. *)
Example load_data_self_attribute :
  fst (load_data
         (snd (save_data
                 (mkMap None None None
                        [(1, mkRegion (0, 0)%Q 1 [("self"%string, JInt 1)])]
                        None None None))))
  = Raise TypeError.
Proof. reflexivity. Qed.

Lemma save_load_roundtrip_witness :
  NoDup (dict_keys (regions named_map)) /\
  regions reopened_map = [] /\
  exists cm',
    load_data reopened_map = (Ok tt, cm') /\
    name cm' = name named_map /\ custom cm' = custom named_map /\
    region_max cm' = region_max named_map /\
    forall k, option_rel region_eq
                (dict_get Z.eq_dec k (regions cm'))
                (dict_get Z.eq_dec k (regions named_map)).
Proof.
  assert (Hnd : NoDup (dict_keys (regions named_map))).
  { simpl. repeat constructor; simpl; intuition lia. }
  split; [exact Hnd|]. split; [reflexivity|].
  apply (save_load_roundtrip named_map reopened_map Hnd); [|reflexivity].
  intros k r [[= <- <-]|[[= <- <-]|[]]]; unfold wf_region; simpl;
    repeat first [constructor | progress simpl | intuition discriminate].
Defined.

(** ** Renaming mask files *)

Lemma dir_rename_get (src dst : stem) (d d' : directory) (s : stem) :
  dir_rename src dst d = Ok d' ->
  dict_get stem_eq_dec s d' =
  if stem_eq_dec s dst then dict_get stem_eq_dec src d
  else if stem_eq_dec s src then None
  else dict_get stem_eq_dec s d.
Proof.
  unfold dir_rename. destruct (dict_get stem_eq_dec src d) as [im|] eqn:Hsrc;
    [|discriminate].
  intros [= <-]. destruct (stem_eq_dec s dst) as [->|Hd].
  - apply dict_get_set_eq.
  - rewrite dict_get_set_ne by congruence.
    destruct (stem_eq_dec s src) as [->|Hs].
    + apply dict_get_del_eq.
    + apply dict_get_del_ne. congruence.
Qed.

Lemma dir_rename_ok (src dst : stem) (d : directory) :
  dict_get stem_eq_dec src d <> None -> exists d', dir_rename src dst d = Ok d'.
Proof.
  unfold dir_rename. destruct (dict_get stem_eq_dec src d); [eauto|congruence].
Qed.

(** A sequence of renames, on the directory alone. *)
Fixpoint renames (l : list (stem * stem)) (d : directory) : result directory :=
  match l with
  | [] => Ok d
  | (src, dst) :: l' =>
      match dir_rename src dst d with
      | Ok d' => renames l' d'
      | Raise e => Raise e
      end
  end.

Lemma with_masks_dir_id (cm : ConquestMap) (d : directory) :
  masks_dir cm = Some d -> with_masks_dir d cm = cm.
Proof. destruct cm. simpl. now intros ->. Qed.

Lemma rename_mask_ok (src dst : stem) (cm : ConquestMap) (d d' : directory) :
  masks_dir cm = Some d -> dir_rename src dst d = Ok d' ->
  rename_mask src dst cm = (Ok tt, with_masks_dir d' cm).
Proof.
  intros Hd Hr. unfold rename_mask, bind, listdir, lift, set_masks_dir.
  now rewrite Hd, Hr.
Qed.

Lemma for_each_renames {A} (src dst : A -> stem) (l : list A) :
  forall (cm : ConquestMap) (d d' : directory),
    masks_dir cm = Some d ->
    renames (map (fun a => (src a, dst a)) l) d = Ok d' ->
    for_each l (fun a => rename_mask (src a) (dst a)) cm
    = (Ok tt, with_masks_dir d' cm).
Proof.
  induction l as [|a l IH]; intros cm d d' Hd Hr.
  - injection Hr as <-. simpl. unfold ret. now rewrite with_masks_dir_id.
  - simpl in Hr. destruct (dir_rename (src a) (dst a) d) as [d1|] eqn:H1; [|discriminate].
    cbn [for_each]. rewrite (bind_ok _ _ _ _ _ (rename_mask_ok _ _ cm d d1 Hd H1)).
    now rewrite (IH (with_masks_dir d1 cm) d1 d').
Qed.

(** Renames whose sources are distinct, whose targets are distinct, and
    where no target is a source: every target receives the file of its
    source and the other files are as before. *)
Lemma renames_disjoint (l : list (stem * stem)) :
  forall d : directory,
    NoDup (map fst l) -> NoDup (map snd l) ->
    (forall s, In s (map fst l) -> ~ In s (map snd l)) ->
    (forall s, In s (map fst l) -> dict_get stem_eq_dec s d <> None) ->
    exists d',
      renames l d = Ok d' /\
      (forall src dst, In (src, dst) l ->
         dict_get stem_eq_dec dst d' = dict_get stem_eq_dec src d) /\
      (forall s, ~ In s (map fst l) -> ~ In s (map snd l) ->
         dict_get stem_eq_dec s d' = dict_get stem_eq_dec s d).
Proof.
  induction l as [|[src dst] l IH]; intros d Hsrc Hdst Hdisj Hex.
  - exists d. repeat split; auto. intros ? ? [].
  - simpl in *. apply NoDup_cons_iff in Hsrc as [Hs1 Hs2].
    apply NoDup_cons_iff in Hdst as [Hd1 Hd2].
    destruct (dir_rename_ok src dst d (Hex src (or_introl eq_refl))) as (d1 & Hd1r).
    rewrite Hd1r.
    assert (Hne : src <> dst).
    { intros E. apply (Hdisj src (or_introl eq_refl)). now left. }
    destruct (IH d1 Hs2 Hd2) as (d' & Hr & Hmoved & Hframe).
    + intros s Hs Hs'. apply (Hdisj s (or_intror Hs)). now right.
    + intros s Hs. rewrite (dir_rename_get src dst d d1 s Hd1r).
      destruct (stem_eq_dec s dst) as [->|_].
      { exfalso. apply (Hdisj dst (or_intror Hs)). now left. }
      destruct (stem_eq_dec s src) as [->|_]; [contradiction|].
      apply Hex. now right.
    + exists d'. split; [exact Hr|]. split.
      * intros s t [[= <- <-]|Hin].
        -- rewrite Hframe.
           ++ rewrite (dir_rename_get src dst d d1 dst Hd1r).
              destruct (stem_eq_dec dst dst); congruence.
           ++ intros Hin. apply (Hdisj dst (or_intror Hin)). now left.
           ++ exact Hd1.
        -- rewrite (Hmoved s t Hin), (dir_rename_get src dst d d1 s Hd1r).
           assert (Hs : In s (map fst l)) by (change s with (fst (s, t)); now apply in_map).
           destruct (stem_eq_dec s dst) as [->|_].
           { exfalso. apply (Hdisj dst (or_intror Hs)). now left. }
           destruct (stem_eq_dec s src) as [->|_]; [contradiction|reflexivity].
      * intros s Hs Hs'. rewrite Hframe by tauto.
        rewrite (dir_rename_get src dst d d1 s Hd1r).
        destruct (stem_eq_dec s dst) as [->|_]; [exfalso; apply Hs'; now left|].
        destruct (stem_eq_dec s src) as [->|_]; [exfalso; apply Hs; now left|reflexivity].
Qed.

Lemma combine_fst {A B} (l : list A) :
  forall l' : list B, length l = length l' -> map fst (combine l l') = l.
Proof.
  induction l as [|a l IH]; intros [|b l'] H; simpl in *; try discriminate; [reflexivity|].
  f_equal. apply IH. lia.
Qed.

Lemma combine_snd {A B} (l : list A) :
  forall l' : list B, length l = length l' -> map snd (combine l l') = l'.
Proof.
  induction l as [|a l IH]; intros [|b l'] H; simpl in *; try discriminate; [reflexivity|].
  f_equal. apply IH. lia.
Qed.

(** [enumerate(l, start=1)] pairs the keys [1..len(l)] with [l]. *)
Lemma enumerate1_fst {A} (l : list A) : map fst (enumerate1 l) = numbered (length l).
Proof.
  unfold enumerate1, numbered. apply combine_fst. now rewrite length_map, length_seq.
Qed.

Lemma enumerate1_snd {A} (l : list A) : map snd (enumerate1 l) = l.
Proof.
  unfold enumerate1. apply combine_snd. now rewrite length_map, length_seq.
Qed.

Lemma numbered_nodup (n : nat) : NoDup (numbered n).
Proof.
  unfold numbered. apply Finite.Injective_map_NoDup; [|apply seq_NoDup].
  intros a b. apply Nat2Z.inj.
Qed.

Lemma in_enumerate {A} (l : list A) :
  forall (start i : nat) (a : A),
    nth_error l i = Some a ->
    In (Z.of_nat (start + i), a) (combine (map Z.of_nat (seq start (length l))) l).
Proof.
  induction l as [|x l IH]; intros start [|i] a H; simpl in *; try discriminate.
  - injection H as ->. left. f_equal. f_equal. lia.
  - right. replace (start + S i)%nat with (S start + i)%nat by lia. now apply IH.
Qed.

Lemma enumerate1_get {A} (l : list A) (i : nat) (a : A) :
  nth_error l i = Some a ->
  dict_get Z.eq_dec (Z.of_nat i + 1) (enumerate1 l) = Some a.
Proof.
  intros H. apply dict_get_unique.
  - unfold dict_keys. rewrite enumerate1_fst. apply numbered_nodup.
  - replace (Z.of_nat i + 1) with (Z.of_nat (1 + i)) by lia. now apply in_enumerate.
Qed.

Lemma fold_set_keys {V W} (g : Z * V -> W) (E : list (Z * V)) :
  forall acc : dict Z W,
    NoDup (dict_keys acc ++ map fst E) ->
    dict_keys (fold_left (fun acc e => dict_set Z.eq_dec (fst e) (g e) acc) E acc)
    = dict_keys acc ++ map fst E.
Proof.
  induction E as [|[n v] E IH]; intros acc Hnd; simpl; [now rewrite app_nil_r|].
  assert (Hn : ~ In n (dict_keys acc)).
  { intros Hin. apply NoDup_remove_2 in Hnd. apply Hnd. apply in_or_app. now left. }
  simpl in Hnd. rewrite IH.
  - rewrite (dict_keys_set_new Z.eq_dec n (g (n, v)) acc Hn). now rewrite <- app_assoc.
  - rewrite (dict_keys_set_new Z.eq_dec n (g (n, v)) acc Hn).
    rewrite <- app_assoc. exact Hnd.
Qed.

(** ** [sort_regions] *)

(** The first point of a mask once its points are sorted by [y], as
    [sort_regions] takes it. *)
Definition top_point (m : image) : point := hd (0, 0) (sort_by snd (mask_points m)).

(** The [y] coordinate of the topmost filled pixel of the mask of [k]. *)
Definition topmost_y (cm : ConquestMap) (k : Z) : Z :=
  match mask_file k cm with
  | Some m => snd (top_point m)
  | None => 0
  end.

(** [top_point] among the points read from the mask: it is one of them,
    and none has a lesser [y]. *)
Lemma top_point_first (m : image) :
  mask_points m <> [] ->
  In (top_point m) (mask_points m) /\
  forall q, In q (mask_points m) -> snd (top_point m) <= snd q.
Proof.
  intros Hne. unfold top_point.
  pose proof (sort_by_perm snd (mask_points m)) as Hp.
  pose proof (sort_by_sorted snd (mask_points m)) as Hs.
  destruct (sort_by snd (mask_points m)) as [|p l].
  - apply Permutation_nil in Hp. contradiction.
  - simpl. split; [apply (Permutation_in p Hp); now left|].
    intros q Hq. apply Permutation_sym in Hp. apply (Permutation_in q Hp) in Hq.
    inversion Hs as [|? ? _ Hall]; subst. destruct Hq as [<-|Hq]; [lia|].
    rewrite Forall_forall in Hall. now apply Hall.
Qed.

Lemma mask_points_filled (m : image) (q : point) :
  In q (mask_points m) <-> in_image m q = true /\ pix m q = 0.
Proof.
  unfold mask_points. rewrite filter_In, in_coords, Z.eqb_eq. tauto.
Qed.

Lemma mask_points_nonempty (m : image) :
  (exists q, in_image m q = true /\ pix m q = 0) -> mask_points m <> [].
Proof.
  intros (q & Hq) E. apply mask_points_filled in Hq. rewrite E in Hq. exact Hq.
Qed.

(** [y] is the row of the topmost filled pixel of the mask [m]: a pixel of
    the row [y] of the grid is filled ([0]), and no filled pixel of the
    grid lies in a row above. *)
Definition top_row (m : image) (y : Z) : Prop :=
  (exists x, in_image m (x, y) = true /\ pix m (x, y) = 0) /\
  forall q, in_image m q = true -> pix m q = 0 -> y <= snd q.

(** The keys [a] and [b] have mask files in [cm], and the topmost filled
    pixel of the mask of [a] is not below the one of the mask of [b]. *)
Definition topmost_le (cm : ConquestMap) (a b : Z) : Prop :=
  exists ma mb ya yb,
    mask_file a cm = Some ma /\ mask_file b cm = Some mb /\
    top_row ma ya /\ top_row mb yb /\ ya <= yb.

Lemma top_row_unique (m : image) (y y' : Z) : top_row m y -> top_row m y' -> y = y'.
Proof.
  intros ((x & Hx) & Hy) ((x' & Hx') & Hy').
  specialize (Hy (x', y') (proj1 Hx') (proj2 Hx')).
  specialize (Hy' (x, y) (proj1 Hx) (proj2 Hx)). simpl in *. lia.
Qed.

Lemma top_point_top_row (m : image) :
  mask_points m <> [] -> top_row m (snd (top_point m)).
Proof.
  intros Hne. destruct (top_point_first m Hne) as [Hin Hleast]. split.
  - exists (fst (top_point m)). rewrite <- surjective_pairing.
    now apply mask_points_filled.
  - intros q Hq Hp. apply Hleast. now apply mask_points_filled.
Qed.

Lemma strongly_sorted_in {A} (R R' : A -> A -> Prop) (l : list A) :
  (forall a b, In a l -> In b l -> R a b -> R' a b) ->
  StronglySorted R l -> StronglySorted R' l.
Proof.
  intros H Hs. induction Hs as [|a l Hl IH Ha]; [constructor|].
  constructor.
  - apply IH. intros x y Hx Hy. apply H; now right.
  - rewrite Forall_forall in *. intros x Hx.
    apply H; [now left|now right|now apply Ha].
Qed.

(** X7.  The point that [sort_regions] takes for a mask with a filled
    pixel (the first of its points once sorted by [y]) is a pixel of the
    grid that is filled ([0]) in the mask, and no filled pixel of the grid
    has a lesser [y]. *)
Theorem top_point_least (m : image) :
  (exists q, in_image m q = true /\ pix m q = 0) ->
  in_image m (top_point m) = true /\ pix m (top_point m) = 0 /\
  forall q, in_image m q = true -> pix m q = 0 -> snd (top_point m) <= snd q.
Proof.
  intros Hsome. pose proof (mask_points_nonempty m Hsome) as Hne.
  destruct (top_point_first m Hne) as [Hin Hleast].
  apply mask_points_filled in Hin. destruct Hin as [Hin Hp].
  split; [exact Hin|]. split; [exact Hp|].
  intros q Hq Hq0. apply Hleast, mask_points_filled. now split.
Qed.

Definition sort_entry_of (cm : ConquestMap) (k : Z) : point * Z :=
  (match mask_file k cm with Some m => top_point m | None => (0, 0) end, k).

Lemma sort_entries (cm : ConquestMap) (keys : list Z) :
  (forall k, In k keys ->
             exists m, mask_file k cm = Some m /\ mask_points m <> []) ->
  forall acc,
    for_fold keys sort_entry acc cm = (Ok (acc ++ map (sort_entry_of cm) keys), cm).
Proof.
  induction keys as [|k keys IH]; intros Hall acc.
  - simpl. unfold ret. now rewrite app_nil_r.
  - destruct (Hall k (or_introl eq_refl)) as (m & Hm & Hne).
    cbn [for_fold map].
    assert (Hstep : sort_entry acc k cm = (Ok (acc ++ [sort_entry_of cm k]), cm)).
    { unfold sort_entry, get_points_from_mask, bind. rewrite open_mask_eq, Hm.
      unfold ret, sort_entry_of, top_point. rewrite Hm.
      pose proof (sort_by_perm snd (mask_points m)) as Hp.
      destruct (sort_by snd (mask_points m)) as [|p l]; [|reflexivity].
      apply Permutation_nil in Hp. contradiction. }
    rewrite (bind_ok _ _ _ _ _ Hstep), IH.
    + now rewrite <- app_assoc.
    + intros k' Hk'. apply Hall. now right.
Qed.

Lemma sort_renames (E : list (Z * Z)) :
  forall (cm : ConquestMap) (d d' : directory) (acc : dict Z Region),
    masks_dir cm = Some d ->
    renames (map (fun e => (Old (snd e), Num (fst e))) E) d = Ok d' ->
    (forall e, In e E -> In (snd e) (dict_keys (regions cm))) ->
    for_fold E sort_rename acc cm
    = (Ok (fold_left (fun acc e => dict_set Z.eq_dec (fst e) (region_at cm (snd e)) acc)
                     E acc),
       with_masks_dir d' cm).
Proof.
  induction E as [|[n o] E IH]; intros cm d d' acc Hd Hr Hin.
  - injection Hr as <-. simpl. unfold ret. now rewrite with_masks_dir_id.
  - simpl in Hr.
    destruct (dir_rename (Old o) (Num n) d) as [d1|] eqn:H1; [|discriminate].
    cbn [for_fold fold_left fst snd].
    assert (Hstep : sort_rename acc (n, o) cm
                    = (Ok (dict_set Z.eq_dec n (region_at cm o) acc),
                       with_masks_dir d1 cm)).
    { unfold sort_rename. rewrite (bind_ok _ _ _ _ _ (rename_mask_ok _ _ cm d d1 Hd H1)).
      unfold bind, get, lift, ret, dict_item, region_at. simpl.
      destruct (proj1 (dict_get_in Z.eq_dec o (regions cm))
                      (Hin (n, o) (or_introl eq_refl))) as (r & ->).
      reflexivity. }
    rewrite (bind_ok _ _ _ _ _ Hstep).
    rewrite (IH (with_masks_dir d1 cm) d1 d'); [reflexivity|reflexivity|exact Hr|].
    intros e He. simpl. apply Hin. now right.
Qed.

Lemma strongly_sorted_map {A B} (f : A -> B) (R : A -> A -> Prop)
      (R' : B -> B -> Prop) (l : list A) :
  (forall a b, In a l -> In b l -> R a b -> R' (f a) (f b)) ->
  StronglySorted R l -> StronglySorted R' (map f l).
Proof.
  intros H Hs. induction Hs as [|a l Hl IH Ha]; simpl; [constructor|].
  constructor.
  - apply IH. intros x y Hx Hy. apply H; now right.
  - rewrite Forall_forall in *. intros y Hy.
    apply in_map_iff in Hy as (x & <- & Hx). apply H; [now left|now right|auto].
Qed.

Lemma map_stem_nodup (f : Z -> stem) (l : list Z) :
  (forall a b, f a = f b -> a = b) -> NoDup l -> NoDup (map f l).
Proof. intros Hinj. now apply Finite.Injective_map_NoDup. Qed.

(** What [sort_regions] does, in terms of its own sort key [topmost_y]:
    there is an order of the old keys, increasing in the key, such that
    the new registry has the keys [1..N] and the region and the mask file
    of the new key [i] are those of the [i]-th old key of that order. *)
Lemma sort_regions_order (cm : ConquestMap) (d : directory) :
  masks_dir cm = Some d ->
  NoDup (dict_keys (regions cm)) ->
  (forall k, In k (dict_keys (regions cm)) ->
             exists m, mask_file k cm = Some m /\ mask_points m <> []) ->
  exists order cm',
    sort_regions true cm = (Ok tt, cm') /\
    Permutation order (dict_keys (regions cm)) /\
    StronglySorted (fun a b => topmost_y cm a <= topmost_y cm b) order /\
    dict_keys (regions cm') = numbered (length order) /\
    forall i old, nth_error order i = Some old ->
      dict_get Z.eq_dec (Z.of_nat i + 1) (regions cm')
      = dict_get Z.eq_dec old (regions cm) /\
      mask_file (Z.of_nat i + 1) cm' = mask_file old cm.
Proof.
  intros Hd Hnd Hfiles.
  set (keys := dict_keys (regions cm)) in *.
  set (L := sort_by (fun x : point * Z => snd (fst x)) (map (sort_entry_of cm) keys)).
  set (order := map snd L).
  assert (HpL : Permutation L (map (sort_entry_of cm) keys)) by apply sort_by_perm.
  assert (Hperm : Permutation order keys).
  { unfold order. rewrite (Permutation_map snd HpL), map_map. simpl. now rewrite map_id. }
  assert (Hnd_order : NoDup order).
  { apply (Permutation_NoDup (l := keys)); [now symmetry|exact Hnd]. }
  assert (Hin_order : forall o, In o order -> In o keys).
  { intros o Ho. now apply (Permutation_in o Hperm). }
  assert (Hget : forall k, In k keys -> dict_get stem_eq_dec (Num k) d <> None).
  { intros k Hk. destruct (Hfiles k Hk) as (m & Hm & _).
    unfold mask_file in Hm. rewrite Hd in Hm. congruence. }
  (* first pass: every mask goes to its _old name *)
  destruct (renames_disjoint (map (fun k => (Num k, Old k)) keys) d)
    as (d1 & Hr1 & Hmoved1 & _).
  { rewrite map_map. simpl. apply map_stem_nodup; [congruence|exact Hnd]. }
  { rewrite map_map. simpl. apply map_stem_nodup; [congruence|exact Hnd]. }
  { intros s Hs Hs'. rewrite map_map in Hs, Hs'. simpl in Hs, Hs'.
    apply in_map_iff in Hs as (a & <- & _). apply in_map_iff in Hs' as (b & E & _).
    discriminate. }
  { intros s Hs. rewrite map_map in Hs. simpl in Hs.
    apply in_map_iff in Hs as (k & <- & Hk). now apply Hget. }
  assert (Hold : forall o, In o keys ->
                   dict_get stem_eq_dec (Old o) d1 = dict_get stem_eq_dec (Num o) d).
  { intros o Ho. apply Hmoved1. apply in_map_iff. now exists o. }
  (* second pass: the _old files go to their new numbers *)
  set (E := enumerate1 order).
  destruct (renames_disjoint (map (fun e : Z * Z => (Old (snd e), Num (fst e))) E) d1)
    as (d2 & Hr2 & Hmoved2 & _).
  { rewrite map_map. simpl. rewrite <- (map_map snd Old). unfold E.
    rewrite enumerate1_snd. apply map_stem_nodup; [congruence|exact Hnd_order]. }
  { rewrite map_map. simpl. rewrite <- (map_map fst Num). unfold E.
    rewrite enumerate1_fst. apply map_stem_nodup; [congruence|apply numbered_nodup]. }
  { intros s Hs Hs'. rewrite map_map in Hs, Hs'. simpl in Hs, Hs'.
    apply in_map_iff in Hs as (a & <- & _). apply in_map_iff in Hs' as (b & E' & _).
    discriminate. }
  { intros s Hs. rewrite map_map in Hs. simpl in Hs.
    apply in_map_iff in Hs as ([n o] & <- & He). simpl.
    assert (Ho : In o order).
    { unfold E in He. rewrite <- (enumerate1_snd order).
      change o with (snd (n, o)). now apply in_map. }
    rewrite (Hold o (Hin_order o Ho)). now apply Hget, Hin_order. }
  assert (HE : forall e, In e E ->
                 In (snd e) (dict_keys (regions (with_masks_dir d1 cm)))).
  { intros [n o] He. simpl. apply Hin_order. unfold E in He.
    rewrite <- (enumerate1_snd order). change o with (snd (n, o)). now apply in_map. }
  exists order. eexists. split; [|split; [exact Hperm|split; [|split]]].
  - unfold sort_regions. unfold bind at 1, get. fold keys.
    unfold bind at 1. unfold bind at 1. rewrite (sort_entries cm keys Hfiles []).
    unfold ret at 1. cbn [app]. fold L.
    rewrite (bind_ok _ _ _ _ _
               (for_each_renames Num Old keys cm d d1 Hd Hr1)).
    fold order. fold E.
    rewrite (bind_ok _ _ _ _ _
               (sort_renames E (with_masks_dir d1 cm) d1 d2 [] eq_refl Hr2 HE)).
    reflexivity.
  - unfold order. apply strongly_sorted_map with (R := fun x y => snd (fst x) <= snd (fst y)).
    + intros a b Ha Hb Hab.
      assert (Hshape : forall e, In e L -> snd (fst e) = topmost_y cm (snd e)).
      { intros e He. apply (Permutation_in e HpL) in He.
        apply in_map_iff in He as (k & <- & _).
        unfold sort_entry_of, topmost_y. simpl. now destruct (mask_file k cm). }
      now rewrite <- (Hshape a Ha), <- (Hshape b Hb).
    + apply sort_by_sorted.
  - simpl. rewrite (fold_set_keys (fun e => region_at (with_masks_dir d1 cm) (snd e)) E []).
    + simpl. unfold E. rewrite enumerate1_fst. reflexivity.
    + simpl. unfold E. rewrite enumerate1_fst. apply numbered_nodup.
  - intros i old Hi.
    assert (Hold_in : In old keys).
    { apply Hin_order. eapply nth_error_In; eauto. }
    split.
    + simpl.
      rewrite (fold_set_get (region_at (with_masks_dir d1 cm)) E (Z.of_nat i + 1) []).
      * unfold E. rewrite (enumerate1_get order i old Hi). simpl.
        unfold region_at. simpl.
        destruct (proj1 (dict_get_in Z.eq_dec old (regions cm)) Hold_in) as (r & ->).
        reflexivity.
      * unfold dict_keys, E. rewrite enumerate1_fst. apply numbered_nodup.
    + unfold mask_file. simpl. rewrite Hd.
      rewrite (Hmoved2 (Old old) (Num (Z.of_nat i + 1))).
      * now apply Hold.
      * apply in_map_iff. exists (Z.of_nat i + 1, old). split; [reflexivity|].
        unfold E. replace (Z.of_nat i + 1) with (Z.of_nat (1 + i)) by lia.
        now apply in_enumerate.
Qed.

(** Three regions on a map of one column and 51 rows, whose masks have
    their only (hence topmost) pixel at [y = 50], [y = 10] and [y = 30]. *)
(** C8.  On a registry whose keys all have a mask file with a filled
    pixel, [sort_regions(fast_sort=True)] returns, and there is an order
    of the old keys, from top to bottom by the row of the topmost filled
    pixel of their masks (for two keys of the order, the least [y] of the
    pixels that are [0] in the mask of the earlier one is at most that of
    the later one), such that the new registry has the keys [1..N] and the
    region and the mask file of the new key [i] are the region and the
    mask file of the [i]-th old key of that order. *)
Theorem sort_regions_by_topmost (cm : ConquestMap) (d : directory) :
  masks_dir cm = Some d ->
  NoDup (dict_keys (regions cm)) ->
  (forall k, In k (dict_keys (regions cm)) ->
             exists m q, mask_file k cm = Some m /\
                         in_image m q = true /\ pix m q = 0) ->
  exists order cm',
    sort_regions true cm = (Ok tt, cm') /\
    Permutation order (dict_keys (regions cm)) /\
    StronglySorted (topmost_le cm) order /\
    dict_keys (regions cm') = numbered (length order) /\
    forall i old, nth_error order i = Some old ->
      dict_get Z.eq_dec (Z.of_nat i + 1) (regions cm')
      = dict_get Z.eq_dec old (regions cm) /\
      mask_file (Z.of_nat i + 1) cm' = mask_file old cm.
Proof.
  intros Hd Hnd Hfiles.
  assert (Hfiles' : forall k, In k (dict_keys (regions cm)) ->
            exists m, mask_file k cm = Some m /\ mask_points m <> []).
  { intros k Hk. destruct (Hfiles k Hk) as (m & q & Hm & Hq).
    exists m. split; [exact Hm|]. apply mask_points_nonempty. now exists q. }
  destruct (sort_regions_order cm d Hd Hnd Hfiles')
    as (order & cm' & Hrun & Hperm & Hsorted & Hkeys & Hnth).
  exists order, cm'. split; [exact Hrun|]. split; [exact Hperm|].
  split; [|split; [exact Hkeys|exact Hnth]].
  apply (strongly_sorted_in (fun a b => topmost_y cm a <= topmost_y cm b));
    [|exact Hsorted].
  intros a b Ha Hb Hab.
  destruct (Hfiles' a (Permutation_in a Hperm Ha)) as (ma & Hma & Hnea).
  destruct (Hfiles' b (Permutation_in b Hperm Hb)) as (mb & Hmb & Hneb).
  exists ma, mb, (snd (top_point ma)), (snd (top_point mb)).
  split; [exact Hma|]. split; [exact Hmb|].
  split; [now apply top_point_top_row|]. split; [now apply top_point_top_row|].
  unfold topmost_y in Hab. now rewrite Hma, Hmb in Hab.
Qed.

Definition tall_mask (y : Z) : image :=
  mkImage 1 51 (fun c => if snd c =? y then 0 else 255).

Definition sort_map : ConquestMap :=
  mkMap None None (Some 3)
        [(1, mkRegion (0, 50)%Q 1 [("name"%string, JStr "at y=50")]);
         (2, mkRegion (0, 10)%Q 1 [("name"%string, JStr "at y=10")]);
         (3, mkRegion (0, 30)%Q 1 [("name"%string, JStr "at y=30")])]
        (Some (mkImage 1 51 (fun _ => 255)))
        (Some [(Num 1, tall_mask 50); (Num 2, tall_mask 10); (Num 3, tall_mask 30)])
        None.

(** A mask of 2 by 61 pixels whose rows [lo..hi] are filled. *)
Definition band_mask (lo hi : Z) : image :=
  mkImage 2 61 (fun c => if (lo <=? snd c) && (snd c <=? hi) then 0 else 255).

(** Three regions of several rows each, whose topmost rows are [50], [10]
    and [30]. *)
Definition band_map : ConquestMap :=
  mkMap None None (Some 3)
        [(1, mkRegion (1 # 2, 55)%Q 22 [("name"%string, JStr "rows 50 to 60")]);
         (2, mkRegion (1 # 2, 15)%Q 22 [("name"%string, JStr "rows 10 to 20")]);
         (3, mkRegion (1 # 2, 35)%Q 22 [("name"%string, JStr "rows 30 to 40")])]
        (Some (mkImage 2 61 (fun _ => 255)))
        (Some [(Num 1, band_mask 50 60); (Num 2, band_mask 10 20);
               (Num 3, band_mask 30 40)])
        None.

Lemma sort_regions_by_topmost_witness :
  NoDup (dict_keys (regions band_map)) /\
  exists order cm',
    sort_regions true band_map = (Ok tt, cm') /\
    Permutation order (dict_keys (regions band_map)) /\
    StronglySorted (topmost_le band_map) order /\
    dict_keys (regions cm') = numbered (length order) /\
    forall i old, nth_error order i = Some old ->
      dict_get Z.eq_dec (Z.of_nat i + 1) (regions cm')
      = dict_get Z.eq_dec old (regions band_map) /\
      mask_file (Z.of_nat i + 1) cm' = mask_file old band_map.
Proof.
  assert (Hnd : NoDup (dict_keys (regions band_map))).
  { simpl. repeat constructor; simpl; intuition lia. }
  split; [exact Hnd|].
  apply (sort_regions_by_topmost band_map
           [(Num 1, band_mask 50 60); (Num 2, band_mask 10 20);
            (Num 3, band_mask 30 40)]).
  - reflexivity.
  - exact Hnd.
  - intros k [<-|[<-|[<-|[]]]].
    + exists (band_mask 50 60), (1, 57). repeat split; reflexivity.
    + exists (band_mask 10 20), (0, 13). repeat split; reflexivity.
    + exists (band_mask 30 40), (1, 40). repeat split; reflexivity.
Defined.

(** On [band_map] the regions whose topmost rows are [50], [10] and [30]
    receive the keys [3], [1] and [2], and the mask under each new key is
    the one of its region. *)
Example sort_regions_bands :
  fst (sort_regions true band_map) = Ok tt /\
  map (fun kr => (fst kr, data (snd kr))) (regions (snd (sort_regions true band_map)))
  = [(1, [("name"%string, JStr "rows 10 to 20")]);
     (2, [("name"%string, JStr "rows 30 to 40")]);
     (3, [("name"%string, JStr "rows 50 to 60")])] /\
  map (fun k => option_map (fun m => (pix m (0, 10), pix m (0, 30), pix m (0, 50)))
                           (mask_file k (snd (sort_regions true band_map))))
      [1; 2; 3]
  = [Some (0, 255, 255); Some (255, 0, 255); Some (255, 255, 0)].
Proof. vm_compute. repeat split; reflexivity. Qed.

(** The example of C8: the regions whose topmost pixels are at [y = 50],
    [y = 10] and [y = 30] receive the keys [3], [1] and [2], and each keeps
    its own mask under its new key. *)
Example sort_regions_50_10_30 :
  fst (sort_regions true sort_map) = Ok tt /\
  map (fun kr => (fst kr, data (snd kr))) (regions (snd (sort_regions true sort_map)))
  = [(1, [("name"%string, JStr "at y=10")]);
     (2, [("name"%string, JStr "at y=30")]);
     (3, [("name"%string, JStr "at y=50")])] /\
  map (topmost_y (snd (sort_regions true sort_map))) [1; 2; 3] = [10; 30; 50].
Proof. vm_compute. repeat split; reflexivity. Qed.

(** ** [prune_masks] on registries it was not written for *)

(** A registry whose dictionary lists the key [3] before the key [1] (as
    [load_data] builds it from a [data.json] that lists them so). *)
Definition unsorted_map : ConquestMap :=
  mkMap None None (Some 3)
        [(3, mkRegion (1, 0)%Q 1 [("name"%string, JStr "three")]);
         (1, mkRegion (0, 0)%Q 1 [("name"%string, JStr "one")])]
        (Some (mkImage 2 1 (fun _ => 255)))
        (Some [(Num 1, column_mask 0); (Num 3, column_mask 1)])
        None.

(** A registry without region, with one mask file left on disk. *)
Definition emptied_map : ConquestMap :=
  mkMap None None (Some 2) []
        (Some (mkImage 2 1 (fun _ => 255)))
        (Some [(Num 1, column_mask 0)])
        None.

(** C5.  On [unsorted_map] the walk of [prune_masks] follows the order of
    the dictionary, [3] then [1]: renaming [3.png] to [1.png] overwrites the
    mask of the region with key [1], which is not renamed yet.  Afterwards
    that region has the key [2] and the mask that belonged to region [3],
    and the region with the new key [1] has no mask file.  On
    [emptied_map], [prune_masks] deletes the orphan file and then raises
    [ValueError] instead of returning the pruned identifiers. *)
Theorem prune_masks_overwrites :
  (fst (prune_masks unsorted_map) = Ok [] /\
   map (fun kr => (fst kr, data (snd kr))) (regions (snd (prune_masks unsorted_map)))
   = [(1, [("name"%string, JStr "three")]); (2, [("name"%string, JStr "one")])] /\
   option_map mask_points (mask_file 1 unsorted_map) = Some [(0, 0)] /\
   option_map mask_points (mask_file 3 unsorted_map) = Some [(1, 0)] /\
   option_map mask_points (mask_file 2 (snd (prune_masks unsorted_map)))
   = Some [(1, 0)] /\
   mask_file 1 (snd (prune_masks unsorted_map)) = None) /\
  (fst (prune_masks emptied_map) = Raise ValueError /\
   masks_dir (snd (prune_masks emptied_map)) = Some []).
Proof. vm_compute. repeat split; reflexivity. Qed.

(** ** [prune_masks] on a registry in increasing key order *)

(** A mask file whose number is not a key of the registry. *)
Definition orphan (cm : ConquestMap) (s : stem) : bool :=
  match s with
  | Num k => negb (dict_mem Z.eq_dec k (regions cm))
  | Old _ => false
  end.

Lemma dict_mem_in {K V} (K_eq_dec : forall a b : K, {a = b} + {a <> b})
  (k : K) (d : dict K V) :
  In k (dict_keys d) <-> dict_mem K_eq_dec k d = true.
Proof.
  rewrite dict_get_in with (K_eq_dec := K_eq_dec). unfold dict_mem.
  destruct (dict_get K_eq_dec k d) as [v|].
  - split; [reflexivity|intros _; now exists v].
  - split; [intros [v Hv]; discriminate|discriminate].
Qed.

(** The directory after step 1. *)
Definition without_orphans (cm : ConquestMap) (stems : list stem) (d : directory)
  : directory :=
  fold_left (fun dd s => if orphan cm s then dict_del stem_eq_dec s dd else dd) stems d.

Lemma without_orphans_none (cm : ConquestMap) (stems : list stem) :
  forall (d : directory) (s : stem),
    dict_get stem_eq_dec s d = None ->
    dict_get stem_eq_dec s (without_orphans cm stems d) = None.
Proof.
  unfold without_orphans.
  induction stems as [|x stems IH]; intros d s H; simpl; [exact H|].
  apply IH. destruct (orphan cm x); [|exact H].
  destruct (stem_eq_dec x s) as [->|Hne];
    [apply dict_get_del_eq|now rewrite dict_get_del_ne].
Qed.

Lemma without_orphans_kept (cm : ConquestMap) (stems : list stem) :
  forall (d : directory) (s : stem),
    orphan cm s = false ->
    dict_get stem_eq_dec s (without_orphans cm stems d) = dict_get stem_eq_dec s d.
Proof.
  unfold without_orphans.
  induction stems as [|x stems IH]; intros d s H; simpl; [reflexivity|].
  rewrite (IH _ s H). destruct (orphan cm x) eqn:Hx; [|reflexivity].
  apply dict_get_del_ne. intros ->. congruence.
Qed.

Lemma without_orphans_deleted (cm : ConquestMap) (stems : list stem) :
  forall (d : directory) (s : stem),
    orphan cm s = true -> In s stems ->
    dict_get stem_eq_dec s (without_orphans cm stems d) = None.
Proof.
  induction stems as [|x stems IH]; intros d s H Hin; [contradiction|].
  destruct (stem_eq_dec x s) as [->|Hne].
  - unfold without_orphans. simpl. rewrite H.
    apply (without_orphans_none cm stems). apply dict_get_del_eq.
  - destruct Hin as [E|Hin]; [contradiction|].
    unfold without_orphans. simpl. now apply IH.
Qed.

Lemma unlink_mask_ok (s : stem) (cm : ConquestMap) (d : directory) :
  masks_dir cm = Some d -> dict_get stem_eq_dec s d <> None ->
  unlink_mask s cm = (Ok tt, with_masks_dir (dict_del stem_eq_dec s d) cm).
Proof.
  intros Hd Hs. unfold unlink_mask, bind, listdir. rewrite Hd.
  destruct (dict_get stem_eq_dec s d); [reflexivity|congruence].
Qed.

(** Step 1 deletes the orphans among the files and returns their names. *)
Lemma prune_files_run (stems : list stem) :
  forall (cm : ConquestMap) (d : directory) (acc : list stem),
    masks_dir cm = Some d ->
    (forall s, In s stems -> exists k, s = Num k) ->
    NoDup stems ->
    (forall s, In s stems -> dict_get stem_eq_dec s d <> None) ->
    for_fold stems prune_file acc cm
    = (Ok (acc ++ filter (orphan cm) stems),
       with_masks_dir (without_orphans cm stems d) cm).
Proof.
  induction stems as [|s stems IH]; intros cm d acc Hd Hnum Hnd Hex.
  - simpl. unfold ret. now rewrite app_nil_r, with_masks_dir_id.
  - destruct (Hnum s (or_introl eq_refl)) as (k & ->).
    apply NoDup_cons_iff in Hnd as [Hs Hnd].
    cbn [for_fold filter]. unfold without_orphans. cbn [fold_left].
    fold (without_orphans cm stems).
    destruct (orphan cm (Num k)) eqn:Ho.
    + assert (Hstep : prune_file acc (Num k) cm
                      = (Ok (acc ++ [Num k]),
                         with_masks_dir (dict_del stem_eq_dec (Num k) d) cm)).
      { unfold prune_file, bind at 1, lift, int_stem. unfold bind at 1, get.
        simpl in Ho. apply negb_true_iff in Ho. rewrite Ho.
        rewrite (bind_ok _ _ _ _ _
                   (unlink_mask_ok (Num k) cm d Hd (Hex _ (or_introl eq_refl)))).
        reflexivity. }
      rewrite (bind_ok _ _ _ _ _ Hstep).
      rewrite (IH (with_masks_dir (dict_del stem_eq_dec (Num k) d) cm)
                  (dict_del stem_eq_dec (Num k) d)); try reflexivity; auto.
      * now rewrite <- app_assoc.
      * intros s Hin. apply Hnum. now right.
      * intros s Hin. rewrite dict_get_del_ne; [apply Hex; now right|].
        intros E. apply Hs. now rewrite E.
    + assert (Hstep : prune_file acc (Num k) cm = (Ok acc, cm)).
      { unfold prune_file, bind at 1, lift, int_stem. unfold bind at 1, get.
        simpl in Ho. apply negb_false_iff in Ho. now rewrite Ho. }
      rewrite (bind_ok _ _ _ _ _ Hstep).
      apply IH; auto.
      * intros s Hin. apply Hnum. now right.
      * intros s Hin. apply Hex. now right.
Qed.

(** The renames of step 2 for the keys [ks], numbered from [start]. *)
Fixpoint prune_pairs (start : nat) (ks : list Z) : list (stem * stem) :=
  match ks with
  | [] => []
  | k :: ks' =>
      (if Z.of_nat start =? k then [] else [(Num k, Num (Z.of_nat start))])
      ++ prune_pairs (S start) ks'
  end.

Lemma prune_renames_run (R : list (Z * Region)) :
  forall (start : nat) (cm : ConquestMap) (d d' : directory) (acc : dict Z Region),
    masks_dir cm = Some d ->
    renames (prune_pairs start (map fst R)) d = Ok d' ->
    for_fold (combine (map Z.of_nat (seq start (length R))) R) prune_rename acc cm
    = (Ok (fold_left (fun acc e => dict_set Z.eq_dec (fst e) (snd (snd e)) acc)
                     (combine (map Z.of_nat (seq start (length R))) R) acc),
       with_masks_dir d' cm).
Proof.
  induction R as [|[k r] R IH]; intros start cm d d' acc Hd Hr.
  - injection Hr as <-. simpl. unfold ret. now rewrite with_masks_dir_id.
  - cbn [map fst prune_pairs] in Hr.
    cbn [length seq map combine for_fold fold_left fst snd].
    unfold prune_rename at 1.
    destruct (Z.of_nat start =? k) eqn:Hk.
    + simpl in Hr. unfold bind at 1, ret at 1. now apply (IH (S start) cm d d').
    + simpl in Hr.
      destruct (dir_rename (Num k) (Num (Z.of_nat start)) d) as [d1|] eqn:H1;
        [|discriminate].
      unfold bind at 1.
      rewrite (bind_ok _ _ _ _ _ (rename_mask_ok _ _ cm d d1 Hd H1)). unfold ret at 1.
      now rewrite (IH (S start) (with_masks_dir d1 cm) d1 d').
Qed.

(** In increasing key order, with every key at least its new number, no
    rename of step 2 hits the file of a key still to be renamed: the new
    name [start + j] receives the file of the [j]-th key. *)
Lemma prune_pairs_spec (ks : list Z) :
  forall (start : nat) (d : directory),
    StronglySorted Z.lt ks ->
    (forall k, In k ks -> Z.of_nat start <= k) ->
    (forall k, In k ks -> dict_get stem_eq_dec (Num k) d <> None) ->
    exists d',
      renames (prune_pairs start ks) d = Ok d' /\
      (forall j k, nth_error ks j = Some k ->
         dict_get stem_eq_dec (Num (Z.of_nat (start + j))) d'
         = dict_get stem_eq_dec (Num k) d) /\
      (forall s, (forall k, In k ks -> s <> Num k) ->
                 (forall j, (j < length ks)%nat -> s <> Num (Z.of_nat (start + j))) ->
                 dict_get stem_eq_dec s d' = dict_get stem_eq_dec s d).
Proof.
  induction ks as [|k ks IH]; intros start d Hs Hlow Hex.
  - exists d. split; [reflexivity|]. split; [intros [|j] k H; discriminate|auto].
  - inversion Hs as [|? ? Hs' Hlt]; subst. rewrite Forall_forall in Hlt.
    assert (Hk : Z.of_nat start <= k) by (apply Hlow; now left).
    assert (Hlow' : forall k', In k' ks -> Z.of_nat (S start) <= k').
    { intros k' Hk'. specialize (Hlt k' Hk'). lia. }
    cbn [prune_pairs].
    destruct (Z.of_nat start =? k) eqn:E.
    + apply Z.eqb_eq in E. simpl.
      destruct (IH (S start) d Hs' Hlow') as (d' & Hr & Hnew & Hframe).
      { intros k' Hk'. apply Hex. now right. }
      exists d'. split; [exact Hr|]. split.
      * intros [|j] k' Hj; simpl in Hj.
        -- injection Hj as <-. rewrite Hframe.
           ++ f_equal. f_equal. lia.
           ++ intros k' Hk' [= E']. specialize (Hlt k' Hk'). lia.
           ++ intros j Hj [= E']. lia.
        -- replace (start + S j)%nat with (S start + j)%nat by lia. now apply Hnew.
      * intros s Hs1 Hs2. apply Hframe.
        -- intros k' Hk'. apply Hs1. now right.
        -- intros j Hj. replace (S start + j)%nat with (start + S j)%nat by lia.
           apply Hs2. simpl. lia.
    + apply Z.eqb_neq in E. simpl.
      destruct (dir_rename_ok (Num k) (Num (Z.of_nat start)) d
                  (Hex k (or_introl eq_refl))) as (d1 & H1).
      rewrite H1.
      assert (Hget1 : forall s, s <> Num (Z.of_nat start) -> s <> Num k ->
                dict_get stem_eq_dec s d1 = dict_get stem_eq_dec s d).
      { intros s Hs1 Hs2. rewrite (dir_rename_get _ _ d d1 s H1).
        destruct (stem_eq_dec s (Num (Z.of_nat start))); [contradiction|].
        destruct (stem_eq_dec s (Num k)); [contradiction|reflexivity]. }
      destruct (IH (S start) d1 Hs' Hlow') as (d' & Hr & Hnew & Hframe).
      { intros k' Hk'. specialize (Hlt k' Hk'). rewrite Hget1.
        - apply Hex. now right.
        - intros [= E']. lia.
        - intros [= E']. lia. }
      exists d'. split; [exact Hr|]. split.
      * intros [|j] k' Hj; simpl in Hj.
        -- injection Hj as <-. rewrite Hframe.
           ++ rewrite (dir_rename_get _ _ d d1 _ H1).
              replace (start + 0)%nat with start by lia.
              destruct (stem_eq_dec (Num (Z.of_nat start)) (Num (Z.of_nat start)));
                congruence.
           ++ intros k' Hk' [= E']. specialize (Hlt k' Hk'). lia.
           ++ intros j Hj [= E']. lia.
        -- replace (start + S j)%nat with (S start + j)%nat by lia.
           rewrite (Hnew j k' Hj).
           assert (Hin : In k' ks) by (eapply nth_error_In; eauto).
           specialize (Hlt k' Hin). apply Hget1; intros [= E']; lia.
      * intros s Hs1 Hs2. rewrite Hframe.
        -- apply Hget1.
           ++ replace start with (start + 0)%nat by lia. apply Hs2. simpl. lia.
           ++ apply Hs1. now left.
        -- intros k' Hk'. apply Hs1. now right.
        -- intros j Hj. replace (S start + j)%nat with (start + S j)%nat by lia.
           apply Hs2. simpl. lia.
Qed.

(** X1.  On a registry whose keys are positive and listed in increasing order,
    with numeric mask names and one mask file per key, [prune_masks]
    returns the orphan names, renumbers the registry 1..N in order, keeps
    every region with its own mask under the new number, and sets
    [region_max] to N. *)
Theorem prune_masks_sorted (cm : ConquestMap) (d : directory) :
  masks_dir cm = Some d ->
  NoDup (dict_keys d) ->
  (forall s, In s (dict_keys d) -> exists k, s = Num k) ->
  StronglySorted Z.lt (dict_keys (regions cm)) ->
  (forall k, In k (dict_keys (regions cm)) -> 1 <= k) ->
  regions cm <> [] ->
  (forall k, In k (dict_keys (regions cm)) -> mask_file k cm <> None) ->
  exists cm',
    prune_masks cm = (Ok (filter (orphan cm) (dict_keys d)), cm') /\
    dict_keys (regions cm') = numbered (length (regions cm)) /\
    region_max cm' = Some (Z.of_nat (length (regions cm))) /\
    (forall j k r, nth_error (regions cm) j = Some (k, r) ->
       dict_get Z.eq_dec (Z.of_nat j + 1) (regions cm') = Some r /\
       mask_file (Z.of_nat j + 1) cm' = mask_file k cm) /\
    (forall s, orphan cm s = true -> In s (dict_keys d) ->
       (forall j, (j < length (regions cm))%nat -> s <> Num (Z.of_nat j + 1)) ->
       match masks_dir cm' with
       | Some d' => dict_get stem_eq_dec s d' = None
       | None => False
       end).
Proof.
  intros Hd Hnd Hnum Hsorted Hpos Hne Hfiles.
  set (R := regions cm) in *.
  set (d1 := without_orphans cm (dict_keys d) d).
  assert (Hex : forall s, In s (dict_keys d) -> dict_get stem_eq_dec s d <> None).
  { intros s Hs. destruct (proj1 (dict_get_in stem_eq_dec s d) Hs) as (v & ->).
    discriminate. }
  assert (Hkept : forall k, In k (dict_keys R) ->
            dict_get stem_eq_dec (Num k) d1 = dict_get stem_eq_dec (Num k) d).
  { intros k Hk. apply without_orphans_kept. simpl. fold R.
    apply negb_false_iff. now apply (dict_mem_in Z.eq_dec). }
  destruct (prune_pairs_spec (dict_keys R) 1 d1 Hsorted) as (d2 & Hr & Hnew & Hframe).
  { intros k Hk. specialize (Hpos k Hk). lia. }
  { intros k Hk. rewrite (Hkept k Hk). specialize (Hfiles k Hk).
    unfold mask_file in Hfiles. now rewrite Hd in Hfiles. }
  assert (Hkeys : dict_keys
            (fold_left (fun acc e => dict_set Z.eq_dec (fst e) (snd (snd e)) acc)
                       (enumerate1 R) []) = numbered (length R)).
  { rewrite (fold_set_keys (fun e => snd (snd e)) (enumerate1 R) []); simpl;
      rewrite enumerate1_fst; [reflexivity|apply numbered_nodup]. }
  assert (Hmax : py_max (numbered (length R)) = Ok (Z.of_nat (length R))).
  { destruct R as [|e R']; [congruence|]. cbn [length]. apply py_max_numbered. }
  eexists. split; [|split; [|split; [|split]]].
  - unfold prune_masks. unfold bind at 1, listdir. rewrite Hd.
    rewrite (bind_ok _ _ _ _ _
               (prune_files_run (dict_keys d) cm d [] Hd Hnum Hnd Hex)).
    cbn [app]. fold d1. unfold bind at 1, get.
    change (regions (with_masks_dir d1 cm)) with R.
    rewrite (bind_ok _ _ _ _ _
               (prune_renames_run R 1 (with_masks_dir d1 cm) d1 d2 [] eq_refl Hr)).
    fold (enumerate1 R).
    unfold bind at 1, set_regions. unfold bind at 1, lift.
    rewrite Hkeys, Hmax. reflexivity.
  - simpl. exact Hkeys.
  - reflexivity.
  - intros j k r Hj. split.
    + simpl. rewrite (fold_set_get snd (enumerate1 R) (Z.of_nat j + 1) []).
      * now rewrite (enumerate1_get R j (k, r) Hj).
      * unfold dict_keys. rewrite enumerate1_fst. apply numbered_nodup.
    + unfold mask_file. simpl. rewrite Hd.
      replace (Z.of_nat j + 1) with (Z.of_nat (1 + j)) by lia.
      assert (Hk : nth_error (dict_keys R) j = Some k).
      { unfold dict_keys. now rewrite nth_error_map, Hj. }
      rewrite (Hnew j k Hk). apply Hkept. eapply nth_error_In; eauto.
  - intros s Ho Hs Hfresh. simpl. rewrite Hframe.
    + now apply without_orphans_deleted.
    + intros k Hk ->. simpl in Ho. fold R in Ho.
      apply negb_true_iff in Ho. apply (dict_mem_in Z.eq_dec) in Hk. congruence.
    + intros j Hj. unfold dict_keys in Hj. rewrite length_map in Hj.
      replace (Z.of_nat (1 + j)) with (Z.of_nat j + 1) by lia. now apply Hfresh.
Qed.

(** ** The set filled by [floodfill] *)

(** [reach P a q]: [q] is reached from [a] by steps between 4-neighbours
    of the grid, each step entering a coordinate that satisfies [P]. *)
Inductive reach (P : point -> Prop) (a : point) : point -> Prop :=
| reach_start : reach P a a
| reach_step (p q : point) :
    reach P a p -> In q (neighbours p) -> P q -> reach P a q.

Lemma reach_mono (P Q : point -> Prop) (a q : point) :
  (forall x, P x -> Q x) -> reach P a q -> reach Q a q.
Proof.
  intros H Hr. induction Hr as [|p q Hr IH Hn Hq]; [constructor|].
  apply reach_step with (p := p); auto.
Qed.

(** A path may leave out its returns to the start. *)
Lemma reach_avoid_start (P : point -> Prop) (a q : point) :
  reach P a q -> reach (fun x => P x /\ x <> a) a q.
Proof.
  intros Hr. induction Hr as [|p q Hr IH Hn Hq]; [constructor|].
  destruct (point_eq_dec q a) as [->|Hne]; [constructor|].
  apply reach_step with (p := p); auto.
Qed.

(** Every coordinate of a path satisfies [P] and is itself reached. *)
Lemma reach_within (P : point -> Prop) (a q : point) :
  reach P a q -> reach (fun x => P x /\ reach P a x) a q.
Proof.
  intros Hr. induction Hr as [|p q Hr IH Hn Hq]; [constructor|].
  apply reach_step with (p := p); [exact IH|exact Hn|].
  split; [exact Hq|]. apply reach_step with (p := p); auto.
Qed.

Lemma neighbours_sym (p q : point) : In q (neighbours p) -> In p (neighbours q).
Proof.
  destruct p as [x y], q as [s t]. simpl.
  intros [E|[E|[E|[E|[]]]]]; injection E as <- <-.
  - right. left. f_equal. lia.
  - left. f_equal. lia.
  - right. right. right. left. f_equal. lia.
  - right. right. left. f_equal. lia.
Qed.

Section FloodfillComponent.

Variable value : Z.
Variable border : option Z.
Variable thresh : Z.
Variable background : Z.

Local Abbreviation fill_test' := (fill_test value border thresh background).
Local Abbreviation visit' := (visit value border thresh background).
Local Abbreviation visit_around' := (visit_around value border thresh background).
Local Abbreviation sweep' := (sweep value border thresh background).
Local Abbreviation floodfill_loop' := (floodfill_loop value border thresh background).

Hypothesis value_not_filled : fill_test' value = false.

(** The grid when the loop is entered, and the seed. *)
Variable ims : image.
Variable seed : point.

(** A pixel of the grid that the fill test accepts. *)
Definition open_at (q : point) : Prop :=
  in_image ims q = true /\ fill_test' (pix ims q) = true.

(** A pixel that the fill test refuses: it is never written. *)
Definition settled (im : image) (q : point) : Prop :=
  fill_test' (pix im q) = false.

Lemma settled_store (im : image) (c q : point) :
  settled im q -> settled (store im c value) q.
Proof.
  unfold settled. rewrite pix_store.
  destruct (point_eq_dec q c); [intros _; exact value_not_filled|auto].
Qed.

Definition grid (st : sweep_state) : image := fst (fst st).

(** Invariant of one pass over the edge; [X] is [filled_pixels] after
    [filled_pixels.update(edge)]. *)
Definition pass_inv (X : pset) (st : sweep_state) : Prop :=
  let '(im, full_edge, new_edge) := st in
  grows value ims im /\
  (forall q, In q X \/ In q new_edge -> in_image ims q = true /\ pix im q = value) /\
  (forall q, In q full_edge -> settled im q) /\
  (forall q, pix im q <> pix ims q -> In q X \/ In q new_edge) /\
  (forall q, In q new_edge -> reach open_at seed q) /\
  NoDup new_edge.

Lemma visit_pass (X : pset) (st : sweep_state) (p q : point) :
  pass_inv X st -> reach open_at seed p -> In q (neighbours p) ->
  pass_inv X (visit' st q) /\
  (forall x, settled (grid st) x -> settled (grid (visit' st q)) x) /\
  (in_image ims q = true -> settled (grid (visit' st q)) q).
Proof.
  destruct st as [[im fe] ne]. intros (Hg & Hv & Hs & Hc & Hr & Hn) Hp Hin.
  pose proof Hg as (Hw & Hh & Hpix).
  unfold visit, grid.
  destruct (pset_mem q fe || (fst q <? 0) || (snd q <? 0)) eqn:Eskip.
  { split; [repeat split; auto; apply Hv; auto|]. split; [auto|]. simpl. intros Hq.
    apply orb_prop in Eskip as [Eskip|Ey].
    - apply orb_prop in Eskip as [Emem|Ex].
      + apply Hs. now apply (set_mem_correct1 point_eq_dec).
      + unfold in_image in Hq. repeat (apply andb_prop in Hq as [Hq ?]). lia.
    - unfold in_image in Hq. repeat (apply andb_prop in Hq as [Hq ?]). lia. }
  apply orb_false_elim in Eskip as [Eskip Ey].
  apply orb_false_elim in Eskip as [_ Ex].
  destruct (locate im q) as [c|e] eqn:Hloc.
  2:{ split; [repeat split; auto; apply Hv; auto|]. split; [auto|]. simpl. intros Hq.
      rewrite <- (in_image_size ims im q Hw Hh) in Hq.
      rewrite (locate_inside im q Hq) in Hloc. discriminate. }
  assert (c = q) by (apply (locate_nonneg im q c); [lia|lia|exact Hloc]). subst c.
  assert (Hqin : in_image ims q = true).
  { rewrite <- (in_image_size ims im q Hw Hh). now apply locate_in_image with (xy := q). }
  destruct (fill_test' (pix im q)) eqn:Hf; cbn [fst snd].
  - assert (Hsame : pix im q = pix ims q).
    { destruct (Hpix q) as [E|E]; [exact E|].
      rewrite E, value_not_filled in Hf. discriminate. }
    split; [|split].
    + split; [|split; [|split; [|split; [|split]]]].
      * split; [exact Hw|]. split; [exact Hh|]. intros x. rewrite pix_store.
        destruct (point_eq_dec x q); [now right|apply Hpix].
      * intros x Hx. rewrite pix_store.
        destruct (point_eq_dec x q) as [->|Hne]; [now split|].
        apply Hv. destruct Hx as [Hx|Hx]; [now left|right].
        apply set_add_elim in Hx as [Hx|Hx]; [contradiction|exact Hx].
      * intros x Hx. apply set_add_elim in Hx as [->|Hx].
        -- unfold settled. rewrite pix_store.
           destruct (point_eq_dec q q); [exact value_not_filled|congruence].
        -- apply settled_store. now apply Hs.
      * intros x. rewrite pix_store.
        destruct (point_eq_dec x q) as [->|Hne].
        -- intros _. right. now apply set_add_intro2.
        -- intros Hx. destruct (Hc x Hx) as [H|H]; [now left|right].
           now apply set_add_intro1.
      * intros x Hx. apply set_add_elim in Hx as [->|Hx]; [|now apply Hr].
        apply reach_step with (p := p); [exact Hp|exact Hin|].
        split; [exact Hqin|]. now rewrite <- Hsame.
      * now apply set_add_nodup.
    + intros x. apply settled_store.
    + intros _. unfold settled. rewrite pix_store.
      destruct (point_eq_dec q q); [exact value_not_filled|congruence].
  - split; [|split; [auto|intros _; exact Hf]].
    repeat split; auto; try (apply Hv; auto).
    intros x Hx. apply set_add_elim in Hx as [->|Hx]; [exact Hf|now apply Hs].
Qed.

Lemma fold_visit_pass (X : pset) (p : point) (l : list point) :
  (forall q, In q l -> In q (neighbours p)) ->
  reach open_at seed p ->
  forall st : sweep_state,
    pass_inv X st ->
    pass_inv X (fold_left visit' l st) /\
    (forall x, settled (grid st) x -> settled (grid (fold_left visit' l st)) x) /\
    (forall q, In q l -> in_image ims q = true ->
               settled (grid (fold_left visit' l st)) q).
Proof.
  intros Hl Hp. induction l as [|a l IH]; intros st Hst.
  - simpl. split; [exact Hst|]. split; [auto|intros q []].
  - cbn [fold_left].
    destruct (visit_pass X st p a Hst Hp (Hl a (or_introl eq_refl)))
      as (H1 & Hmono1 & Ha).
    destruct (IH (fun q Hq => Hl q (or_intror Hq)) (visit' st a) H1)
      as (H2 & Hmono2 & Hrest).
    split; [exact H2|]. split; [auto|].
    intros q [<-|Hq] Hin; [apply Hmono2, Ha, Hin|now apply Hrest].
Qed.

Lemma fold_around_pass (X : pset) (edge : list point) :
  (forall p, In p edge -> reach open_at seed p) ->
  forall st : sweep_state,
    pass_inv X st ->
    pass_inv X (fold_left visit_around' edge st) /\
    (forall x, settled (grid st) x ->
               settled (grid (fold_left visit_around' edge st)) x) /\
    (forall p q, In p edge -> In q (neighbours p) -> in_image ims q = true ->
                 settled (grid (fold_left visit_around' edge st)) q).
Proof.
  induction edge as [|a edge IH]; intros Hedge st Hst.
  - simpl. split; [exact Hst|]. split; [auto|intros p q []].
  - cbn [fold_left]. unfold visit_around at 2 4 6.
    destruct (fold_visit_pass X a (neighbours a) (fun q Hq => Hq)
                (Hedge a (or_introl eq_refl)) st Hst) as (H1 & Hmono1 & Ha).
    destruct (IH (fun p Hp => Hedge p (or_intror Hp)) _ H1) as (H2 & Hmono2 & Hrest).
    split; [exact H2|]. split; [auto|].
    intros p q [<-|Hp] Hq Hin; [apply Hmono2, Ha; assumption|now apply Hrest with (p := p)].
Qed.

(** Invariant of the [while edge:] loop. *)
Definition fill_inv (im : image) (edge full_edge filled : pset) : Prop :=
  grows value ims im /\
  (forall q, In q edge \/ In q full_edge \/ In q filled ->
             in_image ims q = true /\ pix im q = value) /\
  (forall p q, In p filled -> In q (neighbours p) -> in_image ims q = true ->
               settled im q) /\
  (forall q, pix im q <> pix ims q -> In q edge \/ In q filled) /\
  (forall q, In q edge \/ In q filled -> reach open_at seed q) /\
  NoDup edge /\ NoDup filled.

Lemma floodfill_loop_fill (fuel : nat) :
  forall (im : image) (edge full_edge filled : pset) (r : image * pset),
    fill_inv im edge full_edge filled ->
    floodfill_loop' fuel im edge full_edge filled = Some r ->
    fill_inv (fst r) [] [] (snd r) /\
    forall q, In q edge \/ In q filled -> In q (snd r).
Proof.
  induction fuel as [|fuel IH];
    intros im edge fe filled r (Hg & Hv & Hcl & Hc & Hr & Hne & Hnf) Hloop.
  - destruct edge; [|discriminate]. injection Hloop as <-. simpl.
    split; [|intros q [[]|H]; exact H].
    repeat split; auto; try apply Hg; try (apply Hv; tauto); constructor.
  - destruct edge as [|p0 edge].
    { injection Hloop as <-. simpl. split; [|intros q [[]|H]; exact H].
      repeat split; auto; try apply Hg; try (apply Hv; tauto); constructor. }
    cbn [floodfill_loop] in Hloop.
    set (E := p0 :: edge) in *. set (X := pset_update filled E) in *.
    assert (HX : forall q, In q X <-> In q filled \/ In q E).
    { intros q. unfold X, pset_update. split;
        [apply set_union_elim|apply set_union_intro]. }
    assert (H0 : pass_inv X (im, fe, [])).
    { split; [exact Hg|]. split; [|split; [|split; [|split]]].
      - intros q [Hq|[]]. apply HX in Hq. apply Hv. tauto.
      - intros q Hq. unfold settled. destruct (Hv q) as [_ ->]; [tauto|].
        exact value_not_filled.
      - intros q Hq. left. apply HX. destruct (Hc q Hq); tauto.
      - intros q [].
      - constructor. }
    destruct (fold_around_pass X E (fun p Hp => Hr p (or_introl Hp)) _ H0)
      as (H1 & Hmono & Haround).
    fold (sweep' im E fe) in H1, Hmono, Haround.
    destruct (sweep' im E fe) as [[im' fe'] ne].
    destruct H1 as (Hg' & Hv' & _ & Hc' & Hr' & Hn').
    unfold grid in Hmono, Haround. cbn [fst snd] in Hmono, Haround.
    destruct (IH im' ne E X r) as (Hfin & Hsub); [|exact Hloop|].
    { split; [exact Hg'|]. split; [|split; [|split; [|split; [|split]]]].
      - intros q [Hq|[Hq|Hq]]; apply Hv'; [now right| |now left].
        left. apply HX. now right.
      - intros p q Hp Hq Hin. apply HX in Hp as [Hp|Hp].
        + apply Hmono. now apply Hcl with (p := p).
        + now apply Haround with (p := p).
      - intros q Hq. destruct (Hc' q Hq); tauto.
      - intros q [Hq|Hq]; [now apply Hr'|]. apply Hr. apply HX in Hq. tauto.
      - exact Hn'.
      - unfold X, pset_update. now apply set_union_nodup. }
    split; [exact Hfin|]. intros q Hq. apply Hsub. right. apply HX. tauto.
Qed.

End FloodfillComponent.

Lemma value_refused (value : Z) (border : option Z) (thresh background : Z) :
  (_color_diff value background <=? thresh) = false ->
  fill_test value border thresh background value = false.
Proof.
  intros H. unfold fill_test. destruct border as [b|]; [|exact H].
  now rewrite Z.eqb_refl.
Qed.

Lemma floodfill_loop_grows (value : Z) (border : option Z) (thresh background : Z)
      (im0 : image) (fuel : nat) :
  fill_test value border thresh background value = false ->
  forall (im : image) (edge full_edge filled : pset) (r : image * pset),
    grows value im0 im ->
    floodfill_loop value border thresh background fuel im edge full_edge filled = Some r ->
    grows value im0 (fst r).
Proof.
  intros Hv. induction fuel as [|fuel IH]; intros im edge fe filled r Hg Hr.
  - destruct edge; [|discriminate]. now injection Hr as <-.
  - destruct edge as [|p edge]; [now injection Hr as <-|].
    cbn [floodfill_loop] in Hr.
    assert (Hs := sweep_keeps value border thresh background Hv im0 im [] (p :: edge) fe Hg).
    destruct (sweep value border thresh background im (p :: edge) fe) as [[im' fe'] ne].
    destruct Hs as [Hg' _]; [intros q []|].
    exact (IH im' ne (p :: edge) _ r Hg' Hr).
Qed.

(** What [floodfill] does from a seed [xy] of the grid whose pixel is not
    within [thresh] of the fill value: the returned coordinates are those
    reached from [xy] by steps between 4-neighbours, each step entering a
    pixel of the grid that the fill test accepts in the grid as it was
    before the call. *)
Lemma floodfill_fills (im : image) (xy : point) (value : Z)
        (border : option Z) (thresh : Z) (im' : image) (filled : pset) :
  in_image im xy = true ->
  thresh < _color_diff value (pix im xy) ->
  floodfill im xy value border thresh = (im', filled) ->
  (forall q,
     In q filled <->
     reach (fun x => in_image im x = true /\
                     fill_test value border thresh (pix im xy) (pix im x) = true)
           xy q) /\
  NoDup filled /\
  width im' = width im /\ height im' = height im /\
  forall q, pix im' q = if pset_mem q filled then value else pix im q.
Proof.
  intros Hin Hseed. unfold floodfill. rewrite (locate_inside im xy Hin).
  apply Z.leb_gt in Hseed. rewrite Hseed.
  assert (Hfuel : exists r,
            floodfill_loop value border thresh (pix im xy)
              (S (length (coords im))) (store im xy value) [xy] [] [] = Some r).
  { apply floodfill_loop_fuel.
    - unfold fill_test. destruct border as [b|]; [|exact Hseed].
      now rewrite Z.eqb_refl.
    - unfold fillable. rewrite coords_store.
      apply Nat.lt_succ_r, List.filter_length_le. }
  destruct Hfuel as (r & Hloop).
  rewrite Hloop. intros ->.
  set (bg := pix im xy) in *. set (ims := store im xy value) in *.
  assert (Hv := value_refused value border thresh bg Hseed).
  assert (Hims : forall q, q <> xy -> pix ims q = pix im q).
  { intros q Hq. unfold ims. rewrite pix_store.
    destruct (point_eq_dec q xy); [contradiction|reflexivity]. }
  assert (Hxy : pix ims xy = value).
  { unfold ims. rewrite pix_store. destruct (point_eq_dec xy xy); congruence. }
  destruct (floodfill_loop_fill value border thresh bg Hv ims xy
              (S (length (coords im))) ims [xy] [] [] (im', filled))
    as ((Hg & Hval & Hcl & Hch & Hr & _ & Hnd) & Hsub); [|exact Hloop|].
  { split; [repeat split; auto|]. split; [|split; [|split; [|split; [|split]]]].
    - intros q [[<-|[]]|[[]|[]]]. split; [exact Hin|exact Hxy].
    - intros p q [].
    - intros q Hq. congruence.
    - intros q [[<-|[]]|[]]. constructor.
    - repeat constructor. intros [].
    - constructor. }
  cbn [fst snd] in *.
  assert (Hseed_in : In xy filled) by (apply Hsub; left; now left).
  split; [|split; [exact Hnd|split; [apply Hg|split; [apply Hg|]]]].
  - intros q. split.
    + intros Hq. apply reach_mono with (P := open_at value border thresh bg ims);
        [|apply Hr; now right].
      intros x [Hx Hf]. destruct (point_eq_dec x xy) as [->|Hne].
      * rewrite Hxy, Hv in Hf. discriminate.
      * rewrite (Hims x Hne) in Hf. split; [exact Hx|exact Hf].
    + intros Hq. apply reach_avoid_start in Hq.
      induction Hq as [|p q Hq IH Hn [[Hqin Hf] Hne]]; [exact Hseed_in|].
      assert (Hset := Hcl p q IH Hn Hqin). unfold settled in Hset.
      destruct (Hch q) as [[]|H]; [|exact H].
      intros E. rewrite E, (Hims q Hne), Hf in Hset. discriminate.
  - intros q. destruct (pset_mem q filled) eqn:Hmem.
    + apply (set_mem_correct1 point_eq_dec) in Hmem.
      apply Hval. right. now right.
    + apply (set_mem_complete1 point_eq_dec) in Hmem.
      assert (Hne : q <> xy) by (intros ->; contradiction).
      rewrite <- (Hims q Hne).
      destruct (Z.eq_dec (pix im' q) (pix ims q)) as [E|E]; [exact E|].
      destruct (Hch q E) as [[]|H]. contradiction.
Qed.

(** X9.  From a seed of the grid whose pixel is not within [thresh] of
    the fill value, [floodfill] returns the 4-connected component of the
    seed.  The seed is returned; every other returned coordinate is a pixel
    of the grid that passed the fill test and is joined to the seed by
    4-neighbour steps through returned coordinates; a 4-neighbour of a
    returned coordinate that is a pixel of the grid passing the fill test
    is returned too; no coordinate is returned twice; and the grid is
    rewritten with the fill value at the returned coordinates only. *)
Theorem floodfill_component (im : image) (xy : point) (value : Z)
        (border : option Z) (thresh : Z) (im' : image) (filled : pset) :
  in_image im xy = true ->
  thresh < _color_diff value (pix im xy) ->
  floodfill im xy value border thresh = (im', filled) ->
  In xy filled /\ NoDup filled /\
  (forall q, In q filled -> q <> xy ->
     in_image im q = true /\
     fill_test value border thresh (pix im xy) (pix im q) = true) /\
  (forall q, In q filled -> reach (fun x => In x filled) xy q) /\
  (forall p q, In p filled -> In q (neighbours p) -> in_image im q = true ->
     fill_test value border thresh (pix im xy) (pix im q) = true ->
     In q filled) /\
  width im' = width im /\ height im' = height im /\
  (forall q, In q filled -> pix im' q = value) /\
  (forall q, ~ In q filled -> pix im' q = pix im q).
Proof.
  intros Hin Hseed Hfill.
  destruct (floodfill_fills im xy value border thresh im' filled Hin Hseed Hfill)
    as (Hcomp & Hnd & Hw & Hh & Hpix).
  split; [apply Hcomp; constructor|]. split; [exact Hnd|].
  split; [|split; [|split; [|split; [exact Hw|split; [exact Hh|split]]]]].
  - intros q Hq Hne. apply Hcomp in Hq.
    destruct Hq as [|p q _ _ Hq]; [contradiction|exact Hq].
  - intros q Hq. apply Hcomp, reach_within in Hq.
    eapply reach_mono; [|exact Hq]. intros x [_ Hx]. now apply Hcomp.
  - intros p q Hp Hn Hq Hf. apply Hcomp.
    apply reach_step with (p := p); [now apply Hcomp|exact Hn|now split].
  - intros q Hq. rewrite Hpix. unfold pset_mem.
    now rewrite (set_mem_correct2 point_eq_dec _ _ Hq).
  - intros q Hq. rewrite Hpix. unfold pset_mem.
    now rewrite (set_mem_complete2 point_eq_dec _ _ Hq).
Qed.

(** X10.  Filling again from the same seed with the same colour does
    nothing: for a threshold that is not negative, a second [floodfill] on
    the grid left by the first returns the empty set and leaves that grid
    as it is, whatever the seed. *)
Theorem floodfill_again (im : image) (xy : point) (value : Z)
        (border : option Z) (thresh : Z) (im' : image) (filled : pset) :
  0 <= thresh ->
  floodfill im xy value border thresh = (im', filled) ->
  floodfill im' xy value border thresh = (im', []).
Proof.
  intros Ht Hfill. pose proof Hfill as Hfill0. unfold floodfill in Hfill.
  destruct (locate im xy) as [c|e] eqn:Hloc;
    [|injection Hfill as <- <-; exact Hfill0].
  destruct (_color_diff value (pix im c) <=? thresh) eqn:Hseed;
    [injection Hfill as <- <-; exact Hfill0|].
  destruct (floodfill_loop value border thresh (pix im c)
              (S (length (coords im))) (store im c value) [xy] [] [])
    as [r|] eqn:Hloop; [|injection Hfill as <- <-; exact Hfill0].
  subst r.
  assert (Hg : grows value (store im c value) im').
  { apply (floodfill_loop_grows value border thresh (pix im c) (store im c value)
             (S (length (coords im))) (value_refused _ _ _ _ Hseed)
             (store im c value) [xy] [] [] (im', filled)); [|exact Hloop].
    repeat split; auto. }
  destruct Hg as (Hw & Hh & Hp).
  assert (Hloc' : locate im' xy = Ok c).
  { unfold locate, in_image in *. rewrite Hw, Hh. exact Hloc. }
  assert (Hc : pix im' c = value).
  { destruct (Hp c) as [E|E]; [|exact E]. rewrite E, pix_store.
    destruct (point_eq_dec c c); congruence. }
  unfold floodfill. rewrite Hloc', Hc. unfold _color_diff.
  rewrite Z.sub_diag. simpl. apply Z.leb_le in Ht. now rewrite Ht.
Qed.

(** ** The regions found by [Regioner.execute] *)

Lemma grows_refl (value : Z) (im : image) : grows value im im.
Proof. repeat split; auto. Qed.

Lemma grows_trans (value : Z) (im1 im2 im3 : image) :
  grows value im1 im2 -> grows value im2 im3 -> grows value im1 im3.
Proof.
  intros (Hw1 & Hh1 & Hp1) (Hw2 & Hh2 & Hp2).
  split; [congruence|]. split; [congruence|]. intros q.
  destruct (Hp2 q) as [E|E]; [rewrite E; apply Hp1|now right].
Qed.

Lemma grows_keeps (value : Z) (im1 im2 : image) (q : point) :
  grows value im1 im2 -> pix im1 q = value -> pix im2 q = value.
Proof. intros (_ & _ & Hp) H. destruct (Hp q); congruence. Qed.

(** A loop whose body keeps [I], moves the state along the preorder [R]
    and establishes [Q a], which later steps along [R] keep. *)
Lemma for_each_post {S A} (I : S -> Prop) (R : S -> S -> Prop) (Q : A -> S -> Prop)
      (body : A -> M S unit) (l : list A) :
  (forall s, R s s) ->
  (forall s1 s2 s3, R s1 s2 -> R s2 s3 -> R s1 s3) ->
  (forall a s s', Q a s -> R s s' -> Q a s') ->
  (forall a s s', In a l -> I s -> body a s = (Ok tt, s') -> I s' /\ R s s' /\ Q a s') ->
  forall s s', I s -> for_each l body s = (Ok tt, s') ->
               I s' /\ R s s' /\ forall a, In a l -> Q a s'.
Proof.
  intros Hrefl Htrans Hkeep. induction l as [|a l IH]; intros Hbody s s' Hs Hrun.
  - injection Hrun as <-. split; [exact Hs|]. split; [apply Hrefl|intros a []].
  - cbn [for_each] in Hrun. unfold bind in Hrun.
    destruct (body a s) as [[[]|e] s1] eqn:Ha; [|discriminate].
    destruct (Hbody a s s1 (or_introl eq_refl) Hs Ha) as (Hs1 & HR1 & HQ1).
    destruct (IH (fun b t t' Hb => Hbody b t t' (or_intror Hb)) s1 s' Hs1 Hrun)
      as (Hs' & HR' & HQ').
    split; [exact Hs'|]. split; [now apply Htrans with (s2 := s1)|].
    intros b [<-|Hb]; [now apply Hkeep with (s := s1)|now apply HQ'].
Qed.

(** The slices of the two [chunker] calls of [execute] cover the range. *)
Lemma chunker_range (w : Z) (cs : list (list Z)) :
  chunker (range w) (w / 10) = Ok cs -> concat cs = range w.
Proof.
  intros H. destruct (Z_lt_le_dec 0 (w / 10)) as [Hpos|Hneg].
  - unfold chunker in H. destruct (w / 10 =? 0) eqn:E0; [discriminate|].
    destruct (w / 10 <? 0) eqn:E1; [lia|].
    injection H as <-. apply chunks_concat; lia.
  - unfold chunker in H. destruct (w / 10 =? 0) eqn:E0; [discriminate|].
    apply Z.eqb_neq in E0. destruct (w / 10 <? 0) eqn:E1; [|lia].
    injection H as <-. simpl. unfold range.
    assert (w < 0).
    { destruct (Z_lt_le_dec w 0) as [Hw|Hw]; [exact Hw|].
      assert (0 <= w / 10) by (apply Z.div_pos; lia). lia. }
    now replace (Z.to_nat w) with 0%nat by lia.
Qed.

(** What the scan has recorded for one region: its mask [m] and its entry
    [r] in the mapping.  [filled] is the set that [floodfill] returned. *)
Definition region_ok (base : image) (wall : Z) (working m : image) (r : Region)
  : Prop :=
  exists filled : pset,
    NoDup filled /\ filled <> [] /\
    (forall q, pix m q = 0 <-> In q filled) /\
    width m = width base /\ height m = height base /\
    (forall q, In q filled ->
       in_image base q = true /\ pix base q <> wall /\ pix working q = wall) /\
    (forall p q, In p filled -> In q (neighbours p) ->
       in_image base q = true -> pix base q <> wall -> In q filled) /\
    (exists s, In s filled /\
               forall q, In q filled -> reach (fun x => In x filled) s q) /\
    weight r = Z.of_nat (length filled) /\
    get_center (map qpoint filled) = Ok (center r) /\
    data r = [].

(** Invariant of the scan, relative to the base image as it was opened. *)
Definition scan_parts (base : image) (wall : Z) (st : scan) : Prop :=
  exists n : nat,
    mask_count st = Z.of_nat n /\
    dict_keys (scan_regions st) = numbered n /\
    grows wall base (base_img st) /\
    (forall q, In q (already_processed st) -> pix (base_img st) q = wall) /\
    (forall q, pix (base_img st) q <> pix base q ->
       exists k m, In k (numbered n) /\
                   dict_get stem_eq_dec (Num k) (scan_masks st) = Some m /\
                   pix m q = 0) /\
    (forall k, In k (numbered n) ->
       exists m r,
         dict_get stem_eq_dec (Num k) (scan_masks st) = Some m /\
         dict_get Z.eq_dec k (scan_regions st) = Some r /\
         region_ok base wall (base_img st) m r).

Lemma region_ok_grows (base : image) (wall : Z) (w1 w2 m : image) (r : Region) :
  grows wall w1 w2 -> region_ok base wall w1 m r -> region_ok base wall w2 m r.
Proof.
  intros Hg (filled & H1 & H2 & H3 & H4 & H5 & H6 & H7).
  exists filled. repeat (split; [assumption|]). split; [|exact H7].
  intros q Hq. destruct (H6 q Hq) as (Ha & Hb & Hc).
  split; [exact Ha|]. split; [exact Hb|]. now apply (grows_keeps wall w1 w2).
Qed.

Lemma scan_parts_init (base : image) (wall : Z) (d : directory) :
  scan_parts base wall (mkScan base [] 0 [] d).
Proof.
  exists 0%nat. simpl. split; [reflexivity|]. split; [reflexivity|].
  split; [apply grows_refl|]. split; [intros q []|].
  split; [intros q Hq; congruence|intros k []].
Qed.

(** The pixels that [floodfill] returns in [execute]: the seed, and pixels
    that did not hold the wall colour. *)
Lemma reach_not_wall (im : image) (wall bg : Z) (xy q : point) :
  in_image im xy = true -> pix im xy <> wall ->
  reach (fun x => in_image im x = true /\
                  fill_test wall (Some wall) 0 bg (pix im x) = true) xy q ->
  in_image im q = true /\ pix im q <> wall.
Proof.
  intros Hin Hne Hr. destruct Hr as [|p q _ _ [Hq Hf]]; [now split|].
  split; [exact Hq|]. intros E. unfold fill_test in Hf.
  rewrite E, Z.eqb_refl in Hf. discriminate.
Qed.

(** The three ways [scan_pixel] returns at a pixel of the grid. *)
Lemma scan_pixel_run (rg : Regioner) (y1 x1 : Z) (st st' : scan) :
  in_image (base_img st) (x1, y1) = true ->
  scan_pixel rg y1 x1 st = (Ok tt, st') ->
  (st' = st /\
   (In (x1, y1) (already_processed st) \/
    is_seed rg (pix (base_img st) (x1, y1)) = false))
  \/
  (st' = mkScan (base_img st) (already_processed st) (mask_count st)
                (scan_regions st) (scan_masks st) /\
   is_seed rg (pix (base_img st) (x1, y1)) = true /\
   pix (base_img st) (x1, y1) = wall_color rg)
  \/
  (pix (base_img st) (x1, y1) <> wall_color rg /\
   exists im filled mask c,
     floodfill (base_img st) (x1, y1) (wall_color rg) (Some (wall_color rg)) 0
     = (im, filled) /\
     In (x1, y1) filled /\
     width mask = width (base_img st) /\ height mask = height (base_img st) /\
     (forall q, pix mask q = 0 <-> In q filled) /\
     get_center (map qpoint filled) = Ok c /\
     st' = mkScan im (pset_update (already_processed st) filled)
                  (mask_count st + 1)
                  (dict_set Z.eq_dec (mask_count st + 1)
                     (mkRegion c (Z.of_nat (length filled)) []) (scan_regions st))
                  (dict_set stem_eq_dec (Num (mask_count st + 1)) mask
                     (scan_masks st))).
Proof.
  intros Hin Hrun. unfold scan_pixel, bind, get, lift, put, ret in Hrun.
  destruct (pset_mem (x1, y1) (already_processed st)) eqn:Hmem.
  { injection Hrun as <-. left. split; [reflexivity|left].
    now apply (set_mem_correct1 point_eq_dec). }
  unfold getpixel in Hrun. rewrite (locate_inside _ _ Hin) in Hrun.
  set (p := pix (base_img st) (x1, y1)) in *.
  destruct (is_seed rg p) eqn:Hseed;
    [|injection Hrun as <-; left; split; [reflexivity|now right]].
  right.
  destruct (floodfill (base_img st) (x1, y1) (wall_color rg) (Some (wall_color rg)) 0)
    as [im filled] eqn:Hfill.
  destruct (Z.eq_dec p (wall_color rg)) as [Hp|Hp].
  - left. unfold floodfill in Hfill. rewrite (locate_inside _ _ Hin) in Hfill.
    fold p in Hfill. rewrite Hp in Hfill. unfold _color_diff in Hfill.
    rewrite Z.sub_diag in Hfill. simpl in Hfill. injection Hfill as <- <-.
    injection Hrun as <-. now repeat split.
  - right. split; [exact Hp|].
    assert (Hdiff : 0 < _color_diff (wall_color rg) p).
    { unfold _color_diff. lia. }
    destruct (floodfill_fills _ _ _ _ _ _ _ Hin Hdiff Hfill)
      as (Hcomp & _ & Hw & Hh & _).
    assert (Hseed_in : In (x1, y1) filled) by (apply Hcomp; constructor).
    destruct filled as [|f0 filled]; [destruct Hseed_in|].
    destruct (draw_mask_spec (f0 :: filled) (Image_new (width im, height im) 255))
      as (mask & Hdraw & Hmw & Hmh & Hpix).
    { intros q Hq. apply Hcomp in Hq.
      apply reach_not_wall in Hq as [Hq _]; [|exact Hin|exact Hp].
      rewrite <- Hq. apply in_image_size; simpl; congruence. }
    rewrite Hdraw in Hrun.
    destruct (get_center_nonempty (qpoint f0) (map qpoint filled)) as (c & Hc).
    change (qpoint f0 :: map qpoint filled) with (map qpoint (f0 :: filled)) in Hc.
    rewrite Hc in Hrun. injection Hrun as <-.
    exists im, (f0 :: filled), mask, c.
    split; [reflexivity|]. split; [exact Hseed_in|].
    split; [simpl in Hmw; congruence|]. split; [simpl in Hmh; congruence|].
    split; [|split; [exact Hc|reflexivity]].
    intros q. rewrite Hpix. simpl. split; [intros [H|H]; [exact H|discriminate]|auto].
Qed.

Lemma scan_pixel_parts (rg : Regioner) (base : image) (y1 x1 : Z) (st st' : scan) :
  in_image base (x1, y1) = true ->
  scan_parts base (wall_color rg) st ->
  scan_pixel rg y1 x1 st = (Ok tt, st') ->
  scan_parts base (wall_color rg) st' /\
  grows (wall_color rg) (base_img st) (base_img st') /\
  (region_color rg = None -> pix (base_img st') (x1, y1) = wall_color rg).
Proof.
  intros Hin Hinv Hrun. set (wall := wall_color rg) in *.
  pose proof Hinv as (n & Hn & Hk & Hg & Hap & Hch & Hreg).
  pose proof Hg as (Hw & Hh & Hgp).
  assert (Hin' : in_image (base_img st) (x1, y1) = true).
  { now rewrite (in_image_size base (base_img st) _ Hw Hh). }
  destruct (scan_pixel_run rg y1 x1 st st' Hin' Hrun)
    as [[-> Hcase]|[(-> & Hseed & Hp)|(Hp & im & filled & mask & c & Hfill & Hseed_in
                                        & Hmw & Hmh & Hmask & Hc & ->)]].
  - split; [exact Hinv|]. split; [apply grows_refl|]. intros Hnone.
    destruct Hcase as [Hmem|Hseed]; [now apply Hap|].
    unfold is_seed in Hseed. rewrite Hnone in Hseed.
    apply negb_false_iff, Z.eqb_eq in Hseed. exact Hseed.
  - split; [exists n; now repeat split|]. split; [apply grows_refl|].
    intros _. exact Hp.
  - fold wall in Hfill, Hp.
    assert (Hdiff : 0 < _color_diff wall (pix (base_img st) (x1, y1))).
    { unfold _color_diff. lia. }
    destruct (floodfill_fills _ _ _ _ _ _ _ Hin' Hdiff Hfill)
      as (Hcomp & Hnd & Hw' & Hh' & Hpix).
    assert (Hfilled : forall q, In q filled ->
              in_image base q = true /\ pix base q <> wall /\
              pix (base_img st) q <> wall).
    { intros q Hq. apply Hcomp in Hq.
      apply reach_not_wall in Hq as [Hq1 Hq2]; [|exact Hin'|exact Hp].
      split; [now rewrite <- (in_image_size base (base_img st) _ Hw Hh)|].
      split; [|exact Hq2]. destruct (Hgp q) as [E|E]; [congruence|contradiction]. }
    assert (Hgrow : grows wall (base_img st) im).
    { split; [exact Hw'|]. split; [exact Hh'|]. intros q. rewrite Hpix.
      destruct (pset_mem q filled); auto. }
    assert (Hin_f : forall q, In q filled -> pix im q = wall).
    { intros q Hq. rewrite Hpix. unfold pset_mem.
      now rewrite (set_mem_correct2 point_eq_dec _ _ Hq). }
    assert (Hnew : ~ In (Z.of_nat n + 1) (numbered n)) by (rewrite in_numbered; lia).
    assert (Hother : forall k, In k (numbered n) ->
              dict_get stem_eq_dec (Num k)
                (dict_set stem_eq_dec (Num (Z.of_nat n + 1)) mask (scan_masks st))
              = dict_get stem_eq_dec (Num k) (scan_masks st)).
    { intros k Hin_k. apply dict_get_set_ne. intros [= E]. now subst k. }
    assert (Hother_r : forall k r, In k (numbered n) ->
              dict_get Z.eq_dec k
                (dict_set Z.eq_dec (Z.of_nat n + 1) r (scan_regions st))
              = dict_get Z.eq_dec k (scan_regions st)).
    { intros k r Hin_k. apply dict_get_set_ne. intros E. now subst k. }
    cbn [base_img]. split; [|split; [exact Hgrow|intros _; now apply Hin_f]].
    exists (S n). cbn [mask_count scan_regions scan_masks base_img already_processed].
    rewrite Hn in *. split; [lia|]. split; [|split; [|split; [|split]]].
    + rewrite dict_keys_set_new, Hk, numbered_succ; [reflexivity|now rewrite Hk].
    + now apply grows_trans with (im2 := base_img st).
    + intros q Hq. apply set_union_elim in Hq as [Hq|Hq]; [|now apply Hin_f].
      apply (grows_keeps wall (base_img st) im q Hgrow). now apply Hap.
    + intros q Hq. destruct (pset_mem q filled) eqn:Hmem.
      * exists (Z.of_nat n + 1), mask. rewrite numbered_succ.
        split; [apply in_or_app; right; now left|].
        rewrite dict_get_set_eq. split; [reflexivity|].
        apply Hmask. now apply (set_mem_correct1 point_eq_dec).
      * rewrite Hpix, Hmem in Hq. destruct (Hch q Hq) as (k & m & Hk_in & Hget & Hm).
        exists k, m. rewrite numbered_succ. split; [apply in_or_app; now left|].
        rewrite (Hother k Hk_in). now split.
    + intros k Hk_in. rewrite numbered_succ in Hk_in.
      apply in_app_or in Hk_in as [Hk_in|[<-|[]]].
      * destruct (Hreg k Hk_in) as (m & r & Hget & Hgetr & Hok).
        exists m, r. rewrite (Hother k Hk_in), (Hother_r k _ Hk_in).
        split; [exact Hget|]. split; [exact Hgetr|].
        now apply region_ok_grows with (w1 := base_img st).
      * exists mask, (mkRegion c (Z.of_nat (length filled)) []).
        rewrite !dict_get_set_eq. split; [reflexivity|]. split; [reflexivity|].
        exists filled. split; [exact Hnd|].
        split; [intros E; rewrite E in Hseed_in; destruct Hseed_in|].
        split; [exact Hmask|]. split; [congruence|]. split; [congruence|].
        split; [|split; [|split; [|now repeat split]]].
        -- intros q Hq. destruct (Hfilled q Hq) as (Ha & Hb & _).
           split; [exact Ha|]. split; [exact Hb|now apply Hin_f].
        -- intros p q Hp_in Hq_n Hq_in Hq_base.
           destruct (Z.eq_dec (pix (base_img st) q) wall) as [Hq_w|Hq_w].
           ++ exfalso.
              destruct (Hch q) as (k & m & Hk_in & Hget & Hm); [congruence|].
              destruct (Hreg k Hk_in) as (m' & r & Hget' & _ & Hok).
              rewrite Hget in Hget'. injection Hget' as <-.
              destruct Hok as (fk & _ & _ & Hmk & _ & _ & Hfk & Hclosed & _).
              apply Hmk in Hm. destruct (Hfilled p Hp_in) as (Hp1 & Hp2 & Hp3).
              assert (Hp_k : In p fk).
              { apply (Hclosed q p Hm); [now apply neighbours_sym|exact Hp1|exact Hp2]. }
              destruct (Hfk p Hp_k) as (_ & _ & Hp_w). contradiction.
           ++ apply Hcomp. apply reach_step with (p := p);
                [now apply Hcomp|exact Hq_n|].
              split; [now rewrite (in_image_size base (base_img st) _ Hw Hh)|].
              unfold fill_test. apply negb_true_iff, orb_false_intro;
                now apply Z.eqb_neq.
        -- exists (x1, y1). split; [exact Hseed_in|]. intros q Hq.
           apply Hcomp, reach_within in Hq.
           eapply reach_mono; [|exact Hq]. intros x [_ Hx]. now apply Hcomp.
Qed.

Section ScanParts.

Variable rg : Regioner.
Variable base : image.

Local Abbreviation wall := (wall_color rg).

(** Steps of the scan only add wall pixels to the working image. *)
Definition scan_step (s s' : scan) : Prop := grows wall (base_img s) (base_img s').

(** Once the scan without region colour has passed a pixel, the working
    image holds the wall colour there. *)
Definition walled (s : scan) (q : point) : Prop :=
  region_color rg = None -> pix (base_img s) q = wall.

Lemma walled_keeps (q : point) (s s' : scan) :
  walled s q -> scan_step s s' -> walled s' q.
Proof. intros H Hg Hn. apply (grows_keeps wall _ _ q Hg). now apply H. Qed.

Lemma scan_row_parts (y1 : Z) (st st' : scan) :
  0 <= y1 < height base ->
  scan_parts base wall st ->
  scan_row rg (width base) y1 st = (Ok tt, st') ->
  scan_parts base wall st' /\ scan_step st st' /\
  forall x, 0 <= x < width base -> walled st' (x, y1).
Proof.
  intros Hy Hinv Hrun. unfold scan_row, bind, lift in Hrun.
  destruct (chunker (range (width base)) (width base / 10)) as [cs|e] eqn:Hcs;
    [|discriminate].
  apply chunker_range in Hcs.
  destruct (for_each_post (scan_parts base wall) scan_step
              (fun (c : list Z) s => forall x, In x c -> walled s (x, y1))
              (fun x_chunk => for_each x_chunk (scan_pixel rg y1)) cs)
    with (s := st) (s' := st') as (Hinv' & Hstep & Hq); auto.
  - intros s. apply grows_refl.
  - intros s1 s2 s3. apply grows_trans.
  - intros c s s' Hc Hs x Hx. apply walled_keeps with (s := s); [now apply Hc|exact Hs].
  - intros c s s' Hc Hs Hrun_c.
    apply (for_each_post (scan_parts base wall) scan_step
             (fun (x : Z) s => walled s (x, y1)) (scan_pixel rg y1) c); auto.
    + intros s0. apply grows_refl.
    + intros s1 s2 s3. apply grows_trans.
    + intros x s0 s1 Hx Hs0. now apply walled_keeps with (s := s0).
    + intros x s0 s1 Hx Hs0 Hrun_x.
      assert (Hx_in : In x (range (width base))).
      { rewrite <- Hcs. apply in_concat. eauto. }
      apply in_range in Hx_in.
      apply (scan_pixel_parts rg base y1 x s0 s1); [|exact Hs0|exact Hrun_x].
      unfold in_image. simpl. repeat (apply andb_true_intro; split); lia.
  - split; [exact Hinv'|]. split; [exact Hstep|]. intros x Hx.
    assert (Hx_in : In x (concat cs)) by (rewrite Hcs; now apply in_range).
    apply in_concat in Hx_in as (c & Hc & Hxc). now apply (Hq c Hc).
Qed.

Lemma scan_image_parts (st st' : scan) :
  scan_parts base wall st ->
  scan_image rg (width base) (height base) st = (Ok tt, st') ->
  scan_parts base wall st' /\
  forall q, in_image base q = true -> walled st' q.
Proof.
  intros Hinv Hrun. unfold scan_image, bind, lift in Hrun.
  destruct (chunker (range (height base)) (height base / 10)) as [cs|e] eqn:Hcs;
    [|discriminate].
  apply chunker_range in Hcs.
  destruct (for_each_post (scan_parts base wall) scan_step
              (fun (c : list Z) s =>
                 forall y x, In y c -> 0 <= x < width base -> walled s (x, y))
              (fun y_chunk => for_each y_chunk (scan_row rg (width base))) cs)
    with (s := st) (s' := st') as (Hinv' & Hstep & Hq); auto.
  - intros s. apply grows_refl.
  - intros s1 s2 s3. apply grows_trans.
  - intros c s s' Hc Hs y x Hy Hx. apply walled_keeps with (s := s); [now apply Hc|exact Hs].
  - intros c s s' Hc Hs Hrun_c.
    destruct (for_each_post (scan_parts base wall) scan_step
                (fun (y : Z) s => forall x, 0 <= x < width base -> walled s (x, y))
                (scan_row rg (width base)) c)
      with (s := s) (s' := s') as (H1 & H2 & H3); auto.
    + intros s0. apply grows_refl.
    + intros s1 s2 s3. apply grows_trans.
    + intros y s0 s1 Hy Hs0 x Hx. apply walled_keeps with (s := s0); [now apply Hy|exact Hs0].
    + intros y s0 s1 Hy Hs0 Hrun_y.
      assert (Hy_in : In y (range (height base))).
      { rewrite <- Hcs. apply in_concat. eauto. }
      apply in_range in Hy_in. now apply scan_row_parts.
  - split; [exact Hinv'|]. intros [x y] Hin.
    unfold in_image in Hin. simpl in Hin.
    repeat (apply andb_prop in Hin as [Hin ?]).
    assert (Hy_in : In y (concat cs)) by (rewrite Hcs; apply in_range; lia).
    apply in_concat in Hy_in as (c & Hc & Hyc). apply (Hq c Hc y x Hyc). lia.
Qed.

(** What [execute] returns, in terms of the final state of its scan. *)
Lemma execute_parts (cm cm' : ConquestMap) (rs : dict Z Region) :
  blank_png cm = Some base ->
  execute rg cm = (Ok (Some rs), cm') ->
  exists st,
    scan_parts base wall st /\
    (forall q, in_image base q = true -> walled st q) /\
    rs = scan_regions st /\
    cm' = with_masks_dir (scan_masks st) cm.
Proof.
  intros Hb. unfold execute. rewrite Hb.
  set (d := match masks_dir cm with Some d => d | None => [] end).
  destruct (scan_image rg (width base) (height base) (mkScan base [] 0 [] d))
    as [[[]|e] st] eqn:Hscan; [|discriminate].
  destruct (scan_image_parts _ st (scan_parts_init base wall d) Hscan) as (Hinv & Hwall).
  unfold bind, create_number_mask, ret. cbn [blank_png with_masks_dir]. rewrite Hb.
  intros [= <- <-]. exists st. auto.
Qed.

End ScanParts.

Lemma mask_file_with_masks_dir (k : Z) (d : directory) (cm : ConquestMap) :
  mask_file k (with_masks_dir d cm) = dict_get stem_eq_dec (Num k) d.
Proof. reflexivity. Qed.

(** X11.  With no region colour configured, the masks written by a run of
    [Regioner.execute] that returns cover exactly the pixels of the base
    image that do not hold the wall colour: such a pixel is filled (value
    [0]) in the mask of some returned key, and a coordinate filled in the
    mask of a returned key is a pixel of the base image that does not hold
    the wall colour. *)
Theorem execute_regions_cover (rg : Regioner) (cm cm' : ConquestMap)
        (rs : dict Z Region) (base : image) :
  region_color rg = None ->
  blank_png cm = Some base ->
  execute rg cm = (Ok (Some rs), cm') ->
  forall q,
    in_image base q = true /\ pix base q <> wall_color rg <->
    exists k m, In k (dict_keys rs) /\ mask_file k cm' = Some m /\ pix m q = 0.
Proof.
  intros Hnone Hb Hex.
  destruct (execute_parts rg base cm cm' rs Hb Hex)
    as (st & (n & _ & Hk & _ & _ & Hch & Hreg) & Hwall & -> & ->).
  intros q. rewrite Hk. split.
  - intros [Hin Hne].
    destruct (Hch q) as (k & m & Hk_in & Hget & Hm); [|now exists k, m].
    rewrite (Hwall q Hin Hnone). congruence.
  - intros (k & m & Hk_in & Hget & Hm).
    destruct (Hreg k Hk_in) as (m' & r & Hget' & _ & filled & _ & _ & Hmask & _ & _ & Hf & _).
    rewrite mask_file_with_masks_dir, Hget' in Hget. injection Hget as <-.
    apply Hmask, Hf in Hm. tauto.
Qed.

(** X12.  Every mask written by a run of [Regioner.execute] that returns
    is a 4-connected component of the pixels of the base image that do not
    hold the wall colour: it has a filled pixel from which every filled
    pixel is reached by 4-neighbour steps through filled pixels, and a
    4-neighbour of a filled pixel that is a pixel of the base image not
    holding the wall colour is filled in the same mask. *)
Theorem execute_regions_components (rg : Regioner) (cm cm' : ConquestMap)
        (rs : dict Z Region) (base : image) :
  blank_png cm = Some base ->
  execute rg cm = (Ok (Some rs), cm') ->
  forall k, In k (dict_keys rs) ->
    exists m,
      mask_file k cm' = Some m /\
      (exists s, pix m s = 0 /\
                 forall q, pix m q = 0 -> reach (fun x => pix m x = 0) s q) /\
      (forall p q, pix m p = 0 -> In q (neighbours p) ->
                   in_image base q = true -> pix base q <> wall_color rg ->
                   pix m q = 0).
Proof.
  intros Hb Hex.
  destruct (execute_parts rg base cm cm' rs Hb Hex)
    as (st & (n & _ & Hk & _ & _ & _ & Hreg) & _ & -> & ->).
  intros k Hk_in. rewrite Hk in Hk_in.
  destruct (Hreg k Hk_in)
    as (m & r & Hget & _ & filled & _ & _ & Hmask & _ & _ & _ & Hclosed & (s & Hs & Hconn) & _).
  exists m. split; [exact Hget|]. split.
  - exists s. split; [now apply Hmask|]. intros q Hq.
    apply reach_mono with (P := fun x => In x filled);
      [intros x; apply Hmask|apply Hconn; now apply Hmask].
  - intros p q Hp Hn Hq Hne. apply Hmask.
    apply (Hclosed p q); auto. now apply Hmask.
Qed.

(** *** Weight and centre of the regions *)

Lemma range_nodup (n : Z) : NoDup (range n).
Proof.
  unfold range. apply Finite.Injective_map_NoDup; [|apply seq_NoDup].
  intros a b. apply Nat2Z.inj.
Qed.

Lemma coords_nodup (im : image) : NoDup (coords im).
Proof.
  unfold coords. generalize (range_nodup (height im)).
  generalize (range (height im)) as ys.
  induction ys as [|y ys IH]; intros Hnd; [constructor|].
  apply NoDup_cons_iff in Hnd as [Hy Hnd]. cbn [flat_map].
  apply NoDup_app.
  - apply Finite.Injective_map_NoDup; [|apply range_nodup].
    intros a b [= E]. exact E.
  - now apply IH.
  - intros q Hq Hq'. apply in_map_iff in Hq as (x & <- & _).
    apply in_flat_map in Hq' as (y' & Hy' & Hq').
    apply in_map_iff in Hq' as (x' & [= _ <-] & _). contradiction.
Qed.

(** The filled pixels of a mask, read back by [get_points_from_mask], are
    the set that was drawn into it. *)
Lemma mask_points_perm (m : image) (filled : pset) :
  NoDup filled ->
  (forall q, pix m q = 0 <-> In q filled) ->
  (forall q, In q filled -> in_image m q = true) ->
  Permutation filled (mask_points m).
Proof.
  intros Hnd Hmask Hin. apply NoDup_Permutation; [exact Hnd| |].
  - unfold mask_points. apply NoDup_filter, coords_nodup.
  - intros q. rewrite mask_points_filled. split.
    + intros Hq. split; [now apply Hin|now apply Hmask].
    + intros [_ Hq]. now apply Hmask.
Qed.

(** [get_center] does not depend on the order of the points. *)
Lemma get_center_perm (l l' : list (Q * Q)) (c : Q * Q) :
  Permutation l l' -> get_center l = Ok c ->
  exists c', get_center l' = Ok c' /\ (fst c' == fst c)%Q /\ (snd c' == snd c)%Q.
Proof.
  intros Hp Hc.
  assert (Hl : l <> []) by (intros ->; discriminate).
  assert (Hl' : l' <> []).
  { intros ->. apply Permutation_sym, Permutation_nil in Hp. contradiction. }
  rewrite (get_center_ok l Hl) in Hc. injection Hc as <-.
  rewrite (get_center_ok l' Hl'). eexists. split; [reflexivity|].
  rewrite (Permutation_length Hp). simpl.
  split; apply Qeq_sym; (apply Qdiv_comp; [|reflexivity]);
    apply qsum_perm, Permutation_map, Hp.
Qed.

Lemma region_ok_measured (base : image) (wall : Z) (working m : image) (r : Region) :
  region_ok base wall working m r ->
  exists c,
    weight r = Z.of_nat (length (mask_points m)) /\ mask_points m <> [] /\
    get_center (map qpoint (mask_points m)) = Ok c /\
    (fst c == fst (center r))%Q /\ (snd c == snd (center r))%Q /\
    data r = [].
Proof.
  intros (filled & Hnd & Hne & Hmask & Hw & Hh & Hf & _ & _ & Hweight & Hcentre & Hdata).
  assert (Hperm : Permutation filled (mask_points m)).
  { apply mask_points_perm; auto. intros q Hq.
    rewrite (in_image_size base m q Hw Hh). now apply Hf. }
  destruct (get_center_perm _ _ _ (Permutation_map qpoint Hperm) Hcentre)
    as (c & Hc & Hx & Hy).
  exists c. rewrite Hweight, (Permutation_length Hperm). split; [reflexivity|].
  split; [|now repeat split].
  intros E. rewrite E in Hperm. apply Permutation_sym, Permutation_nil in Hperm.
  contradiction.
Qed.

(** X13.  The mapping returned by [Regioner.execute] has the keys
    [1..N], and each of its regions is the one measured on its mask file:
    the weight is the number of filled pixels of the mask, at least one,
    the centre is the mean of their coordinates, and the bag of attributes
    is empty. *)
Theorem execute_regions_measured (rg : Regioner) (cm cm' : ConquestMap)
        (rs : dict Z Region) (base : image) :
  blank_png cm = Some base ->
  execute rg cm = (Ok (Some rs), cm') ->
  dict_keys rs = numbered (length rs) /\
  forall k r, dict_get Z.eq_dec k rs = Some r ->
    exists m c,
      mask_file k cm' = Some m /\
      weight r = Z.of_nat (length (mask_points m)) /\ 1 <= weight r /\
      get_center (map qpoint (mask_points m)) = Ok c /\
      (fst c == fst (center r))%Q /\ (snd c == snd (center r))%Q /\
      data r = [].
Proof.
  intros Hb Hex.
  destruct (execute_parts rg base cm cm' rs Hb Hex)
    as (st & (n & _ & Hk & _ & _ & _ & Hreg) & _ & -> & ->).
  split.
  - rewrite Hk. f_equal. unfold dict_keys in Hk.
    rewrite <- (length_map fst), Hk. unfold numbered.
    now rewrite length_map, length_seq.
  - intros k r Hget.
    assert (Hk_in : In k (numbered n)).
    { rewrite <- Hk. apply (dict_get_in Z.eq_dec). eauto. }
    destruct (Hreg k Hk_in) as (m & r' & Hm & Hr & Hok).
    rewrite Hget in Hr. injection Hr as <-.
    destruct (region_ok_measured _ _ _ _ _ Hok) as (c & Hw & Hne & Hc & Hx & Hy & Hd).
    exists m, c. split; [exact Hm|]. split; [exact Hw|]. split; [|now repeat split].
    rewrite Hw. destruct (mask_points m); [contradiction|simpl; lia].
Qed.

(** ** [recalculate_region] *)

Lemma dict_keys_set_present {K V} (K_eq_dec : forall a b : K, {a = b} + {a <> b})
      (k : K) (v : V) (d : dict K V) :
  In k (dict_keys d) -> dict_keys (dict_set K_eq_dec k v d) = dict_keys d.
Proof.
  induction d as [|[k0 v0] d IH]; simpl; [intros []|].
  intros H. destruct (K_eq_dec k k0) as [->|Hne]; [reflexivity|].
  simpl. f_equal. apply IH. destruct H as [E|H]; [congruence|exact H].
Qed.

(** [r'] is the region [r] measured again on the mask [m]. *)
Definition remeasured (m : image) (r r' : Region) : Prop :=
  weight r' = Z.of_nat (length (mask_points m)) /\
  get_center (map qpoint (mask_points m)) = Ok (center r') /\
  data r' = data r.

(** The first failure of [recalculate_one] at the key [k], if any: the
    lookup of the key, the opening of its mask file, the division by the
    number of its filled pixels. *)
Definition measure_error (cm : ConquestMap) (k : Z) : option exn :=
  match dict_get Z.eq_dec k (regions cm), mask_file k cm with
  | None, _ => Some KeyError
  | Some _, None => Some FileNotFoundError
  | Some _, Some m =>
      match mask_points m with
      | [] => Some ZeroDivisionError
      | _ :: _ => None
      end
  end.


Lemma recalculate_one_run (k : Z) (cm : ConquestMap) :
  measure_error cm k = None ->
  exists r m r',
    dict_get Z.eq_dec k (regions cm) = Some r /\ mask_file k cm = Some m /\
    remeasured m r r' /\
    recalculate_one k cm
    = (Ok tt, with_regions (dict_set Z.eq_dec k r' (regions cm)) cm).
Proof.
  unfold measure_error, recalculate_one, bind, get, lift, dict_item.
  destruct (dict_get Z.eq_dec k (regions cm)) as [r|]; [|discriminate].
  unfold get_points_from_mask, bind. rewrite open_mask_eq.
  destruct (mask_file k cm) as [m|]; [|discriminate].
  unfold ret. destruct (mask_points m) as [|p0 pts] eqn:Hpts; [discriminate|].
  intros _. destruct (get_center_nonempty (qpoint p0) (map qpoint pts)) as (c & Hc).
  change (qpoint p0 :: map qpoint pts) with (map qpoint (p0 :: pts)) in Hc.
  rewrite Hc.
  exists r, m, (mkRegion c (Z.of_nat (length (p0 :: pts))) (data r)).
  split; [reflexivity|]. split; [reflexivity|]. split; [|reflexivity].
  unfold remeasured. rewrite Hpts. now repeat split.
Qed.

Lemma measure_error_set (cm : ConquestMap) (a k : Z) (r' : Region) :
  In a (dict_keys (regions cm)) ->
  measure_error (with_regions (dict_set Z.eq_dec a r' (regions cm)) cm) k
  = measure_error cm k.
Proof.
  intros Ha. unfold measure_error. cbn [regions with_regions].
  change (mask_file k (with_regions (dict_set Z.eq_dec a r' (regions cm)) cm))
    with (mask_file k cm).
  destruct (Z.eq_dec a k) as [->|Hne].
  - rewrite dict_get_set_eq.
    apply (dict_get_in Z.eq_dec) in Ha as (v & ->). reflexivity.
  - now rewrite (dict_get_set_ne Z.eq_dec a k r' (regions cm) Hne).
Qed.

(** The loop of [recalculate_region] over keys that can all be measured. *)
Lemma recalculate_loop (l : list Z) :
  forall cm : ConquestMap,
    (forall k, In k l -> measure_error cm k = None) ->
    exists rs',
      for_each l recalculate_one cm = (Ok tt, with_regions rs' cm) /\
      dict_keys rs' = dict_keys (regions cm) /\
      forall k r, dict_get Z.eq_dec k (regions cm) = Some r ->
        exists r',
          dict_get Z.eq_dec k rs' = Some r' /\ data r' = data r /\
          (In k l -> forall m, mask_file k cm = Some m -> remeasured m r r') /\
          (~ In k l -> r' = r).
Proof.
  induction l as [|a l IH]; intros cm Hl.
  - exists (regions cm). split; [destruct cm; reflexivity|]. split; [reflexivity|].
    intros k r Hk. exists r. split; [exact Hk|]. split; [reflexivity|].
    split; [intros []|reflexivity].
  - destruct (recalculate_one_run a cm (Hl a (or_introl eq_refl)))
      as (ra & ma & ra' & Hra & Hma & Hmeas & Hrun).
    assert (Ha : In a (dict_keys (regions cm))).
    { apply (dict_get_in Z.eq_dec). eauto. }
    set (cm1 := with_regions (dict_set Z.eq_dec a ra' (regions cm)) cm) in *.
    destruct (IH cm1) as (rs' & Hloop & Hkeys & Hregs).
    { intros k Hk. unfold cm1. rewrite measure_error_set; auto. apply Hl. now right. }
    exists rs'. cbn [for_each]. unfold bind at 1. rewrite Hrun.
    split; [exact Hloop|]. split.
    { rewrite Hkeys. unfold cm1. cbn [regions with_regions].
      now apply dict_keys_set_present. }
    intros k r Hk. destruct (Z.eq_dec a k) as [->|Hne].
    + destruct (Hregs k ra') as (r' & Hget & Hdata & Hin & Hout).
      { unfold cm1. cbn [regions with_regions]. apply dict_get_set_eq. }
      rewrite Hra in Hk. injection Hk as <-.
      destruct Hmeas as (Hw & Hc & Hd).
      exists r'. split; [exact Hget|]. split; [congruence|]. split; [|intros H; elim H; now left].
      intros _ m Hm. rewrite Hma in Hm. injection Hm as <-.
      destruct (in_dec Z.eq_dec k l) as [Hkl|Hkl].
      * destruct (Hin Hkl ma Hma) as (Hw' & Hc' & Hd'). repeat split; auto. congruence.
      * rewrite (Hout Hkl). repeat split; auto.
    + destruct (Hregs k r) as (r' & Hget & Hdata & Hin & Hout).
      { unfold cm1. cbn [regions with_regions].
        now rewrite (dict_get_set_ne Z.eq_dec a k ra' (regions cm) Hne). }
      exists r'. split; [exact Hget|]. split; [exact Hdata|]. split.
      * intros [E|Hkl]; [contradiction|]. intros m Hm. now apply Hin.
      * intros Hkl. apply Hout. intros H. apply Hkl. now right.
Qed.





(** X16.  Measuring the regions again right after a segmentation changes
    nothing: after a [generate_masks] that found regions,
    [recalculate_region()] returns and leaves every region with the same
    weight, the same centre (as numbers) and the same attributes, under the
    same keys. *)
Theorem recalculate_after_generate (cm cm1 : ConquestMap) (r0 : Z * Region)
        (rs : dict Z Region) :
  generate_masks cm = (Ok (Some (r0 :: rs)), cm1) ->
  exists cm2,
    recalculate_region None cm1 = (Ok tt, cm2) /\
    dict_keys (regions cm2) = dict_keys (regions cm1) /\
    forall k r, dict_get Z.eq_dec k (regions cm1) = Some r ->
      exists r',
        dict_get Z.eq_dec k (regions cm2) = Some r' /\
        weight r' = weight r /\
        (fst (center r') == fst (center r))%Q /\
        (snd (center r') == snd (center r))%Q /\
        data r' = data r.
Proof.
  intros Hgen. unfold generate_masks, bind in Hgen.
  destruct (execute default_regioner cm) as [[[rs0|]|e] cm0] eqn:Hex;
    [|discriminate..].
  destruct rs0 as [|x l]; [discriminate|].
  unfold set_regions, set_region_max, save_data, bind, get, set_data_json, ret in Hgen.
  injection Hgen as Hx Hl Hcm1. subst x l.
  destruct (blank_png cm) as [base|] eqn:Hb;
    [|unfold execute in Hex; rewrite Hb in Hex; discriminate].
  destruct (execute_parts default_regioner base cm cm0 (r0 :: rs) Hb Hex)
    as (st & (n & _ & Hk & _ & _ & _ & Hreg) & _ & Hst & ->).
  assert (Hregs1 : regions cm1 = scan_regions st) by (now rewrite <- Hcm1, <- Hst).
  assert (Hfile : forall k, mask_file k cm1
                            = dict_get stem_eq_dec (Num k) (scan_masks st)).
  { intros k. now rewrite <- Hcm1. }
  assert (Hkey : forall k r, dict_get Z.eq_dec k (regions cm1) = Some r ->
            exists m c,
              mask_file k cm1 = Some m /\
              weight r = Z.of_nat (length (mask_points m)) /\ mask_points m <> [] /\
              get_center (map qpoint (mask_points m)) = Ok c /\
              (fst c == fst (center r))%Q /\ (snd c == snd (center r))%Q).
  { intros k r Hr. rewrite Hregs1 in Hr.
    assert (Hk_in : In k (numbered n)).
    { rewrite <- Hk. apply (dict_get_in Z.eq_dec). eauto. }
    destruct (Hreg k Hk_in) as (m & r' & Hm & Hr' & Hok).
    rewrite Hr in Hr'. injection Hr' as <-.
    destruct (region_ok_measured _ _ _ _ _ Hok) as (c & Hw & Hne & Hc & Hx & Hy & _).
    exists m, c. rewrite Hfile. now repeat split. }
  destruct (recalculate_loop (dict_keys (regions cm1)) cm1)
    as (rs' & Hloop & Hkeys & Hregs).
  { intros k Hin. apply (dict_get_in Z.eq_dec) in Hin as (r & Hr).
    destruct (Hkey k r Hr) as (m & c & Hm & _ & Hne & _).
    unfold measure_error. rewrite Hr, Hm. destruct (mask_points m); congruence. }
  eexists. split; [|split].
  - unfold recalculate_region. unfold bind at 1, get. unfold bind at 1.
    rewrite Hloop. reflexivity.
  - exact Hkeys.
  - intros k r Hr. destruct (Hkey k r Hr) as (m & c & Hm & Hw & _ & Hc & Hx & Hy).
    destruct (Hregs k r Hr) as (r' & Hget & Hdata & Hin & _).
    destruct (Hin (proj2 (dict_get_in Z.eq_dec k (regions cm1)) (ex_intro _ r Hr)) m Hm)
      as (Hw' & Hc' & _).
    exists r'. split; [exact Hget|]. split; [congruence|].
    rewrite Hc in Hc'. injection Hc' as <-. now repeat split.
Qed.

(** ** Failures of [combine_masks], and [delete_masks] *)

Lemma img_combine_state (mask_list : list Z) (cm cm' : ConquestMap)
      (r : option (Z * list Z * image)) :
  _img_combine_masks mask_list cm = (Ok r, cm') -> cm' = cm.
Proof.
  unfold _img_combine_masks.
  destruct (length mask_list <? 2)%nat; [now intros [= _ <-]|].
  unfold bind at 1, get.
  destruct (blank_png cm) as [base|]; [|now intros [= _ <-]].
  destruct (masks_dir cm) as [d|]; [|now intros [= _ <-]].
  unfold bind.
  destruct (for_fold mask_list combine_step
              (None, [], Image_new (width base, height base) 1) cm)
    as [[[[lo el] mask]|e] cm1] eqn:Hloop; [|discriminate].
  apply combine_loop_spec in Hloop as [-> _].
  destruct lo; now intros [= _ <-].
Qed.

Lemma lookup_merged_state (lowest : Z) (eliminated : list Z) (cm cm' : ConquestMap)
      (r : result (option (list Region * Region))) :
  lookup_merged lowest eliminated cm = (r, cm') -> cm' = cm.
Proof.
  unfold lookup_merged, try_except, bind, get, lift, ret.
  destruct (map_result (fun n => dict_item Z.eq_dec n (regions cm)) eliminated)
    as [ers|e].
  - destruct (dict_item Z.eq_dec lowest (regions cm)) as [lr|e];
      [now intros [= _ <-]|].
    destruct (is_KeyError e); now intros [= _ <-].
  - destruct (is_KeyError e); now intros [= _ <-].
Qed.

(** X17.  A falsy result of [combine_masks] ([False], or the key [0]
    when that is the lowest key) means that nothing was changed: the registry, [region_max], the
    files and [data.json] are as before the call. *)
Theorem combine_masks_falsy_untouched (mask_list : list Z) (cm cm' : ConquestMap)
        (r : option Z) :
  combine_masks mask_list cm = (Ok r, cm') ->
  r = None \/ r = Some 0 ->
  cm' = cm.
Proof.
  unfold combine_masks. unfold bind at 1.
  destruct (_img_combine_masks mask_list cm) as [[[[[lo el] mask]|]|e] cm0] eqn:Himg;
    [| |discriminate]; apply img_combine_state in Himg; subst cm0;
    [|now intros [= _ <-]].
  destruct (lo =? 0) eqn:Hlo; [now intros [= _ <-]|].
  apply Z.eqb_neq in Hlo. unfold bind at 1.
  destruct (lookup_merged lo el cm) as [[[[ers lr]|]|e] cm1] eqn:Hlook;
    [| |discriminate]; apply lookup_merged_state in Hlook; subst cm1;
    [|now intros [= _ <-]].
  rewrite merge_into_eq. intros Hrun Hr.
  assert (H : r = Some lo).
  { revert Hrun. apply (returns_bind (fun r => r = Some lo)).
    intros _. apply merge_rest_returns. }
  destruct Hr as [Hr|Hr]; rewrite Hr in H; [discriminate|].
  injection H as <-. contradiction.
Qed.

Lemma map_result_absent (rs : dict Z Region) (keys : list Z) :
  (exists k, In k keys /\ ~ In k (dict_keys rs)) ->
  map_result (fun n => dict_item Z.eq_dec n rs) keys = Raise KeyError.
Proof.
  induction keys as [|a keys IH]; intros (k & Hin & Hk); [destruct Hin|].
  cbn [map_result]. unfold dict_item at 1.
  destruct (dict_get Z.eq_dec a rs) as [r|] eqn:Ha; [|reflexivity].
  rewrite IH; [reflexivity|]. exists k. split; [|exact Hk].
  destruct Hin as [->|Hin]; [|exact Hin].
  exfalso. apply Hk. apply (dict_get_in Z.eq_dec). eauto.
Qed.

Lemma lookup_merged_absent (lowest : Z) (eliminated : list Z) (cm : ConquestMap) :
  (exists k, In k (lowest :: eliminated) /\ ~ In k (dict_keys (regions cm))) ->
  lookup_merged lowest eliminated cm = (Ok None, cm).
Proof.
  intros (k & Hin & Hk). unfold lookup_merged, try_except, bind, get, lift, ret.
  destruct (in_dec Z.eq_dec k eliminated) as [Hel|Hel].
  - rewrite map_result_absent; [reflexivity|eauto].
  - destruct Hin as [<-|Hin]; [|contradiction].
    destruct (map_result (fun n => dict_item Z.eq_dec n (regions cm)) eliminated)
      as [ers|e] eqn:Hmap.
    + unfold dict_item. apply (dict_get_none Z.eq_dec) in Hk. now rewrite Hk.
    + assert (He : e = KeyError); [|now subst e].
      clear -Hmap. revert Hmap. induction eliminated as [|a l IH]; [discriminate|].
      cbn [map_result]. unfold dict_item at 1.
      destruct (dict_get Z.eq_dec a (regions cm)); [|now intros [= <-]].
      destruct (map_result (fun n => dict_item Z.eq_dec n (regions cm)) l);
        [discriminate|]. intros [= <-]. now apply IH.
Qed.

(** X18.  A merge that names a key absent from the registry, all the named
    mask files being there, fails without changing anything: the result is
    falsy ([False], or the key [0] when that is the lowest key) and the
    registry, [region_max], the files and [data.json] are untouched. *)
Theorem combine_masks_absent_key (mask_list : list Z) (cm : ConquestMap) :
  (exists k, In k mask_list /\ ~ In k (dict_keys (regions cm))) ->
  (forall k, In k mask_list -> exists m, mask_file k cm = Some m) ->
  exists r, combine_masks mask_list cm = (Ok r, cm) /\ (r = None \/ r = Some 0).
Proof.
  intros Habsent Hfiles. unfold combine_masks. unfold bind at 1.
  destruct (_img_combine_masks mask_list cm) as [[[[[lo el] mask]|]|e] cm0] eqn:Himg.
  - apply img_combine_inv in Himg as (-> & _ & base & ms & _ & _ & Htrack & _).
    destruct (lo =? 0) eqn:Hlo.
    { apply Z.eqb_eq in Hlo. subst lo. exists (Some 0). split; [reflexivity|now right]. }
    unfold bind at 1. rewrite lookup_merged_absent.
    + exists None. split; [reflexivity|now left].
    + destruct mask_list as [|k0 l]; [discriminate|].
      destruct (track_first k0 l) as (lo' & el' & Htrack' & Hperm & _).
      rewrite Htrack in Htrack'. injection Htrack' as <- <-.
      destruct Habsent as (k & Hin & Hk). exists k. split; [|exact Hk].
      apply Permutation_sym in Hperm. now apply (Permutation_in k Hperm).
  - apply img_combine_state in Himg. subst cm0.
    exists None. split; [reflexivity|now left].
  - exfalso. unfold _img_combine_masks in Himg.
    destruct (length mask_list <? 2)%nat; [discriminate|].
    unfold bind at 1, get in Himg.
    destruct (blank_png cm) as [base|]; [|discriminate].
    destruct (masks_dir cm) as [d|]; [|discriminate].
    destruct (Forall2_exists (fun k m => mask_file k cm = Some m) mask_list Hfiles)
      as (ms & Hms).
    unfold bind in Himg. rewrite (combine_loop_total mask_list _ _ _ cm ms Hms) in Himg.
    destruct (fold_left track mask_list (None, [])) as [[l|] el]; discriminate.
Qed.

(** X19.  A merge list that names its lowest key twice loses the merged
    region.  With the other keys named once, all keys in the registry with
    their mask files, and some region left over, [combine_masks] returns
    the lowest key as the surviving key, but that key is then among the
    eliminated keys: afterwards neither it nor any other named key is in
    the registry. *)
Theorem combine_masks_repeated_lowest (mask_list others : list Z) (lo : Z)
        (cm : ConquestMap) (base : image) (d : directory) :
  Permutation mask_list (lo :: lo :: others) ->
  NoDup (lo :: others) ->
  (forall k, In k others -> lo < k) ->
  lo <> 0 ->
  (forall k, In k (lo :: others) -> In k (dict_keys (regions cm))) ->
  0 < weight (region_at cm lo) ->
  (exists k, In k (dict_keys (regions cm)) /\ ~ In k (lo :: others)) ->
  blank_png cm = Some base -> masks_dir cm = Some d ->
  (forall k, In k (lo :: others) -> exists m, mask_file k cm = Some m) ->
  exists cm',
    combine_masks mask_list cm = (Ok (Some lo), cm') /\
    forall k, In k (dict_keys (regions cm')) <->
              In k (dict_keys (regions cm)) /\ ~ In k (lo :: others).
Proof.
  intros Hperm Hnd Hlow Hlo0 Hin Hw (krest & Hkrest & Hkrest') Hb Hd Hfiles.
  assert (Hmem : forall k, In k mask_list <-> In k (lo :: others)).
  { intros k. split; intros Hk.
    - apply (Permutation_in k Hperm) in Hk. destruct Hk as [<-|Hk]; [now left|exact Hk].
    - apply (Permutation_in k (Permutation_sym Hperm)). now right. }
  assert (Hlen : (2 <= length mask_list)%nat).
  { rewrite (Permutation_length Hperm). simpl. lia. }
  destruct mask_list as [|k0 l]; [simpl in Hlen; lia|].
  destruct (track_first k0 l) as (lo' & el & Ht & Hp & Hlo' & Hmin).
  assert (lo' = lo).
  { apply Hmem in Hlo'. assert (Hle : lo' <= lo) by (apply Hmin, Hmem; now left).
    destruct Hlo' as [E|Hk]; [now symmetry|]. specialize (Hlow lo' Hk). lia. }
  subst lo'.
  assert (Hel : Permutation el (lo :: others)).
  { apply Permutation_cons_inv with (a := lo).
    now apply Permutation_trans with (l' := k0 :: l). }
  assert (Hnd_el : NoDup el).
  { apply (Permutation_NoDup (l := lo :: others)); [now symmetry|exact Hnd]. }
  assert (Hel_in : forall k, In k el <-> In k (lo :: others)).
  { intros k. split; apply Permutation_in; [exact Hel|now symmetry]. }
  destruct (Forall2_exists (fun k m => mask_file k cm = Some m) (k0 :: l))
    as (ms & Hms).
  { intros k Hk. apply Hfiles. now apply Hmem. }
  assert (Hat : forall k, In k (lo :: others) ->
                  dict_get Z.eq_dec k (regions cm) = Some (region_at cm k)).
  { intros k Hk. unfold region_at.
    destruct (proj1 (dict_get_in Z.eq_dec k (regions cm)) (Hin k Hk)) as (r & ->).
    reflexivity. }
  assert (Hers : Forall2 (fun k r => dict_get Z.eq_dec k (regions cm) = Some r)
                         el (map (region_at cm) el)).
  { assert (H : forall k, In k el -> In k (lo :: others)) by (intros k; apply Hel_in).
    clear - H Hat. induction el as [|x el IH]; [constructor|].
    simpl. constructor; [apply Hat, H; now left|].
    apply IH. intros k Hk. apply H. now right. }
  unfold combine_masks.
  rewrite (bind_ok _ _ _ _ _ (img_combine_total _ cm base d ms lo el Hlen Hb Hd Hms Ht)).
  assert (Hlo0' : (lo =? 0) = false) by now apply Z.eqb_neq.
  rewrite Hlo0'.
  rewrite (bind_ok _ _ _ _ _
             (lookup_merged_total cm lo el _ _ Hers (Hat lo (or_introl eq_refl)))).
  rewrite merge_into_eq.
  assert (Hsave := save_mask_eq lo
            (fold_left logical_and ms (Image_new (width base, height base) 1)) cm).
  rewrite Hd in Hsave. rewrite (bind_ok _ _ _ _ _ Hsave). clear Hsave.
  set (cm1 := with_masks_dir _ cm). unfold merge_rest.
  assert (Hpts : weighted_points (map (region_at cm) el) (region_at cm lo) <> []).
  { unfold weighted_points.
    destruct (Z.to_nat (weight (region_at cm lo))) as [|n] eqn:En; [lia|].
    simpl. intros E. apply app_eq_nil in E as [_ E]. discriminate. }
  unfold lift at 1. unfold bind at 1. rewrite (get_center_ok _ Hpts).
  unfold bind at 1, get. unfold bind at 1, set_regions.
  set (cm2 := with_regions _ cm1).
  assert (Hkeys2 : forall k, In k (dict_keys (regions cm2)) <->
                             In k (dict_keys (regions cm))).
  { intros k. unfold cm2. cbn [regions with_regions]. rewrite dict_keys_set.
    split; [intros [->|H]; [apply Hin; now left|exact H]|auto]. }
  assert (Hin2 : forall k, In k el -> In k (dict_keys (regions cm2))).
  { intros k Hk. apply Hkeys2, Hin, Hel_in, Hk. }
  rewrite (bind_ok _ _ _ _ _ (pops_total el cm2 Hnd_el Hin2)).
  set (cm3 := with_regions _ cm2).
  assert (Hkeys3 : forall k, In k (dict_keys (regions cm3)) <->
                             In k (dict_keys (regions cm)) /\ ~ In k (lo :: others)).
  { intros k. unfold cm3. cbn [regions with_regions].
    rewrite keys_fold_del, Hkeys2, Hel_in. tauto. }
  assert (Hne3 : dict_keys (regions cm3) <> []).
  { assert (H : In krest (dict_keys (regions cm3))) by (apply Hkeys3; now split).
    intros E. rewrite E in H. exact H. }
  destruct (refresh_region_max_total el cm3 Hne3) as (m & Hm).
  rewrite (bind_ok _ _ _ _ _ Hm).
  assert (Hnum : create_number_mask (with_region_max m cm3)
                 = (Ok true, with_region_max m cm3)).
  { unfold create_number_mask. simpl. now rewrite Hb. }
  rewrite (bind_ok _ _ _ _ _ Hnum).
  eexists. split; [reflexivity|]. exact Hkeys3.
Qed.

(** ** Failures of [sort_regions] *)




Lemma py_max_spec (l : list Z) :
  l <> [] ->
  exists m, py_max l = Ok m /\ In m l /\ forall x, In x l -> x <= m.
Proof.
  destruct l as [|a l]; [contradiction|intros _]. unfold py_max.
  exists (fold_left Z.max l a). split; [reflexivity|].
  revert a. induction l as [|b l IH]; intros a.
  - simpl. split; [now left|]. intros x [<-|[]]. lia.
  - cbn [fold_left]. destruct (IH (Z.max a b)) as [Hin Hmax]. split.
    + destruct Hin as [E|Hin]; [|right; now right].
      destruct (Z.max_spec a b) as [[_ E']|[_ E']]; rewrite E' in *;
        [right; now left|now left].
    + intros x [<-|[<-|Hx]].
      * assert (H := Hmax (Z.max a b) (or_introl eq_refl)). lia.
      * assert (H := Hmax (Z.max a b) (or_introl eq_refl)). lia.
      * apply Hmax. now right.
Qed.

(** X20.  [delete_masks] with distinct keys that are all in the registry
    (and, when [region_max] is one of them, at least one key left over)
    returns the key list and removes exactly those keys: every other
    region stays under its key, the mask files (also those of the deleted
    regions) are untouched, and [data.json] is written from the new
    registry.  [region_max] is recomputed only when it was one of the
    deleted keys, and is then the greatest remaining key. *)
Theorem delete_masks_removes (mask_list : list Z) (cm : ConquestMap) :
  NoDup mask_list ->
  (forall k, In k mask_list -> In k (dict_keys (regions cm))) ->
  (region_max_in mask_list cm = true ->
   exists k, In k (dict_keys (regions cm)) /\ ~ In k mask_list) ->
  exists cm',
    delete_masks mask_list cm = (Ok (Some mask_list), cm') /\
    (forall k, In k (dict_keys (regions cm')) <->
               In k (dict_keys (regions cm)) /\ ~ In k mask_list) /\
    (forall k, ~ In k mask_list ->
               dict_get Z.eq_dec k (regions cm') = dict_get Z.eq_dec k (regions cm)) /\
    masks_dir cm' = masks_dir cm /\ blank_png cm' = blank_png cm /\
    data_json cm' = Some (document cm') /\
    (region_max_in mask_list cm = false -> region_max cm' = region_max cm) /\
    (region_max_in mask_list cm = true ->
     exists m, region_max cm' = Some m /\ In m (dict_keys (regions cm')) /\
               forall k, In k (dict_keys (regions cm')) -> k <= m).
Proof.
  intros Hnd Hin Hleft.
  set (rs' := fold_left (fun d x => dict_del Z.eq_dec x d) mask_list (regions cm)).
  assert (Hkeys : forall k, In k (dict_keys rs') <->
                            In k (dict_keys (regions cm)) /\ ~ In k mask_list).
  { intros k. unfold rs'. rewrite keys_fold_del. tauto. }
  assert (Hpops := pops_total mask_list cm Hnd Hin). fold rs' in Hpops.
  assert (Hrefresh : exists cm2,
            refresh_region_max mask_list (with_regions rs' cm) = (Ok tt, cm2) /\
            regions cm2 = rs' /\ masks_dir cm2 = masks_dir cm /\
            blank_png cm2 = blank_png cm /\
            (region_max_in mask_list cm = false -> region_max cm2 = region_max cm) /\
            (region_max_in mask_list cm = true ->
             exists m, region_max cm2 = Some m /\ In m (dict_keys rs') /\
                       forall k, In k (dict_keys rs') -> k <= m)).
  { unfold refresh_region_max. unfold bind at 1, get.
    change (region_max_in mask_list (with_regions rs' cm))
      with (region_max_in mask_list cm).
    destruct (region_max_in mask_list cm) eqn:Hmax.
    - destruct (Hleft eq_refl) as (k0 & Hk0 & Hk0').
      assert (Hne : dict_keys rs' <> []).
      { intros E. assert (H : In k0 (dict_keys rs')) by (apply Hkeys; now split).
        rewrite E in H. destruct H. }
      destruct (py_max_spec (dict_keys rs') Hne) as (m & Hm & Hm_in & Hm_max).
      unfold bind, lift. cbn [regions with_regions]. rewrite Hm.
      eexists. split; [reflexivity|]. cbn.
      repeat (split; [reflexivity|]). split; [discriminate|].
      intros _. exists m. now repeat split.
    - eexists. split; [reflexivity|]. cbn.
      repeat (split; [reflexivity|]). discriminate. }
  destruct Hrefresh as (cm2 & Hrun & Hregs & Hmasks & Hblank & Hkeep & Hnew).
  assert (Hnumber : exists b, create_number_mask cm2 = (Ok b, cm2)).
  { unfold create_number_mask. destruct (blank_png cm2); eauto. }
  destruct Hnumber as (b & Hnumber).
  exists (with_data_json (document cm2) cm2). split.
  - unfold delete_masks. unfold bind at 1, try_except. unfold bind at 1.
    rewrite Hpops. unfold ret at 1. cbv iota.
    rewrite (bind_ok _ _ _ _ _ Hrun), (bind_ok _ _ _ _ _ Hnumber). reflexivity.
  - cbn [regions masks_dir blank_png data_json region_max with_data_json].
    rewrite Hregs. split; [exact Hkeys|].
    split; [intros k Hk; now apply get_fold_del|].
    split; [exact Hmasks|]. split; [exact Hblank|].
    split; [reflexivity|split; [exact Hkeep|exact Hnew]].
Qed.

(** ** Saving, then loading *)

(** The state that [load_data] builds from the document that [save_data]
    wrote. *)
Lemma save_load_run (cm : ConquestMap) :
  (forall k r, In (k, r) (regions cm) -> wf_region r) ->
  load_data (snd (save_data cm))
  = (Ok tt,
     mkMap (name cm) (custom cm) (region_max cm)
           (fold_left (fun acc kr => dict_set Z.eq_dec (fst kr) (reloaded (snd kr)) acc)
                      (sort_by fst (regions cm)) [])
           (blank_png cm) (masks_dir cm) (Some (document cm))).
Proof.
  intros Hwf.
  assert (Hwf' : forall k r, In (k, r) (sort_by fst (regions cm)) -> wf_region r).
  { intros k r Hin. apply (Hwf k r).
    now apply (Permutation_in _ (sort_by_perm fst (regions cm))). }
  unfold save_data, bind, get, set_data_json, load_data.
  cbn [snd data_json with_data_json]. unfold document at 1, regions_document.
  set (items := map (fun '(k, r) => (str k, sort_keys (JDict (get_json r))))
                    (sort_by fst (regions cm))).
  assert (Hload : load_regions items [] = Ok
            (fold_left (fun acc kr => dict_set Z.eq_dec (fst kr) (reloaded (snd kr)) acc)
                       (sort_by fst (regions cm)) []))
    by apply (load_regions_saved _ [] Hwf').
  clearbody items.
  destruct (name cm), (custom cm), (region_max cm); simpl; rewrite Hload; reflexivity.
Qed.

Lemma sorted_nodup_lt (l : list Z) :
  StronglySorted Z.le l -> NoDup l -> StronglySorted Z.lt l.
Proof.
  intros Hs. induction Hs as [|a l Hl IH Ha]; intros Hnd; [constructor|].
  apply NoDup_cons_iff in Hnd as [Hin Hnd]. constructor; [now apply IH|].
  rewrite Forall_forall in *. intros x Hx.
  assert (a <= x) by now apply Ha.
  assert (a <> x) by (intros ->; contradiction). lia.
Qed.

(** X21.  Saving and loading again puts the registry in increasing key
    order: after [save_data] and [load_data] the registry holds the same
    keys, listed in strictly increasing order, whatever their order was.
    This is the order in which [prune_masks] renames without
    overwriting. *)
Theorem save_load_orders (cm : ConquestMap) :
  NoDup (dict_keys (regions cm)) ->
  (forall k r, In (k, r) (regions cm) -> wf_region r) ->
  exists cm',
    load_data (snd (save_data cm)) = (Ok tt, cm') /\
    Permutation (dict_keys (regions cm')) (dict_keys (regions cm)) /\
    StronglySorted Z.lt (dict_keys (regions cm')).
Proof.
  intros Hnd Hwf. eexists. split; [now apply save_load_run|].
  cbn [regions].
  assert (Hp : Permutation (map fst (sort_by fst (regions cm))) (dict_keys (regions cm))).
  { unfold dict_keys. apply Permutation_map, sort_by_perm. }
  assert (Hnd' : NoDup (map fst (sort_by fst (regions cm)))).
  { apply (Permutation_NoDup (l := dict_keys (regions cm))); [now symmetry|exact Hnd]. }
  rewrite (fold_set_keys (fun e => reloaded (snd e)) (sort_by fst (regions cm)) []);
    [|exact Hnd'].
  cbn [dict_keys map app]. split; [exact Hp|].
  apply sorted_nodup_lt; [|exact Hnd'].
  apply strongly_sorted_map with (R := fun x y : Z * Region => fst x <= fst y);
    [auto|apply sort_by_sorted].
Qed.

(** ** Samples *)

Lemma open_region_mask_eq (cm : ConquestMap) (k : Z) :
  open_region_mask cm k =
  match mask_file k cm with
  | Some m => Done m
  | None => Fail (Raised FileNotFoundError)
  end.
Proof.
  unfold open_region_mask, mask_file.
  destruct (masks_dir cm) as [d|]; [|reflexivity].
  destruct (dict_get stem_eq_dec (Num k) d); reflexivity.
Qed.

Lemma pix_logical_and (a b : image) (q : point) :
  pix (logical_and a b) q = 0 <-> pix a q = 0 \/ pix b q = 0.
Proof.
  unfold logical_and. cbn [pix].
  destruct (pix a q =? 0) eqn:Ea; destruct (pix b q =? 0) eqn:Eb; simpl;
    rewrite ?Z.eqb_eq, ?Z.eqb_neq in *; split; auto; try discriminate.
  intros [H|H]; contradiction.
Qed.

(** The mask that [composite_regions] combines from masks of one size: it
    is clear ([0]) where one of them is. *)
Lemma combine_region_masks_spec (cm : ConquestMap) (w h : Z) (regions : list Z) :
  forall acc : option image,
    (forall r, In r regions ->
       exists m, mask_file r cm = Some m /\ width m = w /\ height m = h) ->
    (forall c, acc = Some c -> width c = w /\ height c = h) ->
    exists res,
      combine_region_masks cm regions acc = Done res /\
      (res = None -> regions = [] /\ acc = None) /\
      forall c, res = Some c ->
        width c = w /\ height c = h /\
        forall q,
          pix c q = 0 <->
          (exists a, acc = Some a /\ pix a q = 0) \/
          (exists r m, In r regions /\ mask_file r cm = Some m /\ pix m q = 0).
Proof.
  induction regions as [|r regions IH]; intros acc Hfiles Hacc.
  - exists acc. split; [reflexivity|]. split; [auto|].
    intros c ->. destruct (Hacc c eq_refl) as [Hw Hh]. split; [exact Hw|].
    split; [exact Hh|]. intros q. split.
    + intros Hq. left. eauto.
    + intros [(a & [= <-] & Hq)|(r & m & [] & _)]. exact Hq.
  - destruct (Hfiles r (or_introl eq_refl)) as (m & Hm & Hw & Hh).
    cbn [combine_region_masks]. rewrite open_region_mask_eq, Hm.
    set (acc' := match acc with None => m | Some c => logical_and c m end).
    assert (Hsize : width acc' = w /\ height acc' = h).
    { unfold acc'. destruct acc as [c|]; [|now split].
      destruct (Hacc c eq_refl) as [Hcw Hch]. simpl. rewrite Hcw, Hch, Hw, Hh.
      split; apply Z.min_id. }
    assert (Hpix : forall q, pix acc' q = 0 <->
                     (exists a, acc = Some a /\ pix a q = 0) \/ pix m q = 0).
    { intros q. unfold acc'. destruct acc as [c|].
      - rewrite pix_logical_and. split.
        + intros [H|H]; [left; eauto|now right].
        + intros [(a & [= <-] & H)|H]; [now left|now right].
      - split; [now right|]. intros [(a & E & _)|H]; [discriminate|exact H]. }
    destruct (IH (Some acc')) as (res & Hrun & Hnone & Hsome).
    { intros r' Hr'. apply Hfiles. now right. }
    { intros c [= <-]. exact Hsize. }
    exists res. split; [exact Hrun|]. split.
    + intros E. destruct (Hnone E) as [_ E']. discriminate.
    + intros c Hc. destruct (Hsome c Hc) as (Hcw & Hch & Hcq).
      split; [exact Hcw|]. split; [exact Hch|]. intros q. rewrite Hcq. split.
      * intros [(a & [= <-] & Hq)|(r' & m' & Hin & Hm' & Hq)].
        -- apply Hpix in Hq as [Hq|Hq]; [now left|].
           right. exists r, m. split; [now left|now split].
        -- right. exists r', m'. split; [now right|now split].
      * intros [Hq|(r' & m' & [<-|Hin] & Hm' & Hq)].
        -- left. exists acc'. split; [reflexivity|]. apply Hpix. now left.
        -- rewrite Hm in Hm'. injection Hm' as <-.
           left. exists acc'. split; [reflexivity|]. apply Hpix. now right.
        -- right. exists r', m'. now repeat split.
Qed.

(** X22.  [composite_regions] paints the union of the regions: for a
    list of at least one region whose mask files exist and have the size
    of the image, the result is the image with the colour at every pixel
    that is filled in the mask of one of the regions, and unchanged at the
    pixels that are filled in none. *)
Theorem composite_regions_paints (cm : ConquestMap) (im : image)
        (regions : list Z) (color : Z) :
  regions <> [] ->
  (forall r, In r regions ->
     exists m, mask_file r cm = Some m /\
               width m = width im /\ height m = height im) ->
  exists out,
    composite_regions cm (Some im) regions color = Done (Some out) /\
    width out = width im /\ height out = height im /\
    forall q,
      ((exists r m, In r regions /\ mask_file r cm = Some m /\ pix m q = 0) ->
       pix out q = color) /\
      ((forall r m, In r regions -> mask_file r cm = Some m -> pix m q <> 0) ->
       pix out q = pix im q).
Proof.
  intros Hne Hfiles.
  destruct (combine_region_masks_spec cm (width im) (height im) regions None Hfiles)
    as (res & Hrun & Hnone & Hsome); [discriminate|].
  unfold composite_regions. rewrite Hrun.
  destruct res as [c|]; [|destruct (Hnone eq_refl); contradiction].
  destruct (Hsome c eq_refl) as (Hw & Hh & Hq).
  unfold Image_composite. rewrite Hw, Hh, !Z.eqb_refl. cbn [andb].
  eexists. split; [reflexivity|]. cbn [width height pix Image_new fst snd].
  split; [reflexivity|]. split; [reflexivity|]. intros q. split.
  - intros Hin. assert (E : pix c q = 0) by (apply Hq; now right).
    now rewrite E.
  - intros Hout. destruct (pix c q =? 0) eqn:E; [|reflexivity].
    apply Z.eqb_eq, Hq in E as [(a & Ha & _)|(r & m & Hin & Hm & Hz)];
      [discriminate|]. elim (Hout r m Hin Hm Hz).
Qed.

(** X23.  On a map with fewer than four regions, [get_sample()] without
    region raises [AttributeError] once the [masks] directory and
    [blank.png] exist, whatever the shuffle: a quarter of the regions is
    none, the first [composite_regions] call returns [None], and the second
    call reads [im.size] on it. *)
Theorem get_sample_needs_four (red green blue yellow : Z)
        (get_numbered : ConquestMap -> image -> outcome image)
        (shuffled : list Z) (cm : ConquestMap) (d : directory) (blank : image) :
  masks_dir cm = Some d -> blank_png cm = Some blank ->
  Permutation shuffled (dict_keys (regions cm)) ->
  (length (regions cm) < 4)%nat ->
  get_sample red green blue yellow get_numbered shuffled cm None
  = Fail AttributeError.
Proof.
  intros Hd Hb Hp Hlen.
  assert (Hfourth : (length shuffled / 4 = 0)%nat).
  { apply Nat.div_small. rewrite (Permutation_length Hp).
    unfold dict_keys. now rewrite length_map. }
  unfold get_sample, open_blank. rewrite Hd, Hb.
  unfold paint_quarters. rewrite Hfourth. reflexivity.
Qed.

(** X24.  [sample_region] returns the empty list for a key that is not in
    the registry; for a key of the registry whose mask file has the size
    of [blank.png] it returns, without the numbered image, one image:
    [blank.png] with the pixels of the region's mask in red. *)
Theorem sample_region_paints (red : Z)
        (get_numbered : ConquestMap -> image -> outcome image)
        (cm : ConquestMap) (region : Z) (blank m : image) :
  blank_png cm = Some blank -> mask_file region cm = Some m ->
  width m = width blank -> height m = height blank ->
  (~ In region (dict_keys (regions cm)) ->
   sample_region red get_numbered cm region false = Done []) /\
  (In region (dict_keys (regions cm)) ->
   exists out,
     sample_region red get_numbered cm region false = Done [out] /\
     width out = width blank /\ height out = height blank /\
     forall q, pix out q = if pix m q =? 0 then red else pix blank q).
Proof.
  intros Hb Hm Hw Hh. unfold sample_region. split.
  - intros Hout. apply (dict_get_none Z.eq_dec) in Hout.
    unfold dict_mem. now rewrite Hout.
  - intros Hin. apply (dict_mem_in Z.eq_dec) in Hin. rewrite Hin. cbn [negb].
    unfold open_blank. rewrite Hb.
    unfold composite_regions, combine_region_masks.
    rewrite open_region_mask_eq, Hm.
    unfold Image_composite. rewrite Hw, Hh, !Z.eqb_refl. cbn [andb].
    eexists. split; [reflexivity|]. now repeat split.
Qed.

(** ** Sorting and pruning a map that is already in order *)


(** Entries with fresh keys, set one after the other into the empty
    dictionary, make the dictionary that lists them. *)
Lemma fold_set_fresh {V W} (g : Z * V -> W) (E : list (Z * V)) :
  forall acc : dict Z W,
    NoDup (dict_keys acc ++ map fst E) ->
    fold_left (fun acc e => dict_set Z.eq_dec (fst e) (g e) acc) E acc
    = acc ++ map (fun e => (fst e, g e)) E.
Proof.
  induction E as [|e E IH]; intros acc Hnd; simpl; [now rewrite app_nil_r|].
  assert (Hn : ~ In (fst e) (dict_keys acc)).
  { intros Hin. apply NoDup_remove_2 in Hnd. apply Hnd. apply in_or_app. now left. }
  assert (Hset : dict_set Z.eq_dec (fst e) (g e) acc = acc ++ [(fst e, g e)]).
  { clear -Hn. induction acc as [|[k v] acc IHa]; [reflexivity|].
    simpl in *. destruct (Z.eq_dec (fst e) k) as [E|_]; [elim Hn; now left|].
    f_equal. apply IHa. tauto. }
  rewrite Hset, IH.
  - now rewrite <- app_assoc.
  - unfold dict_keys. rewrite map_app. simpl. rewrite <- app_assoc. exact Hnd.
Qed.




Lemma without_orphans_same (cm : ConquestMap) (stems : list stem) (d : directory) :
  (forall s, In s stems -> orphan cm s = false) ->
  without_orphans cm stems d = d /\ filter (orphan cm) stems = [].
Proof.
  unfold without_orphans. revert d.
  induction stems as [|s stems IH]; intros d H; [now split|].
  cbn [fold_left filter]. rewrite (H s (or_introl eq_refl)).
  apply IH. intros s' Hs'. apply H. now right.
Qed.

Lemma prune_pairs_dense (n start : nat) :
  prune_pairs start (map Z.of_nat (seq start n)) = [].
Proof.
  revert start. induction n as [|n IH]; intros start; [reflexivity|].
  cbn [seq map prune_pairs]. rewrite Z.eqb_refl. apply IH.
Qed.

Lemma combine_keys {V} (R : dict Z V) :
  map (fun e : Z * (Z * V) => (fst e, snd (snd e))) (combine (map fst R) R) = R.
Proof.
  induction R as [|[k v] R IH]; [reflexivity|]. simpl. now rewrite IH.
Qed.

(** X27.  Pruning a map that needs no pruning changes nothing: when the
    keys are [1..N] in order and every file of the [masks] directory is
    the mask of a key, [prune_masks] returns the empty list and leaves the
    registry and the files as they are; [region_max] is set to [N]. *)
Theorem prune_masks_pruned (cm : ConquestMap) (d : directory) (n : nat) :
  masks_dir cm = Some d ->
  NoDup (dict_keys d) ->
  dict_keys (regions cm) = numbered (S n) ->
  (forall s, In s (dict_keys d) -> exists k, s = Num k /\ In k (numbered (S n))) ->
  exists cm',
    prune_masks cm = (Ok [], cm') /\
    regions cm' = regions cm /\
    masks_dir cm' = masks_dir cm /\
    region_max cm' = Some (Z.of_nat (S n)).
Proof.
  intros Hd Hnd Hkeys Hfiles.
  set (R := regions cm) in *.
  assert (Hex : forall s, In s (dict_keys d) -> dict_get stem_eq_dec s d <> None).
  { intros s Hs. destruct (proj1 (dict_get_in stem_eq_dec s d) Hs) as (v & ->).
    discriminate. }
  assert (Hnum : forall s, In s (dict_keys d) -> exists k, s = Num k).
  { intros s Hs. destruct (Hfiles s Hs) as (k & -> & _). eauto. }
  destruct (without_orphans_same cm (dict_keys d) d) as [Hsame Hnone].
  { intros s Hs. destruct (Hfiles s Hs) as (k & -> & Hk). simpl. fold R.
    apply negb_false_iff, (dict_mem_in Z.eq_dec). now rewrite Hkeys. }
  assert (Hlen : length R = S n).
  { unfold dict_keys in Hkeys. rewrite <- (length_map fst), Hkeys.
    unfold numbered. now rewrite length_map, length_seq. }
  assert (HE : enumerate1 R = combine (map fst R) R).
  { unfold enumerate1. rewrite Hlen. fold (numbered (S n)). now rewrite <- Hkeys. }
  assert (Hpairs : renames (prune_pairs 1 (map fst R)) d = Ok d).
  { fold (dict_keys R). rewrite Hkeys. unfold numbered.
    now rewrite prune_pairs_dense. }
  assert (Hnew : fold_left (fun acc e => dict_set Z.eq_dec (fst e) (snd (snd e)) acc)
                           (enumerate1 R) [] = R).
  { rewrite (fold_set_fresh (fun e => snd (snd e)) (enumerate1 R) []).
    - cbn [app]. rewrite HE. apply combine_keys.
    - cbn [dict_keys map app]. rewrite enumerate1_fst, Hlen. apply numbered_nodup. }
  eexists. split; [|split; [|split]].
  - unfold prune_masks. unfold bind at 1, listdir. rewrite Hd.
    rewrite (bind_ok _ _ _ _ _
               (prune_files_run (dict_keys d) cm d [] Hd Hnum Hnd Hex)).
    rewrite Hsame, Hnone. cbn [app]. unfold bind at 1, get.
    change (regions (with_masks_dir d cm)) with R.
    rewrite (bind_ok _ _ _ _ _
               (prune_renames_run R 1 (with_masks_dir d cm) d d [] eq_refl Hpairs)).
    fold (enumerate1 R). rewrite Hnew.
    unfold bind at 1, set_regions. unfold bind at 1, lift.
    rewrite Hkeys, py_max_numbered. reflexivity.
  - reflexivity.
  - cbn. now rewrite Hd.
  - reflexivity.
Qed.

(** ** Bounds of [get_center] *)

Lemma qsum_lower (lo : Q) (l : list Q) :
  (forall x, In x l -> (lo <= x)%Q) ->
  (lo * inject_Z (Z.of_nat (length l)) <= qsum l)%Q.
Proof.
  induction l as [|a l IH]; intros H.
  - unfold qsum. simpl. rewrite Qmult_0_r. apply Qle_refl.
  - rewrite qsum_cons. cbn [length]. rewrite Nat2Z.inj_succ.
    unfold Z.succ. rewrite inject_Z_plus.
    rewrite Qmult_plus_distr_r, Qmult_1_r, Qplus_comm.
    apply Qplus_le_compat; [apply H; now left|].
    apply IH. intros x Hx. apply H. now right.
Qed.

Lemma qsum_upper (hi : Q) (l : list Q) :
  (forall x, In x l -> (x <= hi)%Q) ->
  (qsum l <= hi * inject_Z (Z.of_nat (length l)))%Q.
Proof.
  induction l as [|a l IH]; intros H.
  - unfold qsum. simpl. rewrite Qmult_0_r. apply Qle_refl.
  - rewrite qsum_cons. cbn [length]. rewrite Nat2Z.inj_succ.
    unfold Z.succ. rewrite inject_Z_plus.
    rewrite Qmult_plus_distr_r, Qmult_1_r, (Qplus_comm (hi * _)).
    apply Qplus_le_compat; [apply H; now left|].
    apply IH. intros x Hx. apply H. now right.
Qed.

Lemma mean_bounds (lo hi : Q) (l : list Q) :
  l <> [] ->
  (forall x, In x l -> (lo <= x <= hi)%Q) ->
  (lo <= qsum l / inject_Z (Z.of_nat (length l)) <= hi)%Q.
Proof.
  intros Hne H.
  assert (Hn : (0 < inject_Z (Z.of_nat (length l)))%Q).
  { rewrite <- (Zlt_Qlt 0). destruct l; [contradiction|simpl; lia]. }
  split.
  - apply Qle_shift_div_l; [exact Hn|]. apply qsum_lower. intros x Hx. now apply H.
  - apply Qle_shift_div_r; [exact Hn|]. apply qsum_upper. intros x Hx. now apply H.
Qed.

Lemma get_center_box (points : list (Q * Q)) (c : Q * Q)
      (xlo xhi ylo yhi : Q) :
  (forall p, In p points ->
     (xlo <= fst p <= xhi)%Q /\ (ylo <= snd p <= yhi)%Q) ->
  get_center points = Ok c ->
  (xlo <= fst c <= xhi)%Q /\ (ylo <= snd c <= yhi)%Q.
Proof.
  intros Hbox Hc.
  assert (Hne : points <> []) by (intros ->; discriminate).
  rewrite (get_center_ok points Hne) in Hc. injection Hc as <-. cbn [fst snd].
  split.
  - rewrite <- (length_map fst points). apply mean_bounds.
    + intros E. apply map_eq_nil in E. contradiction.
    + intros x Hx. apply in_map_iff in Hx as (p & <- & Hp). now apply Hbox.
  - rewrite <- (length_map snd points). apply mean_bounds.
    + intros E. apply map_eq_nil in E. contradiction.
    + intros y Hy. apply in_map_iff in Hy as (p & <- & Hp). now apply Hbox.
Qed.

(** X28.  The centre that [get_center] returns for pixel coordinates, as
    [execute] and [recalculate_region] call it, lies in the bounding box
    of the pixels: each of its coordinates is between the least and the
    greatest coordinate of the points. *)
Theorem get_center_bounds (points : pset) (c : Q * Q) (xlo xhi ylo yhi : Z) :
  (forall p, In p points -> xlo <= fst p <= xhi /\ ylo <= snd p <= yhi) ->
  get_center (map qpoint points) = Ok c ->
  (inject_Z xlo <= fst c <= inject_Z xhi)%Q /\
  (inject_Z ylo <= snd c <= inject_Z yhi)%Q.
Proof.
  intros Hbox Hc. apply (get_center_box (map qpoint points)); [|exact Hc].
  intros q Hq. apply in_map_iff in Hq as (p & <- & Hp).
  destruct (Hbox p Hp) as ((H1 & H2) & H3 & H4). unfold qpoint. cbn [fst snd].
  rewrite <- !Zle_Qle. auto.
Qed.

(** ** Closed instances *)

(** Keys [2] and [5] in increasing order, their masks, and the orphan
    [3.png]. *)
Definition gapped_map : ConquestMap :=
  mkMap None None (Some 5)
        [(2, mkRegion (0, 0)%Q 1 [("name"%string, JStr "two")]);
         (5, mkRegion (1, 0)%Q 1 [("name"%string, JStr "five")])]
        (Some (mkImage 2 1 (fun _ => 255)))
        (Some [(Num 2, column_mask 0); (Num 3, column_mask 0); (Num 5, column_mask 1)])
        None.

Lemma prune_masks_sorted_witness :
  StronglySorted Z.lt (dict_keys (regions gapped_map)) /\
  exists cm',
    prune_masks gapped_map = (Ok [Num 3], cm') /\
    dict_keys (regions cm') = [1; 2] /\
    region_max cm' = Some 2 /\
    (forall j k r, nth_error (regions gapped_map) j = Some (k, r) ->
       dict_get Z.eq_dec (Z.of_nat j + 1) (regions cm') = Some r /\
       mask_file (Z.of_nat j + 1) cm' = mask_file k gapped_map) /\
    (forall s, orphan gapped_map s = true ->
       In s [Num 2; Num 3; Num 5] ->
       (forall j, (j < 2)%nat -> s <> Num (Z.of_nat j + 1)) ->
       match masks_dir cm' with
       | Some d' => dict_get stem_eq_dec s d' = None
       | None => False
       end).
Proof.
  assert (Hs : StronglySorted Z.lt (dict_keys (regions gapped_map))).
  { simpl. repeat constructor. }
  split; [exact Hs|].
  apply (prune_masks_sorted gapped_map
           [(Num 2, column_mask 0); (Num 3, column_mask 0); (Num 5, column_mask 1)]).
  - reflexivity.
  - simpl. repeat constructor; simpl; intuition discriminate.
  - intros s [<-|[<-|[<-|[]]]]; eexists; reflexivity.
  - exact Hs.
  - intros k [<-|[<-|[]]]; simpl; lia.
  - discriminate.
  - intros k [<-|[<-|[]]]; discriminate.
Defined.

Lemma execute_returns_witness :
  blank_png two_halves_map = Some two_halves /\
  exists rs cm', execute default_regioner two_halves_map = (Ok (Some rs), cm').
Proof.
  split; [reflexivity|].
  apply (execute_returns default_regioner two_halves_map two_halves);
    [reflexivity|simpl; lia|simpl; lia].
Defined.

Lemma execute_raises_when_low_witness :
  blank_png small_map = Some (mkImage 5 5 (fun _ => 255)) /\
  fst (execute default_regioner small_map) = Raise ValueError.
Proof.
  split; [reflexivity|].
  apply (execute_raises_when_low default_regioner small_map
           (mkImage 5 5 (fun _ => 255))); [reflexivity|simpl; lia].
Defined.

Lemma delete_masks_absent_key_witness :
  (exists k, In k [1; 3] /\ ~ In k (dict_keys (regions sparse_map))) /\
  exists rs,
    delete_masks [1; 3] sparse_map = (Ok None, with_regions rs sparse_map) /\
    forall k, In k (dict_keys rs) -> In k (dict_keys (regions sparse_map)).
Proof.
  assert (H : exists k, In k [1; 3] /\ ~ In k (dict_keys (regions sparse_map))).
  { exists 3. split; [simpl; auto|]. simpl. intros [H|[H|[]]]; discriminate. }
  split; [exact H|].
  exact (delete_masks_absent_key [1; 3] sparse_map H).
Defined.

Lemma generate_masks_region_max_witness :
  (exists r0 rs,
     generate_masks two_halves_map
     = (Ok (Some (r0 :: rs)), snd (generate_masks two_halves_map))) /\
  exists n : nat,
    dict_keys (regions (snd (generate_masks two_halves_map))) = numbered (S n) /\
    py_max (dict_keys (regions (snd (generate_masks two_halves_map))))
    = Ok (Z.of_nat (S n)) /\
    region_max (snd (generate_masks two_halves_map)) = Some (Z.of_nat (S n) + 1).
Proof.
  assert (H : exists r0 rs,
             generate_masks two_halves_map
             = (Ok (Some (r0 :: rs)), snd (generate_masks two_halves_map))).
  { vm_compute. eexists. eexists. reflexivity. }
  split; [exact H|].
  destruct H as (r0 & rs & H).
  exact (generate_masks_region_max two_halves_map _ r0 rs H).
Defined.

Lemma floodfill_loop_terminates_witness :
  locate two_halves (0, 0) = Ok (0, 0) /\
  exists r,
    floodfill_loop 0 None 0 (pix two_halves (0, 0))
      (S (length (coords two_halves))) (store two_halves (0, 0) 0) [(0, 0)] [] []
    = Some r.
Proof.
  split; [reflexivity|].
  apply (floodfill_loop_terminates two_halves (0, 0) (0, 0) 0 None 0); reflexivity.
Defined.

Lemma top_point_least_witness :
  (exists q, in_image (band_mask 10 20) q = true /\ pix (band_mask 10 20) q = 0) /\
  top_point (band_mask 10 20) = (0, 10) /\
  in_image (band_mask 10 20) (top_point (band_mask 10 20)) = true /\
  pix (band_mask 10 20) (top_point (band_mask 10 20)) = 0 /\
  forall q, in_image (band_mask 10 20) q = true -> pix (band_mask 10 20) q = 0 ->
            snd (top_point (band_mask 10 20)) <= snd q.
Proof.
  assert (H : exists q, in_image (band_mask 10 20) q = true /\
                        pix (band_mask 10 20) q = 0).
  { exists (1, 17). split; reflexivity. }
  split; [exact H|]. split; [vm_compute; reflexivity|].
  exact (top_point_least (band_mask 10 20) H).
Defined.

Lemma chunker_concat_witness :
  chunker [1; 2; 3; 4; 5] 2 = Ok [[1; 2]; [3; 4]; [5]] /\
  concat [[1; 2]; [3; 4]; [5]] = [1; 2; 3; 4; 5].
Proof.
  assert (H : chunker [1; 2; 3; 4; 5] 2 = Ok [[1; 2]; [3; 4]; [5]]) by reflexivity.
  split; [exact H|].
  apply (chunker_concat [1; 2; 3; 4; 5] 2 [[1; 2]; [3; 4]; [5]]); [lia|exact H].
Defined.

Lemma floodfill_component_witness :
  in_image two_halves (0, 0) = true /\
  0 < _color_diff 0 (pix two_halves (0, 0)) /\
  let im' := fst (floodfill two_halves (0, 0) 0 (Some 0) 0) in
  let filled := snd (floodfill two_halves (0, 0) 0 (Some 0) 0) in
  In (0, 0) filled /\ NoDup filled /\
  (forall q, In q filled -> q <> (0, 0) ->
     in_image two_halves q = true /\
     fill_test 0 (Some 0) 0 (pix two_halves (0, 0)) (pix two_halves q) = true) /\
  (forall q, In q filled -> reach (fun x => In x filled) (0, 0) q) /\
  (forall p q, In p filled -> In q (neighbours p) -> in_image two_halves q = true ->
     fill_test 0 (Some 0) 0 (pix two_halves (0, 0)) (pix two_halves q) = true ->
     In q filled) /\
  width im' = width two_halves /\ height im' = height two_halves /\
  (forall q, In q filled -> pix im' q = 0) /\
  (forall q, ~ In q filled -> pix im' q = pix two_halves q).
Proof.
  split; [reflexivity|]. split; [reflexivity|].
  apply (floodfill_component two_halves (0, 0) 0 (Some 0) 0);
    [reflexivity|reflexivity|apply surjective_pairing].
Defined.

Lemma floodfill_again_witness :
  0 <= 0 /\
  floodfill (fst (floodfill two_halves (0, 0) 0 (Some 0) 0)) (0, 0) 0 (Some 0) 0
  = (fst (floodfill two_halves (0, 0) 0 (Some 0) 0), []).
Proof.
  split; [lia|].
  apply (floodfill_again two_halves (0, 0) 0 (Some 0) 0 _
           (snd (floodfill two_halves (0, 0) 0 (Some 0) 0)));
    [lia|apply surjective_pairing].
Defined.

Lemma execute_regions_cover_witness :
  execute default_regioner two_halves_map
  = (Ok (Some (executed default_regioner two_halves_map)),
     snd (execute default_regioner two_halves_map)) /\
  forall q,
    in_image two_halves q = true /\ pix two_halves q <> 0 <->
    exists k m,
      In k (dict_keys (executed default_regioner two_halves_map)) /\
      mask_file k (snd (execute default_regioner two_halves_map)) = Some m /\
      pix m q = 0.
Proof.
  assert (H : execute default_regioner two_halves_map
              = (Ok (Some (executed default_regioner two_halves_map)),
                 snd (execute default_regioner two_halves_map)))
    by (vm_compute; reflexivity).
  split; [exact H|].
  exact (execute_regions_cover default_regioner two_halves_map _ _ two_halves
           eq_refl eq_refl H).
Defined.

Lemma execute_regions_components_witness :
  execute default_regioner two_halves_map
  = (Ok (Some (executed default_regioner two_halves_map)),
     snd (execute default_regioner two_halves_map)) /\
  forall k, In k (dict_keys (executed default_regioner two_halves_map)) ->
    exists m,
      mask_file k (snd (execute default_regioner two_halves_map)) = Some m /\
      (exists s, pix m s = 0 /\
                 forall q, pix m q = 0 -> reach (fun x => pix m x = 0) s q) /\
      (forall p q, pix m p = 0 -> In q (neighbours p) ->
                   in_image two_halves q = true -> pix two_halves q <> 0 ->
                   pix m q = 0).
Proof.
  assert (H : execute default_regioner two_halves_map
              = (Ok (Some (executed default_regioner two_halves_map)),
                 snd (execute default_regioner two_halves_map)))
    by (vm_compute; reflexivity).
  split; [exact H|].
  exact (execute_regions_components default_regioner two_halves_map _ _ two_halves
           eq_refl H).
Defined.

Lemma execute_regions_measured_witness :
  execute default_regioner two_halves_map
  = (Ok (Some (executed default_regioner two_halves_map)),
     snd (execute default_regioner two_halves_map)) /\
  dict_keys (executed default_regioner two_halves_map)
  = numbered (length (executed default_regioner two_halves_map)) /\
  forall k r,
    dict_get Z.eq_dec k (executed default_regioner two_halves_map) = Some r ->
    exists m c,
      mask_file k (snd (execute default_regioner two_halves_map)) = Some m /\
      weight r = Z.of_nat (length (mask_points m)) /\ 1 <= weight r /\
      get_center (map qpoint (mask_points m)) = Ok c /\
      (fst c == fst (center r))%Q /\ (snd c == snd (center r))%Q /\
      data r = [].
Proof.
  assert (H : execute default_regioner two_halves_map
              = (Ok (Some (executed default_regioner two_halves_map)),
                 snd (execute default_regioner two_halves_map)))
    by (vm_compute; reflexivity).
  split; [exact H|].
  exact (execute_regions_measured default_regioner two_halves_map _ _ two_halves
           eq_refl H).
Defined.



Lemma recalculate_after_generate_witness :
  (exists r0 rs,
     generate_masks two_halves_map
     = (Ok (Some (r0 :: rs)), snd (generate_masks two_halves_map))) /\
  exists cm2,
    recalculate_region None (snd (generate_masks two_halves_map)) = (Ok tt, cm2) /\
    dict_keys (regions cm2) = dict_keys (regions (snd (generate_masks two_halves_map))) /\
    forall k r,
      dict_get Z.eq_dec k (regions (snd (generate_masks two_halves_map))) = Some r ->
      exists r',
        dict_get Z.eq_dec k (regions cm2) = Some r' /\
        weight r' = weight r /\
        (fst (center r') == fst (center r))%Q /\
        (snd (center r') == snd (center r))%Q /\
        data r' = data r.
Proof.
  assert (H : exists r0 rs,
             generate_masks two_halves_map
             = (Ok (Some (r0 :: rs)), snd (generate_masks two_halves_map))).
  { vm_compute. eexists. eexists. reflexivity. }
  split; [exact H|].
  destruct H as (r0 & rs & H).
  exact (recalculate_after_generate two_halves_map _ r0 rs H).
Defined.

Lemma combine_masks_falsy_untouched_witness :
  combine_masks [1] merge_map = (Ok None, snd (combine_masks [1] merge_map)) /\
  snd (combine_masks [1] merge_map) = merge_map.
Proof.
  assert (H : combine_masks [1] merge_map
              = (Ok None, snd (combine_masks [1] merge_map))) by reflexivity.
  split; [exact H|].
  apply (combine_masks_falsy_untouched [1] merge_map _ None H). now left.
Defined.

(** The registry of [merge_map] without the region [2], whose mask file
    is still there. *)
Definition stray_mask_map : ConquestMap :=
  mkMap None None (Some 1)
        [(1, mkRegion (0, 0)%Q 1 [])]
        (blank_png merge_map) (masks_dir merge_map) None.

Lemma combine_masks_absent_key_witness :
  (exists k, In k [1; 2] /\ ~ In k (dict_keys (regions stray_mask_map))) /\
  exists r,
    combine_masks [1; 2] stray_mask_map = (Ok r, stray_mask_map) /\
    (r = None \/ r = Some 0).
Proof.
  assert (H : exists k, In k [1; 2] /\ ~ In k (dict_keys (regions stray_mask_map))).
  { exists 2. split; [simpl; auto|]. simpl. intros [E|[]]. discriminate. }
  split; [exact H|].
  apply (combine_masks_absent_key [1; 2] stray_mask_map H).
  intros k [<-|[<-|[]]]; eexists; reflexivity.
Defined.

Lemma delete_masks_removes_witness :
  NoDup [5] /\
  exists cm',
    delete_masks [5] sparse_map = (Ok (Some [5]), cm') /\
    (forall k, In k (dict_keys (regions cm')) <->
               In k (dict_keys (regions sparse_map)) /\ ~ In k [5]) /\
    (forall k, ~ In k [5] ->
               dict_get Z.eq_dec k (regions cm')
               = dict_get Z.eq_dec k (regions sparse_map)) /\
    masks_dir cm' = masks_dir sparse_map /\ blank_png cm' = blank_png sparse_map /\
    data_json cm' = Some (document cm') /\
    (region_max_in [5] sparse_map = false -> region_max cm' = region_max sparse_map) /\
    (region_max_in [5] sparse_map = true ->
     exists m, region_max cm' = Some m /\ In m (dict_keys (regions cm')) /\
               forall k, In k (dict_keys (regions cm')) -> k <= m).
Proof.
  assert (Hnd : NoDup [5]) by (repeat constructor; intros []).
  split; [exact Hnd|].
  apply (delete_masks_removes [5] sparse_map Hnd).
  - intros k [<-|[]]. simpl. auto.
  - intros _. exists 1. split; [simpl; auto|]. intros [E|[]]. discriminate.
Defined.

Lemma save_load_orders_witness :
  NoDup (dict_keys (regions unsorted_map)) /\
  exists cm',
    load_data (snd (save_data unsorted_map)) = (Ok tt, cm') /\
    Permutation (dict_keys (regions cm')) (dict_keys (regions unsorted_map)) /\
    StronglySorted Z.lt (dict_keys (regions cm')).
Proof.
  assert (Hnd : NoDup (dict_keys (regions unsorted_map))).
  { simpl. repeat constructor; simpl; intuition lia. }
  split; [exact Hnd|].
  apply (save_load_orders unsorted_map Hnd).
  intros k r [[= <- <-]|[[= <- <-]|[]]]; unfold wf_region; simpl;
    repeat first [constructor | progress simpl | intuition discriminate].
Defined.

Lemma composite_regions_paints_witness :
  [1; 2] <> [] /\
  exists out,
    composite_regions merge_map (Some (mkImage 2 1 (fun _ => 255))) [1; 2] 7
    = Done (Some out) /\
    width out = 2 /\ height out = 1 /\
    forall q,
      ((exists r m, In r [1; 2] /\ mask_file r merge_map = Some m /\ pix m q = 0) ->
       pix out q = 7) /\
      ((forall r m, In r [1; 2] -> mask_file r merge_map = Some m -> pix m q <> 0) ->
       pix out q = pix (mkImage 2 1 (fun _ => 255)) q).
Proof.
  split; [discriminate|].
  apply (composite_regions_paints merge_map (mkImage 2 1 (fun _ => 255)) [1; 2] 7);
    [discriminate|].
  intros r [<-|[<-|[]]]; eexists; repeat split; reflexivity.
Defined.

Lemma get_sample_needs_four_witness :
  (length (regions merge_map) < 4)%nat /\
  get_sample 1 2 3 4 (fun _ im => Done im) [2; 1] merge_map None
  = Fail AttributeError.
Proof.
  split; [simpl; lia|].
  apply (get_sample_needs_four 1 2 3 4 (fun _ im => Done im) [2; 1] merge_map
           [(Num 1, column_mask 0); (Num 2, column_mask 1)]
           (mkImage 2 1 (fun _ => 255))); [reflexivity|reflexivity| |simpl; lia].
  simpl. apply perm_swap.
Defined.

Lemma sample_region_paints_witness :
  In 1 (dict_keys (regions merge_map)) /\
  exists out,
    sample_region 7 (fun _ im => Done im) merge_map 1 false = Done [out] /\
    width out = 2 /\ height out = 1 /\
    forall q, pix out q = if pix (column_mask 0) q =? 0 then 7 else 255.
Proof.
  assert (H : In 1 (dict_keys (regions merge_map))) by (simpl; auto).
  split; [exact H|].
  apply (sample_region_paints 7 (fun _ im => Done im) merge_map 1
           (mkImage 2 1 (fun _ => 255)) (column_mask 0));
    [reflexivity|reflexivity|reflexivity|reflexivity|exact H].
Defined.


Lemma prune_masks_pruned_witness :
  dict_keys (regions merge_map) = numbered 2 /\
  exists cm',
    prune_masks merge_map = (Ok [], cm') /\
    regions cm' = regions merge_map /\
    masks_dir cm' = masks_dir merge_map /\
    region_max cm' = Some (Z.of_nat 2).
Proof.
  split; [reflexivity|].
  apply (prune_masks_pruned merge_map
           [(Num 1, column_mask 0); (Num 2, column_mask 1)] 1);
    [reflexivity| |reflexivity|].
  - simpl. repeat constructor; simpl; intuition discriminate.
  - intros s [<-|[<-|[]]]; eexists; (split; [reflexivity|]); simpl; auto.
Defined.

Lemma combine_masks_repeated_lowest_witness :
  Permutation [2; 3; 2] [2; 2; 3] /\
  exists cm',
    combine_masks [2; 3; 2] three_map = (Ok (Some 2), cm') /\
    forall k, In k (dict_keys (regions cm')) <->
              In k (dict_keys (regions three_map)) /\ ~ In k [2; 3].
Proof.
  assert (Hp : Permutation [2; 3; 2] [2; 2; 3]).
  { apply perm_skip, perm_swap. }
  split; [exact Hp|].
  apply (combine_masks_repeated_lowest [2; 3; 2] [3] 2 three_map
           (mkImage 3 1 (fun _ => 255))
           [(Num 2, three_mask 0); (Num 3, three_mask 1); (Num 5, three_mask 2)]
           Hp).
  - repeat constructor; simpl; intuition lia.
  - intros k [<-|[]]. lia.
  - lia.
  - intros k [<-|[<-|[]]]; simpl; auto.
  - simpl. lia.
  - exists 5. split; [simpl; auto|]. simpl. intuition lia.
  - reflexivity.
  - reflexivity.
  - intros k [<-|[<-|[]]]; eexists; reflexivity.
Defined.


Lemma get_center_bounds_witness :
  get_center (map qpoint [(0, 0); (2, 4)]) = Ok (2 # 2, 4 # 2)%Q /\
  (inject_Z 0 <= 2 # 2 <= inject_Z 2)%Q /\ (inject_Z 0 <= 4 # 2 <= inject_Z 4)%Q.
Proof.
  assert (H : get_center (map qpoint [(0, 0); (2, 4)]) = Ok (2 # 2, 4 # 2)%Q).
  { vm_compute. reflexivity. }
  split; [exact H|].
  apply (get_center_bounds [(0, 0); (2, 4)] (2 # 2, 4 # 2)%Q 0 2 0 4); [|exact H].
  intros p [<-|[<-|[]]]; simpl; lia.
Defined.
